(** * webtorrent-cli: the argument parser of [bin/cmd.js]

    A shallow embedding of [minimistPrettyParse] (cmd.js, lines 2529-2618)
    with its two local functions [buildOptions] and [parseTemplates], of
    the schema tables [options] and [commands] (lines 1694-1755), and of
    the flag tokenizer it delegates to, the npm package [minimist].

    JavaScript data is modelled as follows.
    - Strings are [string]s; a character is a code unit below 256.
    - A primitive is a boolean, a string or a number.  A number is kept as
      the numeric literal it was read from: the parser never computes with
      numbers, it only tests them for truthiness.
    - A value is [undefined], a primitive or an array of primitives.
    - The parse result, an object used as a dictionary, is a
      [gmap string value]; two results are equal when they have the same
      properties with the same values.
    - Objects whose key order is observed ([Object.entries],
      [Object.keys(..).forEach]) are association lists in creation order.
    - A call either returns, throws ([Error] for [throw new Error(..)],
      [TypeError] for a fault of the runtime), or is [Unmodelled]: property
      names that contain a dot (minimist builds nested objects for them) or
      that name a member of [Object.prototype] are outside the embedding. *)

From Stdlib Require Import String Ascii ZArith NArith List Bool Lia Permutation.
From stdpp Require Import base option list gmap strings.

Local Open Scope string_scope.
Local Open Scope bool_scope.
Local Open Scope list_scope.

(** ** Characters and strings *)

Module Str.

Definition code (c : ascii) : N := N_of_ascii c.

Definition in_range (lo hi : N) (c : ascii) : bool :=
  ((lo <=? code c) && (code c <=? hi))%N.

(** [\d], [[a-z]], [[A-Z]], [[a-zA-Z]] and [\w]. *)
Definition is_digit : ascii -> bool := in_range 48 57.
Definition is_lower : ascii -> bool := in_range 97 122.
Definition is_upper : ascii -> bool := in_range 65 90.
Definition is_alpha (c : ascii) : bool := is_lower c || is_upper c.
Definition is_word (c : ascii) : bool :=
  is_alpha c || is_digit c || Ascii.eqb c "_".

(** The regular expression [.] matches every character but a line
    terminator. *)
Definition is_dot (c : ascii) : bool :=
  negb (Ascii.eqb c "010" || Ascii.eqb c "013").

(** [w.toUpperCase()] on a character. *)
Definition to_upper (c : ascii) : ascii :=
  if is_lower c then ascii_of_N (code c - 32) else c.

Definition is_empty (s : string) : bool :=
  match s with EmptyString => true | String _ _ => false end.

Fixpoint drop (n : nat) (s : string) : string :=
  match n, s with
  | O, _ => s
  | S _, EmptyString => EmptyString
  | S n', String _ t => drop n' t
  end.

(** [s.startsWith(p)] *)
Fixpoint starts_with (p s : string) : bool :=
  match p, s with
  | EmptyString, _ => true
  | String _ _, EmptyString => false
  | String a p', String b s' => Ascii.eqb a b && starts_with p' s'
  end.

(** [s.includes(sub)] *)
Fixpoint includes (sub s : string) : bool :=
  starts_with sub s ||
  match s with
  | EmptyString => false
  | String _ t => includes sub t
  end.

(** [s.replace(sub, rep)] with a string pattern: the first occurrence. *)
Fixpoint replace_first (sub rep s : string) : string :=
  if starts_with sub s then rep +:+ drop (String.length sub) s
  else match s with
       | EmptyString => EmptyString
       | String c t => String c (replace_first sub rep t)
       end.

(** [s.split(sep)] for a separator of one character. *)
Fixpoint split (sep : ascii) (s : string) : list string :=
  match s with
  | EmptyString => [EmptyString]
  | String c t =>
      if Ascii.eqb c sep then EmptyString :: split sep t
      else match split sep t with
           | [] => [String c EmptyString]
           | w :: ws => String c w :: ws
           end
  end.

(** The longest prefix whose characters satisfy [p], and what follows. *)
Fixpoint take_while (p : ascii -> bool) (s : string) : string :=
  match s with
  | EmptyString => EmptyString
  | String c t => if p c then String c (take_while p t) else EmptyString
  end.

Fixpoint drop_while (p : ascii -> bool) (s : string) : string :=
  match s with
  | EmptyString => EmptyString
  | String c t => if p c then drop_while p t else s
  end.

Fixpoint all (p : ascii -> bool) (s : string) : bool :=
  match s with
  | EmptyString => true
  | String c t => p c && all p t
  end.

Fixpoint any (p : ascii -> bool) (s : string) : bool :=
  match s with
  | EmptyString => false
  | String c t => p c || any p t
  end.

(** The last character, [s.slice(-1)]. *)
Fixpoint last (s : string) : option ascii :=
  match s with
  | EmptyString => None
  | String c EmptyString => Some c
  | String _ t => last t
  end.

Definition char (c : ascii) : string := String c EmptyString.

End Str.

(** ** Values, objects and outcomes *)

Inductive prim : Type :=
  | PBool (b : bool)
  | PStr (s : string)
  | PNum (lit : string).

Inductive value : Type :=
  | VUndef
  | VPrim (p : prim)
  | VArr (l : list prim).

Coercion VPrim : prim >-> value.

Definition vtrue : value := VPrim (PBool true).
Definition vfalse : value := VPrim (PBool false).
Definition vstr (s : string) : value := VPrim (PStr s).

Inductive js_error : Type :=
  | Error (message : string)
  | TypeError (message : string).

Inductive outcome (A : Type) : Type :=
  | Return (a : A)
  | Throw (e : js_error)
  | Unmodelled.

Arguments Return {A} a.
Arguments Throw {A} e.
Arguments Unmodelled {A}.

#[global] Instance outcome_ret : MRet outcome := fun A a => Return a.
#[global] Instance outcome_bind : MBind outcome := fun A B f m =>
  match m with
  | Return a => f a
  | Throw e => Throw e
  | Unmodelled => Unmodelled
  end.

(** The dictionary a parse produces. *)
Abbreviation obj := (gmap string value).

(** [o[k]]: a missing property reads as [undefined]. *)
Definition get (k : string) (o : obj) : value := default VUndef (o !! k).

(** An object whose keys are enumerated: own properties in creation order. *)
Definition jsobj (A : Type) : Type := list (string * A).

Fixpoint oget {A} (k : string) (o : jsobj A) : option A :=
  match o with
  | [] => None
  | (k', a) :: o' => if String.eqb k k' then Some a else oget k o'
  end.

Fixpoint oput {A} (k : string) (a : A) (o : jsobj A) : jsobj A :=
  match o with
  | [] => [(k, a)]
  | (k', a') :: o' =>
      if String.eqb k k' then (k', a) :: o' else (k', a') :: oput k a o'
  end.

(** [o[k] = a] for a primitive [a]: assigning a primitive to [__proto__]
    changes nothing. *)
Definition oset {A} (k : string) (a : A) (o : jsobj A) : jsobj A :=
  if String.eqb k "__proto__" then o else oput k a o.

Definition has {A} (k : string) (o : jsobj A) : bool :=
  match oget k o with Some _ => true | None => false end.

(** [Object.keys(o)]: the array indices in ascending order, then the other
    keys in creation order. *)
Module KeyOrder.

Fixpoint decimal (acc : N) (s : string) : N :=
  match s with
  | EmptyString => acc
  | String c t => decimal (10 * acc + (Str.code c - 48))%N t
  end.

(** A canonical numeric string below [2^32 - 1]. *)
Definition array_index (s : string) : option N :=
  match s with
  | EmptyString => None
  | String c t =>
      if Str.all Str.is_digit s && (Str.is_empty t || negb (Ascii.eqb c "0"))
      then let n := decimal 0 s in
           if (n <? 4294967295)%N then Some n else None
      else None
  end.

Fixpoint insert_sorted (x : N * string) (l : list (N * string))
  : list (N * string) :=
  match l with
  | [] => [x]
  | y :: l' => if (fst x <=? fst y)%N then x :: l else y :: insert_sorted x l'
  end.

Definition indexed (k : string) : option (N * string) :=
  match array_index k with Some n => Some (n, k) | None => None end.

Definition is_index (k : string) : bool :=
  match array_index k with Some _ => true | None => false end.

Definition order (ks : list string) : list string :=
  map snd (foldr insert_sorted [] (omap indexed ks))
  ++ filter (fun k => is_index k = false) ks.

End KeyOrder.

Definition okeys {A} (o : jsobj A) : list string :=
  KeyOrder.order (map fst o).

(** ** Numbers

    [isNumber] of minimist decides which tokens become numbers; cmd.js
    tests a positional for truthiness (line 2602), which for a number asks
    whether it is zero. *)
Module Num.

Definition is_hex_digit (c : ascii) : bool :=
  Str.is_digit c || Str.in_range 97 102 c || Str.in_range 65 70 c.

(** [/^0x[0-9a-f]+$/i] *)
Definition is_hex (s : string) : bool :=
  match s with
  | String "0" (String x t) =>
      (Ascii.eqb x "x" || Ascii.eqb x "X")
      && negb (Str.is_empty t) && Str.all is_hex_digit t
  | _ => false
  end.

Definition is_sign (c : ascii) : bool := Ascii.eqb c "-" || Ascii.eqb c "+".

Definition strip_sign (s : string) : string :=
  match s with
  | String c t => if is_sign c then t else s
  | EmptyString => s
  end.

(** [(e[-+]?\d+)?$]: the exponent, [0] when there is none. *)
Definition exponent (s : string) : option Z :=
  match s with
  | EmptyString => Some 0%Z
  | String "e" t =>
      let d := strip_sign t in
      if negb (Str.is_empty d) && Str.all Str.is_digit d
      then let n := Z.of_N (KeyOrder.decimal 0 d) in
           Some (if Str.starts_with "-" t then (- n)%Z else n)
      else None
  | _ => None
  end.

(** The decimal pattern of [isNumber]: an optional sign; digits with an
    optional point and further digits, or a point and digits; an optional
    exponent.  The result holds the digits before the point, the digits
    after it and the exponent. *)
Definition decimal_parts (s : string) : option (string * string * Z) :=
  let u := strip_sign s in
  let int := Str.take_while Str.is_digit u in
  let r := Str.drop_while Str.is_digit u in
  match r with
  | String "." r' =>
      let frac := Str.take_while Str.is_digit r' in
      if Str.is_empty int && Str.is_empty frac then None
      else match exponent (Str.drop_while Str.is_digit r') with
           | Some e => Some (int, frac, e)
           | None => None
           end
  | _ =>
      if Str.is_empty int then None
      else match exponent r with
           | Some e => Some (int, EmptyString, e)
           | None => None
           end
  end.

(** [isNumber(x)] for a string [x]. *)
Definition isNumber (s : string) : bool :=
  is_hex s || match decimal_parts s with Some _ => true | None => false end.

Definition is_zero_digit (c : ascii) : bool := Ascii.eqb c "0".

(** Whether [Number(lit)] is falsy: zero (also by underflow, a double
    below [2^-1075] rounds to zero) or not a number. *)
Definition falsy (lit : string) : bool :=
  if is_hex lit then Str.all is_zero_digit (Str.drop 2 lit)
  else match decimal_parts lit with
       | None => true
       | Some (int, frac, e) =>
           let m := Z.of_N (KeyOrder.decimal 0 (int +:+ frac)) in
           let e10 := (e - Z.of_nat (String.length frac))%Z in
           (m =? 0)%Z || ((e10 <? 0)%Z && (m * 2 ^ 1075 <=? 10 ^ (- e10))%Z)
       end.

End Num.

(** Truthiness and [typeof] of a primitive. *)
Definition prim_truthy (p : prim) : bool :=
  match p with
  | PBool b => b
  | PStr s => negb (Str.is_empty s)
  | PNum lit => negb (Num.falsy lit)
  end.

Definition truthy (v : value) : bool :=
  match v with
  | VUndef => false
  | VPrim p => prim_truthy p
  | VArr _ => true
  end.

Definition typeof (p : prim) : string :=
  match p with
  | PBool _ => "boolean"
  | PStr _ => "string"
  | PNum _ => "number"
  end.

(** ** The schema and [buildOptions] (cmd.js, lines 2542-2573) *)

(** An entry of the [options] table: [alias], [default] and [type]; the
    fields that only feed the help text are left out. *)
Record OptionSpec : Type := {
  opt_alias : option string;
  opt_default : option prim;
  opt_type : option string
}.

Definition opt (alias : option string) (default : option prim)
    (type : option string) : OptionSpec :=
  {| opt_alias := alias; opt_default := default; opt_type := type |}.

(** An entry of the [commands] table: its [template]. *)
Record CommandSpec : Type := {
  template : option string
}.

(** The options object handed to minimist:
    [{ alias: {}, boolean: [], string: [], default: {} }]. *)
Record MinimistOpts : Type := {
  m_alias : jsobj string;
  m_boolean : list string;
  m_string : list string;
  m_default : jsobj prim
}.

Definition no_opts : MinimistOpts :=
  {| m_alias := []; m_boolean := []; m_string := []; m_default := [] |}.

Definition set_alias (k v : string) (m : MinimistOpts) : MinimistOpts :=
  {| m_alias := oset k v (m_alias m); m_boolean := m_boolean m;
     m_string := m_string m; m_default := m_default m |}.

Definition set_default (k : string) (v : prim) (m : MinimistOpts)
  : MinimistOpts :=
  {| m_alias := m_alias m; m_boolean := m_boolean m;
     m_string := m_string m; m_default := oset k v (m_default m) |}.

Definition push_boolean (k : string) (m : MinimistOpts) : MinimistOpts :=
  {| m_alias := m_alias m; m_boolean := (m_boolean m ++ [k])%list;
     m_string := m_string m; m_default := m_default m |}.

Definition push_string (k : string) (m : MinimistOpts) : MinimistOpts :=
  {| m_alias := m_alias m; m_boolean := m_boolean m;
     m_string := (m_string m ++ [k])%list; m_default := m_default m |}.

(** Truthiness of a property that holds a string or is missing. *)
Definition str_truthy (o : option string) : bool :=
  match o with Some s => negb (Str.is_empty s) | None => false end.

Definition default_truthy (o : option prim) : bool :=
  match o with Some p => prim_truthy p | None => false end.

Module Camel.

Definition is_sep (c : ascii) : bool := Ascii.eqb c "-" || Ascii.eqb c "_".

(** The pattern of line 2554: a word of letters, then one or more groups
    of one separator ([-] or [_]) and a word of letters. *)
Inductive state : Type := Start | Word (groups : bool) | Sep | Stuck.

Definition step (st : state) (c : ascii) : state :=
  match st with
  | Start => if Str.is_alpha c then Word false else Stuck
  | Word g => if Str.is_alpha c then Word g
              else if is_sep c then Sep else Stuck
  | Sep => if Str.is_alpha c then Word true else Stuck
  | Stuck => Stuck
  end.

Fixpoint run (st : state) (s : string) : state :=
  match s with
  | EmptyString => st
  | String c t => run (step st c) t
  end.

Definition is_multiword (s : string) : bool :=
  match run Start s with Word true => true | _ => false end.

(** [s.replace(/[_-]([a-z])/g, (_, w) => w.toUpperCase())] *)
Fixpoint camelCase (s : string) : string :=
  match s with
  | String c (String d t as t0) =>
      if is_sep c && Str.is_lower d
      then String (Str.to_upper d) (camelCase t)
      else String c (camelCase t0)
  | _ => s
  end.

End Camel.

(** [optionValue.default ? typeof optionValue.default : optionValue.type]
    (line 2559) *)
Definition declared_type (optionValue : OptionSpec) : option string :=
  match opt_default optionValue with
  | Some d => if prim_truthy d then Some (typeof d) else opt_type optionValue
  | None => opt_type optionValue
  end.

(** One turn of the loop over [Object.entries(options)]; the state is
    [minimistOpts] and [anyTypeOptions]. *)
Definition buildOptions_step (st : MinimistOpts * list string)
    (entry : string * OptionSpec) : MinimistOpts * list string :=
  let (minimistOpts, anyTypeOptions) := st in
  let (optionKey, optionValue) := entry in
  let m1 :=
    match opt_alias optionValue with
    | Some a => if Str.is_empty a then minimistOpts
                else set_alias a optionKey minimistOpts
    | None => minimistOpts
    end in
  let m2 :=
    match opt_default optionValue with
    | Some d => if prim_truthy d then set_default optionKey d m1 else m1
    | None => m1
    end in
  let m3 :=
    if Str.includes "no-" optionKey
    then set_default (Str.replace_first "no-" "" optionKey) (PBool true) m2
    else m2 in
  let m4 :=
    if Camel.is_multiword optionKey
    then set_alias (Camel.camelCase optionKey) optionKey m3
    else m3 in
  if str_truthy (opt_type optionValue) || default_truthy (opt_default optionValue)
  then
    let type := declared_type optionValue in
    if bool_decide (type = Some "boolean")
    then (push_boolean optionKey m4, anyTypeOptions)
    else (push_string optionKey m4,
          if bool_decide (type = Some "any")
          then (anyTypeOptions ++ [optionKey])%list else anyTypeOptions)
  else (push_boolean optionKey m4, anyTypeOptions).

(** [buildOptions()], together with the [anyTypeOptions] it fills;
    [options] is the sequence [Object.entries] yields. *)
Definition buildOptions (options : list (string * OptionSpec))
  : MinimistOpts * list string :=
  foldl buildOptions_step (no_opts, []) options.

(** ** Post-processing of the options of type [any] (cmd.js, line 2537) *)

(** [v === undefined ? false : v === '' ? true : v] *)
Definition normal_form (v : value) : value :=
  match v with
  | VUndef => vfalse
  | VPrim (PStr EmptyString) => vtrue
  | _ => v
  end.

(** The name [__proto__] when the object has no property of its own by
    that name: it reads as the prototype, and assigning the prototype back
    changes nothing. *)
Definition inherited_proto (key : string) (result : obj) : bool :=
  String.eqb key "__proto__" && bool_decide (result !! key = None).

(** [result[key] = ..] *)
Definition normalize_key (result : obj) (key : string) : obj :=
  if inherited_proto key result then result
  else <[key := normal_form (get key result)]> result.

Definition normalize (anyTypeOptions : list string) (result : obj) : obj :=
  foldl normalize_key result anyTypeOptions.

(** Property names the embedding covers: no dot, and not a member of
    [Object.prototype]. *)
Definition proto_names : list string :=
  ["__proto__"; "constructor"; "hasOwnProperty"; "isPrototypeOf";
   "propertyIsEnumerable"; "toLocaleString"; "toString"; "valueOf";
   "__defineGetter__"; "__defineSetter__"; "__lookupGetter__";
   "__lookupSetter__"].

Definition plain_key (k : string) : bool :=
  negb (Str.includes "." k) && negb (existsb (String.eqb k) proto_names).

(** ** minimist

    [minimist(args, opts)] as cmd.js calls it (line 2534), after the
    package's [index.js] (version 1.2.5, the one the wrapper was written
    against): [opts] has the four fields [buildOptions] fills, so there
    is no [unknown] callback, no [stopEarly] and no ['--'] option. *)
Module Minimist.

Record flags : Type := {
  bools : jsobj bool;
  strings : jsobj bool;
  aliases : jsobj (list string)
}.

(** [[].concat(keys).filter(Boolean).forEach(key => o[key] = true)] *)
Definition mark (keys : list string) : jsobj bool :=
  foldl (fun o key => oset key true o) []
        (filter (fun key => Str.is_empty key = false) keys).

(** The loop over [Object.keys(opts.alias)]. *)
Definition alias_step (alias : jsobj string) (al : jsobj (list string))
    (key : string) : jsobj (list string) :=
  match oget key alias with
  | None => al
  | Some target =>
      let al1 := oset key [target] al in
      foldl (fun a x =>
               oset x (key :: filter (fun y => negb (String.eqb x y))
                                     (default [] (oget key a))) a)
            al1 [target]
  end.

Definition build_aliases (alias : jsobj string) : jsobj (list string) :=
  foldl (alias_step alias) [] (okeys alias).

(** [flags.strings[key] = true; if (aliases[key]) flags.strings[aliases[key]] = true]:
    the array [aliases[key]] is turned into a property name by joining it
    with commas. *)
Definition string_step (al : jsobj (list string)) (o : jsobj bool)
    (key : string) : jsobj bool :=
  let o1 := oset key true o in
  match oget key al with
  | Some l => oset (String.concat "," l) true o1
  | None => o1
  end.

Definition build_flags (opts : MinimistOpts) : flags :=
  let al := build_aliases (m_alias opts) in
  {| bools := mark (m_boolean opts);
     strings := foldl (string_step al) []
                      (filter (fun key => Str.is_empty key = false)
                              (m_string opts));
     aliases := al |}.

(** What [setKey] stores under [key] when the property holds [old]: the
    value itself over [undefined], a boolean or a boolean flag; otherwise
    the values accumulate in an array. *)
Definition stored (fl : flags) (key : string) (val : prim)
    (old : option value) : value :=
  match old with
  | None | Some VUndef | Some (VPrim (PBool _)) => VPrim val
  | Some (VArr l) =>
      if has key (bools fl) then VPrim val else VArr (l ++ [val])
  | Some (VPrim p) =>
      if has key (bools fl) then VPrim val else VArr [p; val]
  end.

(** [setKey(argv, [key], value)] *)
Definition setKey (fl : flags) (key : string) (val : prim) (argv : obj)
  : outcome obj :=
  if plain_key key
  then Return (<[key := stored fl key val (argv !! key)]> argv)
  else Unmodelled.

Fixpoint setKeys (fl : flags) (keys : list string) (val : prim) (argv : obj)
  : outcome obj :=
  match keys with
  | [] => Return argv
  | x :: keys' => argv' ← setKey fl x val argv; setKeys fl keys' val argv'
  end.

(** [!flags.strings[key] && isNumber(val) ? Number(val) : val] *)
Definition coerce (fl : flags) (key : string) (val : prim) : prim :=
  match val with
  | PStr s => if negb (has key (strings fl)) && Num.isNumber s
              then PNum s else val
  | _ => val
  end.

(** [setArg(key, val)] *)
Definition setArg (fl : flags) (key : string) (val : prim) (argv : obj)
  : outcome obj :=
  let value := coerce fl key val in
  argv' ← setKey fl key value argv;
  setKeys fl (default [] (oget key (aliases fl))) value argv'.

Fixpoint setArgs (fl : flags) (sets : list (string * prim)) (argv : obj)
  : outcome obj :=
  match sets with
  | [] => Return argv
  | (key, val) :: sets' =>
      argv' ← setArg fl key val argv; setArgs fl sets' argv'
  end.

(** [aliases[key] ? !aliasIsBoolean(key) : true] *)
Definition alias_not_boolean (fl : flags) (key : string) : bool :=
  match oget key (aliases fl) with
  | Some l => negb (existsb (fun x => has x (bools fl)) l)
  | None => true
  end.

(** [flags.strings[key] ? '' : true] *)
Definition bare (fl : flags) (key : string) : prim :=
  if has key (strings fl) then PStr "" else PBool true.

Definition is_eq (c : ascii) : bool := Ascii.eqb c "=".
Definition not_eq (c : ascii) : bool := negb (is_eq c).
Definition not_dash (c : ascii) : bool := negb (Ascii.eqb c "-").

(** [/^--.+=/] *)
Definition long_eq (arg : string) : bool :=
  Str.starts_with "--" arg &&
  match Str.take_while Str.is_dot (Str.drop 2 arg) with
  | String _ t => Str.any is_eq t
  | EmptyString => false
  end.

(** [/^--no-.+/] and [/^--.+/] *)
Definition long_after (p arg : string) : bool :=
  Str.starts_with p arg &&
  match Str.drop (String.length p) arg with
  | String c _ => Str.is_dot c
  | EmptyString => false
  end.

(** [/^-[^-]+/] *)
Definition short (arg : string) : bool :=
  match arg with
  | String "-" (String c _) => not_dash c
  | _ => false
  end.

(** [/^-/] *)
Definition dashed (s : string) : bool := Str.starts_with "-" s.

(** [/^(-|--)[^-]/] *)
Definition flag_like (s : string) : bool :=
  match s with
  | String "-" (String "-" (String c _)) => not_dash c
  | String "-" (String c _) => not_dash c
  | _ => false
  end.

(** [/^(true|false)$/] *)
Definition is_bool_word (s : string) : bool :=
  String.eqb s "true" || String.eqb s "false".

(** The pattern that ends a cluster of short flags in a number: the text
    ends in a digit, or in a digit and a point. *)
Fixpoint numeric_tail (s : string) : bool :=
  match s with
  | EmptyString => false
  | String c EmptyString => Str.is_digit c
  | String c (String "." EmptyString) => Str.is_digit c
  | String _ t => numeric_tail t
  end.

(** The loop over the letters of [-abc]: the calls of [setArg] it makes
    and whether it ended by [break]. *)
Fixpoint cluster (fl : flags) (body : string)
  : list (string * prim) * bool :=
  match body with
  | String c (String d rest as next) =>
      let letter := Str.char c in
      if String.eqb next "-" then
        let (sets, broken) := cluster fl next in
        ((letter, PStr next) :: sets, broken)
      else if Str.is_alpha c && Str.any is_eq next then
        ([(letter, PStr (nth 1 (Str.split "=" next) ""))], true)
      else if Str.is_alpha c && numeric_tail next then
        ([(letter, PStr next)], true)
      else if negb (Str.is_empty rest) && negb (Str.is_word d) then
        ([(letter, PStr next)], true)
      else
        let (sets, broken) := cluster fl next in
        ((letter, bare fl letter) :: sets, broken)
  | _ => ([], false)
  end.

(** What one argument does: calls of [setArg], in order, and whether the
    following argument is consumed as a value; or a positional; or a fault. *)
Inductive action : Type :=
  | Sets (sets : list (string * prim)) (consume : bool)
  | Positional
  | Fault (message : string).

Definition classify (fl : flags) (arg : string) (next : option string)
  : action :=
  if long_eq arg then
    let key := Str.take_while not_eq (Str.drop 2 arg) in
    let value := Str.drop 1 (Str.drop_while not_eq (Str.drop 2 arg)) in
    if Str.is_empty key then Fault "m is null"
    else if has key (bools fl)
         then Sets [(key, PBool (negb (String.eqb value "false")))] false
         else Sets [(key, PStr value)] false
  else if long_after "--no-" arg then
    Sets [(Str.take_while Str.is_dot (Str.drop 5 arg), PBool false)] false
  else if long_after "--" arg then
    let key := Str.take_while Str.is_dot (Str.drop 2 arg) in
    match next with
    | Some n =>
        if negb (dashed n) && negb (has key (bools fl))
           && alias_not_boolean fl key
        then Sets [(key, PStr n)] true
        else if is_bool_word n
             then Sets [(key, PBool (String.eqb n "true"))] true
             else Sets [(key, bare fl key)] false
    | None => Sets [(key, bare fl key)] false
    end
  else if short arg then
    let (sets, broken) := cluster fl (Str.drop 1 arg) in
    let key := match Str.last arg with
               | Some c => Str.char c
               | None => EmptyString
               end in
    if negb broken && negb (String.eqb key "-") then
      match next with
      | Some n =>
          if negb (Str.is_empty n) && negb (flag_like n)
             && negb (has key (bools fl)) && alias_not_boolean fl key
          then Sets (sets ++ [(key, PStr n)]) true
          else if is_bool_word n
               then Sets (sets ++ [(key, PBool (String.eqb n "true"))]) true
               else Sets (sets ++ [(key, bare fl key)]) false
      | None => Sets (sets ++ [(key, bare fl key)]) false
      end
    else Sets sets false
  else Positional.

(** [argv._.push(x)] *)
Definition push (x : prim) (argv : obj) : outcome obj :=
  match argv !! "_" with
  | Some (VArr l) => Return (<["_" := VArr (l ++ [x])]> argv)
  | _ => Throw (TypeError "argv._.push is not a function")
  end.

(** [flags.strings['_'] || !isNumber(arg) ? arg : Number(arg)] *)
Definition positional (fl : flags) (arg : string) : prim :=
  if has "_" (strings fl) || negb (Num.isNumber arg)
  then PStr arg else PNum arg.

(** The loop over [args]. *)
Fixpoint loop (fl : flags) (args : list string) (argv : obj)
  : outcome obj :=
  match args with
  | [] => Return argv
  | arg :: rest =>
      match classify fl arg (head rest) with
      | Sets sets consume =>
          argv' ← setArgs fl sets argv;
          if consume then
            match rest with
            | _ :: rest' => loop fl rest' argv'
            | [] => Return argv'
            end
          else loop fl rest argv'
      | Positional =>
          argv' ← push (positional fl arg) argv; loop fl rest argv'
      | Fault message => Throw (TypeError message)
      end
  end.

(** The bools are preset: [setArg(key, defaults[key] === undefined ? false : defaults[key])]. *)
Definition preset (fl : flags) (defaults : jsobj prim) (key : string)
  : string * prim :=
  (key, default (PBool false) (oget key defaults)).

(** The loop over [Object.keys(defaults)] that ends the parse. *)
Fixpoint apply_defaults (fl : flags) (defaults : jsobj prim)
    (keys : list string) (argv : obj) : outcome obj :=
  match keys with
  | [] => Return argv
  | key :: keys' =>
      match oget key defaults with
      | None => apply_defaults fl defaults keys' argv
      | Some d =>
          if plain_key key then
            match argv !! key with
            | Some _ => apply_defaults fl defaults keys' argv
            | None =>
                argv1 ← setKey fl key d argv;
                argv2 ← setKeys fl (default [] (oget key (aliases fl))) d argv1;
                apply_defaults fl defaults keys' argv2
            end
          else Unmodelled
      end
  end.

Fixpoint push_all (xs : list string) (argv : obj) : outcome obj :=
  match xs with
  | [] => Return argv
  | x :: xs' => argv' ← push (PStr x) argv; push_all xs' argv'
  end.

(** [args.slice(0, args.indexOf('--'))] and [args.slice(args.indexOf('--') + 1)] *)
Fixpoint before_dashes (args : list string) : list string :=
  match args with
  | [] => []
  | a :: args' => if String.eqb a "--" then [] else a :: before_dashes args'
  end.

Fixpoint after_dashes (args : list string) : list string :=
  match args with
  | [] => []
  | a :: args' => if String.eqb a "--" then args' else after_dashes args'
  end.

(** The names of the schema: they all become property names. *)
Definition schema_keys (opts : MinimistOpts) : list string :=
  (m_boolean opts ++ m_string opts ++ map fst (m_alias opts)
   ++ map snd (m_alias opts) ++ map fst (m_default opts))%list.

Definition minimist (args : list string) (opts : MinimistOpts)
  : outcome obj :=
  if forallb plain_key (schema_keys opts) then
    let fl := build_flags opts in
    let defaults := m_default opts in
    argv0 ← setArgs fl (map (preset fl defaults) (okeys (bools fl)))
                    {["_" := VArr []]};
    argv1 ← loop fl (before_dashes args) argv0;
    argv2 ← apply_defaults fl defaults (okeys defaults) argv1;
    push_all (after_dashes args) argv2
  else Unmodelled.

End Minimist.

(** ** [parseTemplates] (cmd.js, lines 2575-2616) *)

Module Template.

Definition is_name_char (c : ascii) : bool :=
  Str.is_word c || Ascii.eqb c "+" || Ascii.eqb c "-".

Definition is_ident_char (c : ascii) : bool :=
  Str.is_word c || Ascii.eqb c "-".

(** The pattern of line 2584.  A token is an opening [<] or [[], a name
    of word characters, [+] and [-], an optional [...], and a closing [>] or
    []]; the lookahead after the opening character asks for the closing
    character of the same kind further on, and the name holds neither. *)
Definition matches (tok : string) : bool :=
  match tok with
  | String o rest =>
      let name := Str.take_while is_name_char rest in
      let tail := Str.drop_while is_name_char rest in
      let tail' := if Str.starts_with "..." tail then Str.drop 3 tail
                   else tail in
      negb (Str.is_empty name) &&
      ((Ascii.eqb o "<" && String.eqb tail' ">")
       || (Ascii.eqb o "[" && String.eqb tail' "]"))
  | EmptyString => false
  end.

(** [!!argument[0].match(/\.\.\./g)] *)
Definition isArray (tok : string) : bool := Str.includes "..." tok.

(** [!!argument[0].match(/^<.+>$/g)] *)
Fixpoint ends_close (s : string) : bool :=
  match s with
  | EmptyString => false
  | String c EmptyString => Ascii.eqb c ">"
  | String c t => Str.is_dot c && ends_close t
  end.

Definition isRequired (tok : string) : bool :=
  match tok with
  | String "<" (String c t) => Str.is_dot c && ends_close t
  | _ => false
  end.

(** [argument[0].match(/[\w-]+/g)]: the first run of word characters and
    [-], [None] for [null]. *)
Definition name (tok : string) : option string :=
  let s := Str.drop_while (fun c => negb (is_ident_char c)) tok in
  if Str.is_empty s then None else Some (Str.take_while is_ident_char s).

End Template.

(** [v.slice(n)], [v.length] and [v[i]] for the value [v] of [result._]. *)
Definition js_slice (n : nat) (v : value) : outcome value :=
  match v with
  | VArr l => Return (VArr (drop n l))
  | VPrim (PStr s) => Return (vstr (Str.drop n s))
  | _ => Throw (TypeError "result._.slice is not a function")
  end.

(** [None] stands for a length that is [undefined]: every comparison with
    it is false. *)
Definition js_length (v : value) : outcome (option nat) :=
  match v with
  | VArr l => Return (Some (length l))
  | VPrim (PStr s) => Return (Some (String.length s))
  | VPrim _ => Return None
  | VUndef => Throw (TypeError "result._ is undefined")
  end.

Definition js_index (i : nat) (v : value) : outcome value :=
  match v with
  | VArr l => Return (match l !! i with Some p => VPrim p | None => VUndef end)
  | VPrim (PStr s) =>
      Return (match String.get i s with
              | Some c => vstr (Str.char c)
              | None => VUndef
              end)
  | VPrim _ => Return VUndef
  | VUndef => Throw (TypeError "result._ is undefined")
  end.

(** [n < v.length] and [v.length > n] *)
Definition length_above (n : nat) (len : option nat) : bool :=
  match len with Some l => Nat.ltb n l | None => false end.

(** [result[k] = v] *)
Definition assign (k : string) (v : value) (result : obj) : outcome obj :=
  if String.eqb k "__proto__" then Unmodelled
  else Return (<[k := v]> result).

(** The body of the loop of line 2583 for the token [tok] at [index];
    [last] is [index === template.length - 1].  It returns the result and
    [previousIsOptionalArg]. *)
Definition bind_token (command : string) (preset : nat) (tok : string)
    (index : nat) (last : bool) (previousIsOptionalArg : bool)
    (result : obj) : outcome (obj * bool) :=
  if Template.matches tok then
    let isArray := Template.isArray tok in
    let argumentIsRequired := Template.isRequired tok in
    match Template.name tok with
    | None => Throw (TypeError "argument[0].match(...) is null")
    | Some argumentName =>
        result1 ←
          (if (isArray && negb last)
              || (previousIsOptionalArg && argumentIsRequired)
           then Throw (Error ("Invalid argument template for '" +:+ command
                              +:+ "' command"))
           else if isArray then
             rest ← js_slice (index + preset) (get "_" result);
             len ← js_length rest;
             if length_above 0 len then assign argumentName rest result
             else if argumentIsRequired
                  then Throw (Error ("'" +:+ argumentName
                                     +:+ "' is required for '" +:+ command
                                     +:+ "' command"))
                  else Return result
           else
             len ← js_length (get "_" result);
             if last && length_above (index + preset + 1) len
             then Throw (Error ("Too many arguments were given to '"
                                +:+ command +:+ "' command"))
             else
               v ← js_index (index + preset) (get "_" result);
               if truthy v then assign argumentName v result
               else if argumentIsRequired
                    then Throw (Error ("'" +:+ argumentName
                                       +:+ "' argument is required for '"
                                       +:+ command +:+ "' command"))
                    else Return result);
        result2 ←
          (if Camel.is_multiword argumentName
           then assign (Camel.camelCase argumentName)
                       (get argumentName result1) result1
           else Return result1);
        Return (result2, if argumentIsRequired then previousIsOptionalArg
                         else true)
    end
  else Throw (Error ("Invalid argument: '" +:+ tok +:+ "'")).

(** The loop of line 2583 from [index] on. *)
Fixpoint bind_tokens (command : string) (preset : nat) (toks : list string)
    (index : nat) (previousIsOptionalArg : bool) (result : obj)
  : outcome obj :=
  match toks with
  | [] => Return result
  | tok :: toks' =>
      '(result', previous) ←
        bind_token command preset tok index
                   (match toks' with [] => true | _ => false end)
                   previousIsOptionalArg result;
      bind_tokens command preset toks' (S index) previous result'
  end.

(** [commands[command].template], [TypeError] when [commands[command]] is
    [undefined]. *)
Definition template_of (commands : gmap string CommandSpec) (command : string)
  : outcome (option string) :=
  match commands !! command with
  | Some c => Return (template c)
  | None => Throw (TypeError ("commands[" +:+ command +:+ "] is undefined"))
  end.

Definition parseTemplates (commands : gmap string CommandSpec) (result : obj)
  : outcome obj :=
  first ← js_index 0 (get "_" result);
  let selected :=
    match first with
    | VPrim (PStr s) => if bool_decide (is_Some (commands !! s))
                        then Some s else None
    | _ => None
    end in
  let isDefault := match selected with Some _ => false | None => true end in
  let command := match selected with Some s => s | None => "*" end in
  t ← template_of commands command;
  if str_truthy t then
    let text := default "" t in
    template ←
      (if Str.includes " " text then
         (* [commands[commands]]: the object itself is the property name *)
         t' ← template_of commands "[object Object]";
         match t' with
         | Some text' => Return (Str.split " " text')
         | None => Throw (TypeError "commands[commands].template is undefined")
         end
       else Return [text]);
    bind_tokens command (if isDefault then 0 else 1) template 0 false result
  else
    len ← js_length (get "_" result);
    if (length_above 1 len && negb isDefault)
       || (length_above 0 len && isDefault)
    then Throw (Error "Was not expecting arguments")
    else Return result.

(** ** [minimistPrettyParse] (cmd.js, lines 2529-2618) *)

(** [options ? buildOptions() : {}], with the [anyTypeOptions] filled on
    the way. *)
Definition minimist_options (options : option (list (string * OptionSpec)))
  : MinimistOpts * list string :=
  match options with
  | Some o => buildOptions o
  | None => (no_opts, [])
  end.

Definition minimistPrettyParse (argv : list string)
    (options : option (list (string * OptionSpec)))
    (commands : option (gmap string CommandSpec)) : outcome obj :=
  let (minimistOpts, anyTypeOptions) := minimist_options options in
  result ← Minimist.minimist argv minimistOpts;
  let result := normalize anyTypeOptions result in
  match commands with
  | Some c => parseTemplates c result
  | None => Return result
  end.

(** ** The tables of cmd.js (lines 1694-1755) *)

(** [Object.assign({}, options.streaming, options.simple, options.advanced)] *)
Definition options : list (string * OptionSpec) :=
  [ ("airplay", opt None None None);
    ("chromecast", opt None None (Some "any"));
    ("dlna", opt None None None);
    ("mplayer", opt None None None);
    ("mpv", opt None None None);
    ("omx", opt None None (Some "any"));
    ("vlc", opt None None None);
    ("iina", opt None None None);
    ("xbmc", opt None None None);
    ("stdout", opt None None None);
    ("help", opt (Some "h") None None);
    ("version", opt (Some "v") None None);
    ("out", opt (Some "o") None (Some "string"));
    ("select", opt (Some "s") None (Some "string"));
    ("subtitles", opt (Some "t") None (Some "string"));
    ("port", opt (Some "p") (Some (PNum "8000")) None);
    ("blocklist", opt (Some "b") None (Some "string"));
    ("announce", opt (Some "a") None (Some "string"));
    ("quiet", opt (Some "q") None None);
    ("pip", opt None None None);
    ("verbose", opt None None None);
    ("player-args", opt None None (Some "string"));
    ("torrent-port", opt None None (Some "number"));
    ("dht-port", opt None None (Some "number"));
    ("not-on-top", opt None None None);
    ("keep-seeding", opt None None None);
    ("no-quit", opt None None None);
    ("on-done", opt None None (Some "string"));
    ("on-exit", opt None None (Some "string")) ].

Definition cmd (t : option string) : CommandSpec := {| template := t |}.

Definition commands : gmap string CommandSpec :=
  list_to_map
    [ ("*", cmd (Some "[torrent-ids...]"));
      ("download", cmd (Some "<torrent-ids...>"));
      ("downloadmeta", cmd (Some "<torrent-ids...>"));
      ("seed", cmd (Some "<inputs...>"));
      ("create", cmd (Some "<input>"));
      ("info", cmd (Some "<torrent-id>"));
      ("version", cmd None);
      ("help", cmd None) ].

(** ** Vocabulary of the statements *)

(** A property name that can be told apart from the positionals [_]. *)
Definition ok_key (k : string) : bool :=
  plain_key k && negb (String.eqb k "_").

(** The schema uses ordinary names only. *)
Definition schema_ok (opts : MinimistOpts) : bool :=
  forallb ok_key (Minimist.schema_keys opts).

(** The entry is one [buildOptions] lists as boolean (lines 2558-2570). *)
Definition is_boolean (v : OptionSpec) : bool :=
  if str_truthy (opt_type v) || default_truthy (opt_default v)
  then bool_decide (declared_type v = Some "boolean")
  else true.

Module Flag.

Import Minimist.

(** The properties [setArg(key, ..)] writes: [key] and its aliases. *)
Definition writes (fl : flags) (key : string) : list string :=
  key :: default [] (oget key (aliases fl)).

(** The keys an argument sets when it is read as a flag. *)
Definition keys_of (fl : flags) (arg : string) : list string :=
  match classify fl arg None with
  | Sets sets _ => map fst sets
  | _ => []
  end.

(** [argDefined] of minimist: the key is declared by the schema. *)
Definition declared (fl : flags) (key : string) : bool :=
  has key (strings fl) || has key (bools fl) || has key (aliases fl).

(** An argument with no unknown flag. *)
Definition known (fl : flags) (arg : string) : bool :=
  match classify fl arg None with
  | Sets sets _ => forallb (declared fl) (map fst sets)
  | Positional => true
  | Fault _ => false
  end.

(** An argument that is read without fault and writes ordinary properties
    only, whether the schema declares its flags or not. *)
Definition readable (fl : flags) (arg : string) : bool :=
  match classify fl arg None with
  | Sets sets _ =>
      forallb (fun k => forallb plain_key (writes fl k)) (map fst sets)
  | Positional => true
  | Fault _ => false
  end.

Definition mem (k : string) (l : list string) : bool :=
  existsb (String.eqb k) l.

(** The argument sets no property named [key], under any spelling. *)
Definition silent (fl : flags) (key : string) (arg : string) : bool :=
  forallb (fun k => negb (mem key (writes fl k))) (keys_of fl arg).

(** No entry of the schema other than [key] itself presets or defaults the
    property [key] through an alias. *)
Definition private (fl : flags) (defaults : jsobj prim) (key : string)
  : bool :=
  forallb (fun k => String.eqb k key || negb (mem key (writes fl k)))
          (okeys (bools fl) ++ okeys defaults).

(** [k] and [a] are the two spellings of one flag: each is the only alias
    of the other in the table of minimist. *)
Definition pair (fl : flags) (k a : string) : bool :=
  match oget k (aliases fl) with
  | Some [x] => String.eqb x a
  | _ => false
  end
  && match oget a (aliases fl) with
     | Some [x] => String.eqb x k
     | _ => false
     end
  && negb (String.eqb k a).

(** A key that [--key] spells: not empty, no line terminator, no [=], and
    starting neither with [-] nor with [no-]. *)
Definition name (k : string) : bool :=
  match k with
  | String c _ => not_dash c
  | EmptyString => false
  end
  && Str.all Str.is_dot k && negb (Str.any is_eq k)
  && negb (Str.starts_with "no-" k).

(** A token that is read as a positional or as the value of a flag. *)
Definition plain (s : string) : bool := negb (dashed s).

(** What follows a flag is no value for it: nothing, or a dashed token. *)
Definition no_value (post : list string) : bool :=
  match post with
  | [] => true
  | n :: _ => dashed n
  end.

(** The flag [--k] followed by [value] (with [None], by no value) and then
    by [post]. *)
Definition given (k : string) (value : option string) (post : list string)
  : list string :=
  match value with
  | Some v => ("--" +:+ k) :: v :: post
  | None => ("--" +:+ k) :: post
  end.

(** An option that takes a value: a string flag that is not boolean under
    any spelling and is not its own alias. *)
Definition valued (fl : flags) (key : string) : bool :=
  has key (strings fl) && negb (has key (bools fl))
  && alias_not_boolean fl key
  && negb (mem key (default [] (oget key (aliases fl)))).

(** [k] is an option that takes a value and [a] is its alias: both are
    string flags and neither is boolean. *)
Definition aliased (fl : flags) (k a : string) : bool :=
  pair fl k a
  && has k (strings fl) && has a (strings fl)
  && negb (has k (bools fl)) && negb (has a (bools fl)).

(** [k] is a boolean option and [a] is its alias: neither is a string
    flag. *)
Definition switch (fl : flags) (k a : string) : bool :=
  pair fl k a
  && has k (bools fl)
  && negb (has k (strings fl)) && negb (has a (strings fl)).

End Flag.

(** The tables [buildOptions] hands to minimist for a schema, the flags
    minimist derives from them, and the options of type [any]. *)
Definition tables (options : list (string * OptionSpec)) : MinimistOpts :=
  fst (buildOptions options).

Definition flags_of (options : list (string * OptionSpec)) : Minimist.flags :=
  Minimist.build_flags (tables options).

Definition any_of (options : list (string * OptionSpec)) : list string :=
  snd (buildOptions options).

(** The argument list holds no unknown flag. *)
Definition no_unknown_flags (options : list (string * OptionSpec))
    (args : list string) : Prop :=
  Forall (fun arg => Flag.known (flags_of options) arg = true) args.

(** Every argument of the list is read without fault, its flags declared
    or not. *)
Definition reads_flags (options : list (string * OptionSpec))
    (args : list string) : Prop :=
  Forall (fun arg => Flag.readable (flags_of options) arg = true) args.

(** No argument of the list sets the property [key]. *)
Definition never_sets (options : list (string * OptionSpec)) (key : string)
    (args : list string) : Prop :=
  Forall (fun arg => Flag.silent (flags_of options) key arg = true) args.

(** A schema with a boolean option and its negated flag. *)
Definition negatable : list (string * OptionSpec) :=
  [("foo", opt None None None); ("no-foo", opt None None None)].

(** A schema with an option of type [any] and its negated flag. *)
Definition negated_either : list (string * OptionSpec) :=
  [("chromecast", opt None None (Some "any"));
   ("no-chromecast", opt None None None)].

(** A schema whose hyphenated key also declares an alias. *)
Definition hyphenated : list (string * OptionSpec) :=
  [("dht-port", opt (Some "d") None (Some "string"))].

(** The same schema with an option [out] and its alias [o] before it. *)
Definition beside_hyphenated : list (string * OptionSpec) :=
  ("out", opt (Some "o") None (Some "string")) :: hyphenated.

(** The names a template token binds: the argument name and its camelCase
    mirror. *)
Definition bound_names (tok : string) : list string :=
  match Template.name tok with
  | Some n => [n; Camel.camelCase n]
  | None => []
  end.

(** No template of [commands] binds [key]. *)
Definition unbound (commands : gmap string CommandSpec) (key : string)
  : Prop :=
  forall c spec text tok,
    commands !! c = Some spec -> template spec = Some text ->
    In tok (Str.split " " text) -> ~ In key (bound_names tok).

(** A value the post-processing leaves alone, and a property holding one. *)
Definition normal (v : value) : Prop :=
  v <> VUndef /\ v <> VPrim (PStr "").

Definition settled (k : string) (m : obj) : Prop :=
  inherited_proto k m = true \/ exists v, m !! k = Some v /\ normal v.

(** The defaults after one entry of the options, in terms of the defaults
    before it. *)
Definition step_default (d : jsobj prim) (entry : string * OptionSpec)
  : jsobj prim :=
  let d1 := match opt_default (snd entry) with
            | Some p => if prim_truthy p then oset (fst entry) p d else d
            | None => d
            end in
  if Str.includes "no-" (fst entry)
  then oset (Str.replace_first "no-" "" (fst entry)) (PBool true) d1
  else d1.

(** Every entry of the alias table pairs two names of the schema. *)
Definition alias_inv (al : jsobj (list string)) : Prop :=
  forall k l, oget k al = Some l ->
    ok_key k = true /\ exists x, l = [x] /\ ok_key x = true.

(** The positionals are still an array. *)
Definition is_array (argv : obj) : Prop :=
  exists l, argv !! "_" = Some (VArr l).

(** The residual positionals of a parse, when it returns them. *)
Definition residual (o : outcome obj) : option (list prim) :=
  match o with
  | Return r => match r !! "_" with
                | Some (VArr l) => Some l
                | _ => None
                end
  | _ => None
  end.

(** The property [k] of the result of a parse, when it returns one. *)
Definition field (k : string) (o : outcome obj) : option value :=
  match o with
  | Return r => r !! k
  | _ => None
  end.

(** The first residual positional names no command. *)
Definition names_no_command (commands : gmap string CommandSpec)
    (l : list prim) : Prop :=
  match l with
  | PStr s :: _ => commands !! s = None
  | _ => True
  end.

(** Schemas of the statements: a default command with two tokens, a command
    with two required tokens (alone, and with the property that line 2580
    reads), a command with an optional variadic token. *)
Definition spaced : gmap string CommandSpec :=
  {[ "*" := cmd (Some "<source> <destination>") ]}.

Definition two_required : gmap string CommandSpec :=
  {[ "cmd" := cmd (Some "<x> <y>") ]}.

Definition two_required_reached : gmap string CommandSpec :=
  <[ "[object Object]" := cmd (Some "<x> <y>") ]> two_required.

Definition files_command : gmap string CommandSpec :=
  {[ "cmd" := cmd (Some "[files...]") ]}.

(** A default command with one optional token that is not variadic. *)
Definition lone : gmap string CommandSpec :=
  {[ "*" := cmd (Some "[id]") ]}.

(** The bools preset to their defaults, the first stage of minimist. *)
Definition presets (opts : MinimistOpts) : list (string * prim) :=
  let fl := Minimist.build_flags opts in
  map (Minimist.preset fl (m_default opts)) (okeys (Minimist.bools fl)).

(** ** Vocabulary of the further properties *)

(** The command the residual positionals [l] select (lines 2576-2577):
    their first token when it is a key of [commands], the default command
    [*] otherwise; [preset] (line 2582) is the number of positionals the
    command name takes. *)
Definition names_command (commands : gmap string CommandSpec)
    (l : list prim) : option string :=
  match l with
  | PStr s :: _ => if bool_decide (is_Some (commands !! s)) then Some s else None
  | _ => None
  end.

Definition resolved (commands : gmap string CommandSpec) (l : list prim)
  : string :=
  default "*" (names_command commands l).

Definition preset_of (commands : gmap string CommandSpec) (l : list prim)
  : nat :=
  match names_command commands l with Some _ => 1 | None => 0 end.

(** The command [c] has a template of one token, [tok], which binds the
    name [n]. *)
Definition one_token (commands : gmap string CommandSpec) (c tok n : string)
  : Prop :=
  exists spec, commands !! c = Some spec /\ template spec = Some tok
               /\ Str.includes " " tok = false
               /\ Template.matches tok = true
               /\ Template.name tok = Some n.

(** The command [c] has no template. *)
Definition untemplated (commands : gmap string CommandSpec) (c : string)
  : Prop :=
  exists spec, commands !! c = Some spec /\ str_truthy (template spec) = false.

(** The messages of lines 2596, 2600 and 2605. *)
Definition required_variadic (n c : string) : string :=
  "'" +:+ n +:+ "' is required for '" +:+ c +:+ "' command".

Definition required_argument (n c : string) : string :=
  "'" +:+ n +:+ "' argument is required for '" +:+ c +:+ "' command".

Definition too_many (c : string) : string :=
  "Too many arguments were given to '" +:+ c +:+ "' command".

(** [result[camelCase(n)] = result[n]] when [n] is a word of several parts,
    line 2608. *)
Definition mirrored (n : string) (r : obj) : obj :=
  if Camel.is_multiword n then <[Camel.camelCase n := get n r]> r else r.

(** A primitive that is no number, and a value that holds none. *)
Definition prim_textual (p : prim) : bool :=
  match p with PNum _ => false | _ => true end.

Definition no_number (v : value) : bool :=
  match v with
  | VUndef => true
  | VPrim p => prim_textual p
  | VArr l => forallb prim_textual l
  end.

(** Every flag that writes the property [key], [key] itself and the flags
    it is an alias of, is a string flag whose default, if it has one, is
    no number. *)
Definition textual (fl : Minimist.flags) (defaults : jsobj prim)
    (key : string) : bool :=
  forallb (fun k =>
             negb (Flag.mem key (Flag.writes fl k))
             || (has k (Minimist.strings fl)
                 && match oget k defaults with
                    | Some d => prim_textual d
                    | None => true
                    end))
          (key :: okeys (Minimist.aliases fl)).

(** Whether a template of the table [cs] binds [key]. *)
Definition binds (cs : list (string * CommandSpec)) (key : string) : bool :=
  existsb (fun e : string * CommandSpec =>
             match template (snd e) with
             | Some text =>
                 existsb (fun tok => Flag.mem key (bound_names tok))
                         (Str.split " " text)
             | None => false
             end) cs.

(** The entry is one [buildOptions] lists among the options of type [any]
    (lines 2558-2565). *)
Definition is_any (v : OptionSpec) : bool :=
  (str_truthy (opt_type v) || default_truthy (opt_default v))
  && bool_decide (declared_type v = Some "any").

(** The keys of the entries that satisfy [p], in order. *)
Definition keys_where (p : OptionSpec -> bool)
    (options : list (string * OptionSpec)) : list string :=
  map fst (List.filter (fun e => p (snd e)) options).

(** ** The program around the parser (cmd.js, lines 1733-1851, 2437-2527)

    The module parses [process.argv] when it is loaded, then [main]
    prepares the arguments of the players and hands the work to the
    function of the command.  What these functions do ([runDownload] and
    the like) is input and output beyond the embedding: a call of one is
    recorded as an event.  The variables of the module are the fields of a
    state, the lines written to the terminal and the calls are its trace;
    [process.exit] ends the run. *)
Module Cli.

Inductive handler : Type :=
  | runHelp | runVersion | runDownload | runDownloadMeta | runSeed
  | runCreate | runInfo.

(** A line written with [clivas.line], or a call of one of these functions
    with the argument it reads; [runHelp] and [runVersion] read none, and
    their call is recorded with [undefined]. *)
Inductive event : Type :=
  | Line (text : string)
  | Call (f : handler) (arg : value).

(** The variables of the module (lines 1733-1759) the embedded functions
    use: the constant [argv], empty until the parse has returned;
    [playerArgs]; [playerName], [None] while it is [undefined] or [null];
    [subtitlesServer], of which the state keeps the directory it serves;
    [torrentCount]; [expectedError], [false] while it is [undefined]. *)
Record state : Type := {
  argv : obj;
  playerArgs : jsobj (list string);
  playerName : option string;
  subtitlesServer : option string;
  torrentCount : nat;
  expectedError : bool;
  trace : list event
}.

(** How a piece of the program ends: it goes on with a value, the process
    exits, an exception reaches the top, or the run leaves the
    embedding. *)
Inductive halt (A : Type) : Type :=
  | Go (a : A)
  | Exit (code : nat)
  | Uncaught (e : js_error)
  | Beyond.

Arguments Go {A} a.
Arguments Exit {A} code.
Arguments Uncaught {A} e.
Arguments Beyond {A}.

Definition M (A : Type) : Type := state -> state * halt A.

#[global] Instance M_ret : MRet M := fun A a s => (s, Go a).
#[global] Instance M_bind : MBind M := fun A B f m s =>
  match m s with
  | (s', Go a) => f a s'
  | (s', Exit code) => (s', Exit code)
  | (s', Uncaught e) => (s', Uncaught e)
  | (s', Beyond) => (s', Beyond)
  end.

(** A call of the embedded parser or of a method of a value. *)
Definition lift {A} (o : outcome A) : M A := fun s =>
  match o with
  | Return a => (s, Go a)
  | Throw e => (s, Uncaught e)
  | Unmodelled => (s, Beyond)
  end.

Definition emit (e : event) : M unit := fun s =>
  ({| argv := argv s; playerArgs := playerArgs s;
      playerName := playerName s; subtitlesServer := subtitlesServer s;
      torrentCount := torrentCount s; expectedError := expectedError s;
      trace := trace s ++ [e] |}, Go tt).

Definition read (k : string) : M value := fun s => (s, Go (get k (argv s))).

(** [argv[k] = v] *)
Definition write (k : string) (v : value) : M unit := fun s =>
  ({| argv := <[k := v]> (argv s); playerArgs := playerArgs s;
      playerName := playerName s; subtitlesServer := subtitlesServer s;
      torrentCount := torrentCount s; expectedError := expectedError s;
      trace := trace s |}, Go tt).

Definition set_argv (r : obj) : M unit := fun s =>
  ({| argv := r; playerArgs := playerArgs s;
      playerName := playerName s; subtitlesServer := subtitlesServer s;
      torrentCount := torrentCount s; expectedError := expectedError s;
      trace := trace s |}, Go tt).

Definition set_playerName (p : option string) : M unit := fun s =>
  ({| argv := argv s; playerArgs := playerArgs s;
      playerName := p; subtitlesServer := subtitlesServer s;
      torrentCount := torrentCount s; expectedError := expectedError s;
      trace := trace s |}, Go tt).

Definition set_subtitlesServer (root : string) : M unit := fun s =>
  ({| argv := argv s; playerArgs := playerArgs s;
      playerName := playerName s; subtitlesServer := Some root;
      torrentCount := torrentCount s; expectedError := expectedError s;
      trace := trace s |}, Go tt).

Definition set_torrentCount (n : nat) : M unit := fun s =>
  ({| argv := argv s; playerArgs := playerArgs s;
      playerName := playerName s; subtitlesServer := subtitlesServer s;
      torrentCount := n; expectedError := expectedError s;
      trace := trace s |}, Go tt).

Definition set_expectedError : M unit := fun s =>
  ({| argv := argv s; playerArgs := playerArgs s;
      playerName := playerName s; subtitlesServer := subtitlesServer s;
      torrentCount := torrentCount s; expectedError := true;
      trace := trace s |}, Go tt).

(** [process.exit(code)] *)
Definition exit {A} (code : nat) : M A := fun s => (s, Exit code).

Definition throw {A} (e : js_error) : M A := fun s => (s, Uncaught e).

(** [playerArgs[player].push(...xs)] *)
Definition push_args (player : string) (xs : list string) : M unit :=
  fun s =>
    match oget player (playerArgs s) with
    | Some l =>
        ({| argv := argv s;
            playerArgs := oput player (l ++ xs) (playerArgs s);
            playerName := playerName s;
            subtitlesServer := subtitlesServer s;
            torrentCount := torrentCount s;
            expectedError := expectedError s;
            trace := trace s |}, Go tt)
    | None => (s, Uncaught (TypeError "playerArgs[playerName] is undefined"))
    end.

(** [when c then m] *)
Definition when (c : bool) (m : M unit) : M unit :=
  if c then m else mret tt.

(** [xs.forEach(f)] *)
Fixpoint for_each {A} (xs : list A) (f : A -> M unit) : M unit :=
  match xs with
  | [] => mret tt
  | x :: xs' => _ ← f x; for_each xs' f
  end.

(** What the program is given besides its arguments: the variable [DEBUG]
    of the environment, whether the module is the one that was run, and
    the functions of the libraries it calls, [executable.sync] ([None]
    when it throws), [fs.realpathSync], [path.dirname] (of a string) and
    [JSON.stringify]. *)
Record env : Type := {
  DEBUG : option string;
  is_main : bool;
  executable_sync : value -> option bool;
  realpathSync : value -> js_error + string;
  dirname : string -> string;
  stringify : value -> string
}.

(** The text of a value in a template literal; a number is not
    rendered by the embedding. *)
Definition prim_text (p : prim) : option string :=
  match p with
  | PBool true => Some "true"
  | PBool false => Some "false"
  | PStr s => Some s
  | PNum _ => None
  end.

Fixpoint join_texts (l : list prim) : option string :=
  match l with
  | [] => Some ""
  | [p] => prim_text p
  | p :: l' =>
      match prim_text p, join_texts l' with
      | Some s, Some t => Some (s +:+ "," +:+ t)
      | _, _ => None
      end
  end.

Definition text_of (v : value) : option string :=
  match v with
  | VUndef => Some "undefined"
  | VPrim p => prim_text p
  | VArr l => join_texts l
  end.

(** [err.message || err] in a template literal, for an error object: the
    message, or the name of the error when the message is empty.  The
    message of a fault of the runtime is the engine's; the embedding
    carries a description in its place. *)
Definition error_text (e : js_error) : string :=
  match e with
  | Error m => if Str.is_empty m then "Error" else m
  | TypeError m => if Str.is_empty m then "TypeError" else m
  end.

(** [errorAndExit(err)] (lines 2442-2446), [text] being
    [err.message || err]. *)
Definition errorAndExit {A} (text : string) : M A :=
  _ ← emit (Line ("{red:Error:} " +:+ text));
  _ ← set_expectedError;
  exit 1.

(** [fatalError(err)] (lines 2437-2440) *)
Definition fatalError {A} (text : string) : M A :=
  _ ← emit (Line ("{red:Error:} " +:+ text));
  exit 1.

(** The listener of the [exit] event (lines 1775-1782); [info] is the
    line of versions and platform. *)
Definition on_exit (info : string) (code : nat) : M unit := fun s =>
  if Nat.eqb code 0 || expectedError s then (s, Go tt)
  else if Nat.eqb code 130 then (s, Go tt)
  else
    (_ ← emit (Line (String "010" "{red:UNEXPECTED ERROR:} If this is a bug in WebTorrent, report it!"));
     _ ← emit (Line ("{green:OPEN AN ISSUE:} https://github.com/webtorrent/webtorrent-cli/issues" +:+ String "010" ""));
     emit (Line info)) s.

Definition quote : string := String "034" EmptyString.

(** [checkPermission(filename)] (lines 2486-2494) *)
Definition checkPermission (e : env) (filename : value) : M unit :=
  let refuse (what : string) : M unit :=
    match text_of filename with
    | Some name =>
        errorAndExit ("Script " +:+ quote +:+ name +:+ quote +:+ what)
    | None => fun s => (s, Beyond)
    end in
  match executable_sync e filename with
  | Some true => mret tt
  | Some false => refuse " is not executable"
  | None => refuse " does not exist"
  end.

(** [enableQuiet()] (lines 2496-2498) *)
Definition enableQuiet : M unit :=
  _ ← write "q" vtrue; write "quiet" vtrue.

(** The arguments [processInputs] refuses with several inputs. *)
Definition invalidArguments : list string :=
  ["airplay"; "chromecast"; "dlna"; "mplayer"; "mpv"; "omx"; "vlc"; "iina";
   "xbmc"; "stdout"; "select"; "subtitles"].

(** [processInputs(inputs, fn)] (lines 2504-2527) *)
Definition processInputs (inputs : value) (fn : handler) : M unit :=
  match inputs with
  | VArr l =>
      if Nat.ltb 1 (length l) then
        _ ← for_each invalidArguments (fun arg =>
              v ← read arg;
              when (truthy v)
                (errorAndExit ("The --" +:+ arg +:+
                   " argument cannot be used with multiple files/folders.")));
        _ ← set_torrentCount (length l);
        enableQuiet
      else
        emit (Call fn (match l !! 0 with Some p => VPrim p | None => VUndef end))
  | _ => mret tt
  end.

(** The functions [cb] of the table [commands] (lines 1746-1755). *)
Definition callbacks : jsobj (M unit) :=
  [ ("*", ids ← read "torrentIds";
          if truthy ids then processInputs ids runDownload
          else emit (Call runHelp VUndef));
    ("download", ids ← read "torrentIds"; processInputs ids runDownload);
    ("downloadmeta",
       ids ← read "torrentIds"; processInputs ids runDownloadMeta);
    ("seed", inputs ← read "inputs"; processInputs inputs runSeed);
    ("create", input ← read "input"; emit (Call runCreate input));
    ("info", id ← read "torrentId"; emit (Call runInfo id));
    ("version", emit (Call runVersion VUndef));
    ("help", emit (Call runHelp VUndef)) ].

(** [commands[command].cb(argv)] *)
Definition cb (command : string) : M unit :=
  match oget command callbacks with
  | Some f => f
  | None => throw (TypeError "commands[command] is undefined")
  end.

(** The keys of [options.streaming] (lines 1695-1706). *)
Definition streaming : list string :=
  ["airplay"; "chromecast"; "dlna"; "mplayer"; "mpv"; "omx"; "vlc"; "iina";
   "xbmc"; "stdout"].

(** [Object.keys(argv).filter(v => Object.keys(options.streaming).includes(v))]
    up to the order of its elements, which is read only when there is
    exactly one. *)
Definition selectedPlayers (argv : obj) : list string :=
  List.filter (fun v => bool_decide (is_Some (argv !! v))) streaming.

Definition env_truthy (v : option string) : bool :=
  match v with Some s => negb (Str.is_empty s) | None => false end.

(** [main()] (lines 1791-1851) *)
Definition main (e : env) : M unit :=
  help ← read "help";
  version ← read "version";
  if truthy help || truthy version then
    emit (Call (if truthy help then runHelp else runVersion) VUndef)
  else
    omx ← read "omx";
    _ ← push_args "omx" [match omx with
                         | VPrim (PStr s) => s
                         | _ => "hdmi"
                         end];
    _ ← when (env_truthy (DEBUG e))
          (push_args "vlc" ["--extraintf=http:logger"; "--verbose=2";
                            "--file-logging"; "--logfile=vlc-log.txt"]);
    stdout ← read "stdout";
    _ ← when (env_truthy (DEBUG e) || truthy stdout) enableQuiet;
    positionals ← read "_";
    command ← lift (js_index 0 positionals);
    args ← (fun s => (s, Go (argv s)));
    _ ← set_playerName (match selectedPlayers args with
                        | [p] => Some p
                        | _ => None
                        end);
    subtitles ← read "subtitles";
    _ ← when (truthy subtitles)
          (let text := stringify e subtitles in
           _ ← push_args "vlc" ["--sub-file=" +:+ text];
           _ ← push_args "mplayer" ["-sub " +:+ text];
           _ ← push_args "mpv" ["--sub-file=" +:+ text];
           _ ← push_args "omx" ["--subtitles " +:+ text];
           match subtitles with
           | VPrim (PStr path) => set_subtitlesServer (dirname e path)
           | _ => throw (TypeError "The path argument must be of type string")
           end);
    pip ← read "pip";
    _ ← when (truthy pip) (push_args "iina" ["--pip"]);
    notOnTop ← read "notOnTop";
    _ ← when (negb (truthy notOnTop))
          (_ ← push_args "vlc" ["--video-on-top"];
           _ ← push_args "mplayer" ["-ontop"];
           push_args "mpv" ["--ontop"]);
    onDone ← read "onDone";
    _ ← when (truthy onDone)
          (_ ← checkPermission e onDone;
           match realpathSync e onDone with
           | inr path => _ ← write "on-done" (vstr path);
                         write "onDone" (vstr path)
           | inl err => throw err
           end);
    onExit ← read "onExit";
    _ ← when (truthy onExit)
          (_ ← checkPermission e onExit;
           match realpathSync e onExit with
           | inr path => _ ← write "on-exit" (vstr path);
                         write "onExit" (vstr path)
           | inl err => throw err
           end);
    name ← (fun s => (s, Go (playerName s)));
    given ← read "playerArgs";
    _ ← match name with
        | Some player =>
            when (truthy given)
              match given with
              | VPrim (PStr text) => push_args player (Str.split " " text)
              | _ => throw (TypeError "argv.playerArgs.split is not a function")
              end
        | None => mret tt
        end;
    match command with
    | VPrim (PStr c) =>
        if bool_decide (is_Some (commands !! c)) then cb c else cb "*"
    | _ => cb "*"
    end.

(** The state of the module when it is loaded (lines 1733-1759). *)
Definition loaded : state :=
  {| argv := ∅;
     playerArgs :=
       [ ("vlc", [""; "--play-and-exit"; "--quiet"]);
         ("iina", ["/Applications/IINA.app/Contents/MacOS/iina-cli";
                   "--keep-running"]);
         ("mpv", ["mpv"; "--really-quiet"; "--loop=no"]);
         ("mplayer", ["mplayer"; "-really-quiet"; "-noidx"; "-loop"; "0"]);
         ("omx", ["lxterminal"; "-e"; "omxplayer"; "-r"; "--timeout"; "60";
                  "--no-ghost-box"; "--align"; "center"; "-o"]) ];
     playerName := None;
     subtitlesServer := None;
     torrentCount := 1;
     expectedError := false;
     trace := [] |}.

(** The constant [argv] (lines 1761-1767): the parse of the arguments, or
    [errorAndExit] with what it throws. *)
Definition parse_argv (args : list string) : M unit :=
  match minimistPrettyParse args (Some options) (Some commands) with
  | Return r => set_argv r
  | Throw err => errorAndExit (error_text err)
  | Unmodelled => fun s => (s, Beyond)
  end.

(** The module, from its load to the return of [main] (line 2621). *)
Definition webtorrent (e : env) (args : list string) : state * halt unit :=
  (_ ← parse_argv args; when (is_main e) (main e)) loaded.

(** How the run ends for the user: [process.exit], like an exception that
    nothing catches (the process then exits with code 1), fires the [exit]
    event, whose listener may add its lines. *)
Definition finish (info : string) (r : state * halt unit)
  : state * halt unit :=
  match r with
  | (s, Exit code) => (fst (on_exit info code s), Exit code)
  | (s, Uncaught err) => (fst (on_exit info 1 s), Uncaught err)
  | _ => r
  end.

(** *** The logic of the program's properties *)

(** How a piece that does not go on halts. *)
Inductive stop : Type :=
  | Exited (code : nat)
  | Raised (err : js_error)
  | Lost.

(** A triple of the program logic: from a state that satisfies [P], the
    piece [m] either goes on with a value and a state that satisfy [Q], or
    halts in a way and in a state that satisfy [H]. *)
Definition triple {A} (P : state -> Prop) (m : M A)
    (Q : A -> state -> Prop) (H : stop -> state -> Prop) : Prop :=
  forall s, P s ->
    match m s with
    | (s', Go a) => Q a s'
    | (s', Exit code) => H (Exited code) s'
    | (s', Uncaught err) => H (Raised err) s'
    | (s', Beyond) => H Lost s'
    end.

(** An invariant: [m] keeps [I], however it ends. *)
Definition keeps {A} (I : state -> Prop) (m : M A) : Prop :=
  triple I m (fun _ => I) (fun _ => I).

(** The piece [m] goes on, with a value that satisfies [Q], and keeps
    [I]. *)
Definition steps {A} (I : state -> Prop) (m : M A) (Q : A -> Prop) : Prop :=
  triple I m (fun a s => I s /\ Q a) (fun _ _ => False).

(** The invariant of [main]: no player is chosen, and the flags of the
    schema that are always in the result are properties of [argv]. *)
Definition unchosen (s : state) : Prop :=
  playerName s = None
  /\ Forall (fun k => is_Some (argv s !! k)) streaming.

(** The players that have arguments of their own (lines 1733-1744). *)
Definition players : list string := ["vlc"; "iina"; "mpv"; "mplayer"; "omx"].

(** The state has the trace [t] and the count [n], its [argv] is [r] but
    for the two properties [enableQuiet] sets, every player has its
    arguments, and no error has been marked as expected. *)
Definition prepared (r : obj) (t : list event) (n : nat) (s : state) : Prop :=
  trace s = t /\ torrentCount s = n
  /\ (forall k, k <> "q" -> k <> "quiet" -> argv s !! k = r !! k)
  /\ Forall (fun p => is_Some (oget p (playerArgs s))) players
  /\ expectedError s = false.

(** An environment for the examples: nothing set, every script found and
    executable. *)
Definition plain_env : env :=
  {| DEBUG := None; is_main := true;
     executable_sync := fun _ => Some true;
     realpathSync := fun v => match v with
                              | VPrim (PStr s) => inr s
                              | _ => inl (TypeError "path must be a string")
                              end;
     dirname := fun s => s;
     stringify := fun _ => "" |}.

(** The options that stop [main] or [processInputs], and the names the
    templates bind: the properties that are falsy when the program has no
    argument. *)
Definition idle_keys : list string :=
  ["help"; "version"; "subtitles"; "onDone"; "onExit"; "playerArgs";
   "torrentIds"; "torrent-ids"; "inputs"; "input"; "torrentId"; "torrent-id"]
  ++ invalidArguments.

(** The commands that take inputs (lines 1747-1750): the name, the token
    of the template, the name it binds, the property the function of the
    command reads and the function it hands an input to. *)
Definition input_commands
  : list (string * string * string * string * handler) :=
  [ ("*", "[torrent-ids...]", "torrent-ids", "torrentIds", runDownload);
    ("download", "<torrent-ids...>", "torrent-ids", "torrentIds", runDownload);
    ("downloadmeta", "<torrent-ids...>", "torrent-ids", "torrentIds",
     runDownloadMeta);
    ("seed", "<inputs...>", "inputs", "inputs", runSeed) ].

(** [argv.quiet] and [argv.q] are [true]. *)
Definition quieted (s : state) : Prop :=
  get "quiet" (argv s) = vtrue /\ get "q" (argv s) = vtrue.

End Cli.

(** * Properties *)

Import Minimist.

(** ** Objects and key order *)
Lemma oget_oput_eq {A} (k : string) (a : A) o : oget k (oput k a o) = Some a.
Proof.
  induction o as [|[k' a'] o IH]; simpl.
  - rewrite String.eqb_refl. reflexivity.
  - destruct (String.eqb k k') eqn:E; simpl; rewrite E; [reflexivity|exact IH].
Qed.

Lemma oget_oput_ne {A} (k k' : string) (a : A) o :
  k <> k' -> oget k' (oput k a o) = oget k' o.
Proof.
  intros Hne. induction o as [|[k0 a0] o IH]; simpl.
  - destruct (String.eqb k' k) eqn:E; [|reflexivity].
    apply String.eqb_eq in E. congruence.
  - destruct (String.eqb k k0) eqn:E; simpl.
    + apply String.eqb_eq in E. subst k0.
      destruct (String.eqb k' k) eqn:E'; [|reflexivity].
      apply String.eqb_eq in E'. congruence.
    + rewrite IH. reflexivity.
Qed.

Lemma oget_oset_eq {A} (k : string) (a : A) o :
  k <> "__proto__" -> oget k (oset k a o) = Some a.
Proof.
  intros H. unfold oset. destruct (String.eqb k "__proto__") eqn:E.
  - apply String.eqb_eq in E. contradiction.
  - apply oget_oput_eq.
Qed.

Lemma oget_oset_ne {A} (k k' : string) (a : A) o :
  k <> k' -> oget k' (oset k a o) = oget k' o.
Proof.
  intros H. unfold oset. destruct (String.eqb k "__proto__"); [reflexivity|].
  apply oget_oput_ne. exact H.
Qed.

(** A property read after an assignment. *)
Lemma oget_oset_cases {A} (k k' : string) (a : A) o v :
  oget k' (oset k a o) = Some v -> (k' = k /\ v = a) \/ oget k' o = Some v.
Proof.
  destruct (decide (k = k')) as [->|Hne].
  - unfold oset. destruct (String.eqb k' "__proto__"); [right; assumption|].
    rewrite oget_oput_eq. intros [= <-]. left. split; reflexivity.
  - rewrite oget_oset_ne by assumption. right. assumption.
Qed.

Lemma oget_In {A} (k : string) (o : jsobj A) v :
  oget k o = Some v -> In k (map fst o).
Proof.
  induction o as [|[k' a'] o IH]; simpl; [discriminate|].
  destruct (String.eqb k k') eqn:E.
  - apply String.eqb_eq in E. left. congruence.
  - intros H. right. apply IH. exact H.
Qed.

Lemma In_oget {A} (k : string) (o : jsobj A) :
  In k (map fst o) -> exists v, oget k o = Some v.
Proof.
  induction o as [|[k' a'] o IH]; simpl; [intros []|].
  destruct (String.eqb k k') eqn:E; [eexists; reflexivity|].
  intros [H|H]; [|apply IH; exact H].
  subst k'. rewrite String.eqb_refl in E. discriminate.
Qed.

Lemma has_true {A} (k : string) (o : jsobj A) :
  has k o = true <-> exists v, oget k o = Some v.
Proof.
  unfold has. destruct (oget k o); split; intros H; try reflexivity;
    try discriminate; [eexists; reflexivity|destruct H; discriminate].
Qed.

(** *** The order of [Object.keys] *)

Lemma insert_sorted_In x y l :
  In y (KeyOrder.insert_sorted x l) <-> y = x \/ In y l.
Proof.
  induction l as [|z l IH]; simpl; [intuition congruence|].
  destruct (fst x <=? fst z)%N; simpl; [intuition congruence|].
  rewrite IH. intuition congruence.
Qed.

Lemma sorted_In y l :
  In y (foldr KeyOrder.insert_sorted [] l) <-> In y l.
Proof.
  induction l as [|z l IH]; simpl; [reflexivity|].
  rewrite insert_sorted_In, IH. intuition congruence.
Qed.

Lemma order_In k ks : In k (KeyOrder.order ks) <-> In k ks.
Proof.
  unfold KeyOrder.order. rewrite in_app_iff, in_map_iff.
  split.
  - intros [((n & k') & Hk & Hin)|Hin].
    + simpl in Hk. subst k'. apply (proj1 (sorted_In _ _)) in Hin.
      apply list_elem_of_In, list_elem_of_omap in Hin as (x & Hx & Hix).
      unfold KeyOrder.indexed in Hix.
      destruct (KeyOrder.array_index x); [|discriminate].
      injection Hix as _ ->. apply list_elem_of_In. exact Hx.
    + apply list_elem_of_In, list_elem_of_filter in Hin as [_ Hin].
      apply list_elem_of_In. exact Hin.
  - intros Hin. destruct (KeyOrder.array_index k) as [n|] eqn:E.
    + left. exists (n, k). split; [reflexivity|]. apply sorted_In.
      apply list_elem_of_In, list_elem_of_omap. exists k.
      split; [apply list_elem_of_In; exact Hin|].
      unfold KeyOrder.indexed. rewrite E. reflexivity.
    + right. apply list_elem_of_In, list_elem_of_filter.
      split; [|apply list_elem_of_In; exact Hin].
      unfold KeyOrder.is_index. rewrite E. reflexivity.
Qed.

Lemma okeys_In {A} k (o : jsobj A) : In k (okeys o) <-> In k (map fst o).
Proof. apply order_In. Qed.

(** ** Normalisation *)

Lemma inherited_proto_frame k k' v (m : obj) :
  k <> k' -> inherited_proto k' (<[k := v]> m) = inherited_proto k' m.
Proof.
  intros Hne. unfold inherited_proto. rewrite lookup_insert_ne by exact Hne.
  reflexivity.
Qed.

Lemma inherited_proto_own k v (m : obj) :
  m !! k = Some v -> inherited_proto k m = false.
Proof.
  intros H. unfold inherited_proto. rewrite H. apply andb_false_r.
Qed.

Lemma normalize_key_settles m k : settled k (normalize_key m k).
Proof.
  unfold settled, normalize_key.
  destruct (inherited_proto k m) eqn:E; [left; exact E|right].
  rewrite lookup_insert_eq. eexists; split; [reflexivity|].
  unfold normal, normal_form, vfalse, vtrue.
  destruct (get k m) as [|[b|[|c s]|lit]|l]; split; congruence.
Qed.

Lemma normalize_key_fixed m k : settled k m -> normalize_key m k = m.
Proof.
  unfold normalize_key. intros [H|(v & Hv & Hn1 & Hn2)]; [rewrite H; reflexivity|].
  rewrite (inherited_proto_own _ _ _ Hv). unfold get. rewrite Hv. simpl.
  apply insert_id. rewrite Hv. f_equal. unfold normal_form.
  destruct v as [|[b|[|c s]|lit]|l]; congruence.
Qed.

Lemma normalize_key_keeps m k k' :
  settled k' m -> settled k' (normalize_key m k).
Proof.
  intros H. destruct (decide (k = k')) as [->|Hne].
  - apply normalize_key_settles.
  - unfold normalize_key. destruct (inherited_proto k m); [exact H|].
    destruct H as [H|(v & Hv & Hn)].
    + left. rewrite inherited_proto_frame by exact Hne. exact H.
    + right. exists v. split; [|exact Hn].
      rewrite lookup_insert_ne; assumption.
Qed.

Lemma normalize_keeps ks : forall m k', settled k' m -> settled k' (normalize ks m).
Proof.
  induction ks as [|k ks IH]; intros m k' H; simpl; [exact H|].
  apply IH. apply normalize_key_keeps. exact H.
Qed.

Lemma normalize_settles ks : forall m k, In k ks -> settled k (normalize ks m).
Proof.
  induction ks as [|k0 ks IH]; intros m k Hin; [destruct Hin|].
  simpl. destruct Hin as [->|Hin].
  - apply normalize_keeps. apply normalize_key_settles.
  - apply IH. exact Hin.
Qed.

Lemma normalize_fixed ks : forall m, (forall k, In k ks -> settled k m) -> normalize ks m = m.
Proof.
  induction ks as [|k ks IH]; intros m H; simpl; [reflexivity|].
  rewrite normalize_key_fixed by (apply H; left; reflexivity).
  apply IH. intros k' Hk'. apply H. right. exact Hk'.
Qed.

(** *** [buildOptions] *)

Lemma buildOptions_snoc options entry :
  buildOptions (options ++ [entry])
  = buildOptions_step (buildOptions options) entry.
Proof. unfold buildOptions. rewrite foldl_app. reflexivity. Qed.

Lemma buildOptions_app options post :
  buildOptions (options ++ post)
  = foldl buildOptions_step (buildOptions options) post.
Proof. unfold buildOptions. apply foldl_app. Qed.

Lemma buildOptions_step_default st entry :
  m_default (fst (buildOptions_step st entry))
  = step_default (m_default (fst st)) entry.
Proof.
  destruct st as [m any], entry as [k v]. unfold buildOptions_step, step_default.
  simpl.
  repeat match goal with
         | |- context [match ?x with _ => _ end] => destruct x; simpl
         end; reflexivity.
Qed.

Lemma drop_starts_with sub : forall s,
  Str.starts_with sub s = true ->
  String.length (Str.drop (String.length sub) s) + String.length sub
  = String.length s.
Proof.
  induction sub as [|a sub IH]; intros s E; simpl; [lia|].
  destruct s as [|b s]; simpl in E; [discriminate|].
  apply andb_true_iff in E as [_ E]. simpl. rewrite <- (IH s E). lia.
Qed.

Lemma replace_first_shorter sub s :
  Str.includes sub s = true ->
  String.length (Str.replace_first sub "" s) + String.length sub
  = String.length s.
Proof.
  induction s as [|c s IH].
  - simpl. destruct sub; simpl; [reflexivity|discriminate].
  - unfold Str.includes, Str.replace_first. fold Str.includes Str.replace_first.
    destruct (Str.starts_with sub (String c s)) eqn:E.
    + intros _. apply (drop_starts_with sub (String c s) E).
    + simpl. intros H. rewrite <- (IH H). lia.
Qed.

Lemma replace_first_differs sub s :
  sub <> "" -> Str.includes sub s = true ->
  Str.replace_first sub "" s <> s.
Proof.
  intros Hsub H E. apply replace_first_shorter in H. rewrite E in H.
  destruct sub; [congruence|]. simpl in H. lia.
Qed.

Lemma step_default_keeps d entry k' :
  k' <> "__proto__" ->
  oget k' d = Some (PBool true) ->
  (fst entry = k' ->
   default_truthy (opt_default (snd entry)) = false
   \/ opt_default (snd entry) = Some (PBool true)) ->
  oget k' (step_default d entry) = Some (PBool true).
Proof.
  intros Hp Hd Hov. destruct entry as [k v]. unfold step_default. simpl in *.
  assert (H1 : oget k'
            match opt_default v with
            | Some p => if prim_truthy p then oset k p d else d
            | None => d
            end = Some (PBool true)).
  { destruct (opt_default v) as [p|]; [|exact Hd].
    destruct (prim_truthy p) eqn:Ep; [|exact Hd].
    destruct (decide (k = k')) as [->|Hne].
    - destruct (Hov eq_refl) as [Hf|Hf].
      + simpl in Hf. congruence.
      + injection Hf as ->. apply oget_oset_eq. exact Hp.
    - rewrite oget_oset_ne; assumption. }
  destruct (Str.includes "no-" k); [|exact H1].
  destruct (decide (Str.replace_first "no-" "" k = k')) as [->|Hne].
  - apply oget_oset_eq. exact Hp.
  - rewrite oget_oset_ne; assumption.
Qed.

(** Once [true], the default of [k'] stays so along entries that set no
    other default for it. *)
Lemma buildOptions_default_kept k' post : forall st,
  k' <> "__proto__" ->
  oget k' (m_default (fst st)) = Some (PBool true) ->
  (forall e, In e post -> fst e = k' ->
     default_truthy (opt_default (snd e)) = false
     \/ opt_default (snd e) = Some (PBool true)) ->
  oget k' (m_default (fst (foldl buildOptions_step st post)))
  = Some (PBool true).
Proof.
  induction post as [|e post IH]; intros st Hp Hst Hpost; simpl; [exact Hst|].
  apply IH; [exact Hp| |intros e' He'; apply Hpost; right; exact He'].
  rewrite buildOptions_step_default. apply step_default_keeps.
  - exact Hp.
  - exact Hst.
  - apply Hpost. left. reflexivity.
Qed.

(** ** minimist *)

Lemma ok_key_proto k : ok_key k = true -> k <> "__proto__".
Proof.
  intros H ->. vm_compute in H. discriminate.
Qed.

Lemma ok_key_plain k : ok_key k = true -> plain_key k = true.
Proof. unfold ok_key. intros H. apply andb_true_iff in H as [H _]. exact H. Qed.

Lemma ok_key_positional k : ok_key k = true -> k <> "_".
Proof.
  unfold ok_key. intros H ->. apply andb_true_iff in H as [_ H].
  discriminate.
Qed.

(** *** The tables minimist builds from the schema *)

Lemma mark_fold_has k ks : forall o,
  has k (foldl (fun o key => oset key true o) o ks) = true ->
  has k o = true \/ In k ks.
Proof.
  induction ks as [|k0 ks IH]; intros o H; simpl in *; [left; exact H|].
  apply IH in H as [H|H]; [|right; right; exact H].
  apply has_true in H as [v Hv]. apply oget_oset_cases in Hv as [[-> _]|Hv].
  - right. left. reflexivity.
  - left. apply has_true. eexists; exact Hv.
Qed.

Lemma mark_has k ks : has k (mark ks) = true -> In k ks.
Proof.
  unfold mark. intros H. apply mark_fold_has in H as [H|H]; [discriminate|].
  apply list_elem_of_In, list_elem_of_filter in H as [_ H].
  apply list_elem_of_In. exact H.
Qed.

Lemma has_oset_keep {A} k k' (a : A) o :
  has k o = true -> has k (oset k' a o) = true.
Proof.
  intros H. destruct (decide (k' = k)) as [->|Hne].
  - unfold oset. destruct (String.eqb k "__proto__"); [exact H|].
    unfold has. rewrite oget_oput_eq. reflexivity.
  - unfold has. rewrite oget_oset_ne by assumption. exact H.
Qed.

Lemma mark_fold_keep k ks : forall o,
  has k o = true -> has k (foldl (fun o key => oset key true o) o ks) = true.
Proof.
  induction ks as [|k0 ks IH]; intros o H; simpl; [exact H|].
  apply IH. apply has_oset_keep. exact H.
Qed.

Lemma has_mark k ks :
  In k ks -> k <> "" -> k <> "__proto__" -> has k (mark ks) = true.
Proof.
  intros Hin Hne Hp. unfold mark.
  assert (Hf : In k (filter (fun key => Str.is_empty key = false) ks)).
  { apply list_elem_of_In, list_elem_of_filter.
    split; [|apply list_elem_of_In; exact Hin].
    destruct k; [congruence|reflexivity]. }
  revert Hf. generalize (filter (fun key => Str.is_empty key = false) ks).
  intros l. generalize (@nil (string * bool)).
  induction l as [|k0 l IH]; intros o Hl; [destruct Hl|].
  simpl. destruct Hl as [->|Hl].
  - apply mark_fold_keep. unfold has. rewrite oget_oset_eq by assumption.
    reflexivity.
  - apply IH. exact Hl.
Qed.

Lemma alias_step_eq alias al key target :
  key <> "__proto__" ->
  oget key alias = Some target ->
  alias_step alias al key = oset target [key] (oset key [target] al).
Proof.
  intros Hp Ht. unfold alias_step. rewrite Ht. simpl.
  rewrite oget_oset_eq by assumption. simpl.
  rewrite filter_cons, filter_nil.
  destruct (decide _) as [H|H]; [|reflexivity].
  rewrite String.eqb_refl in H. destruct H.
Qed.

Section Tables.

Variable opts : MinimistOpts.
Hypothesis Hok : schema_ok opts = true.

Local Abbreviation fl := (build_flags opts).

Lemma schema_key_ok k : In k (schema_keys opts) -> ok_key k = true.
Proof.
  intros H. unfold schema_ok in Hok. rewrite forallb_forall in Hok.
  apply Hok. exact H.
Qed.

Lemma schema_plain : forallb plain_key (schema_keys opts) = true.
Proof.
  apply forallb_forall. intros k Hk. apply ok_key_plain, schema_key_ok, Hk.
Qed.

Lemma alias_key_ok k : In k (map fst (m_alias opts)) -> ok_key k = true.
Proof.
  intros H. apply schema_key_ok. unfold schema_keys.
  rewrite !in_app_iff. auto.
Qed.

Lemma alias_target_ok k : In k (map snd (m_alias opts)) -> ok_key k = true.
Proof.
  intros H. apply schema_key_ok. unfold schema_keys.
  rewrite !in_app_iff. auto.
Qed.

Lemma default_key_ok k : In k (map fst (m_default opts)) -> ok_key k = true.
Proof.
  intros H. apply schema_key_ok. unfold schema_keys.
  rewrite !in_app_iff. auto.
Qed.

Lemma oget_target {A} k (o : jsobj A) v : oget k o = Some v -> In v (map snd o).
Proof.
  induction o as [|[k' a'] o IH]; simpl; [discriminate|].
  destruct (String.eqb k k'); [intros [= ->]; left; reflexivity|].
  intros H. right. apply IH. exact H.
Qed.

Lemma alias_fold_inv ks : forall al,
  (forall k, In k ks -> In k (map fst (m_alias opts))) ->
  alias_inv al -> alias_inv (foldl (alias_step (m_alias opts)) al ks).
Proof.
  induction ks as [|key ks IH]; intros al Hks Hal; simpl; [exact Hal|].
  apply IH; [intros k Hk; apply Hks; right; exact Hk|].
  assert (Hkey : In key (map fst (m_alias opts))) by (apply Hks; left; reflexivity).
  destruct (In_oget _ _ Hkey) as [target Ht].
  assert (Hk1 : ok_key key = true) by (apply alias_key_ok; exact Hkey).
  assert (Hk2 : ok_key target = true)
    by (apply alias_target_ok; eapply oget_target; exact Ht).
  rewrite (alias_step_eq _ _ _ _ (ok_key_proto _ Hk1) Ht).
  intros k l Hl.
  apply oget_oset_cases in Hl as [[-> ->]|Hl]; [split; [exact Hk2|eauto]|].
  apply oget_oset_cases in Hl as [[-> ->]|Hl]; [split; [exact Hk1|eauto]|].
  apply Hal. exact Hl.
Qed.

Lemma aliases_ok : alias_inv (aliases fl).
Proof.
  unfold build_flags, build_aliases. simpl.
  apply alias_fold_inv.
  - intros k Hk. apply okeys_In. exact Hk.
  - intros k l H. discriminate.
Qed.

Lemma bools_ok k : has k (bools fl) = true -> ok_key k = true.
Proof.
  unfold build_flags. simpl. intros H. apply mark_has in H.
  apply schema_key_ok. unfold schema_keys. rewrite !in_app_iff. auto.
Qed.

Lemma strings_fold_ok al ks : forall o,
  alias_inv al ->
  (forall k, In k ks -> ok_key k = true) ->
  (forall k, has k o = true -> ok_key k = true) ->
  forall k, has k (foldl (string_step al) o ks) = true -> ok_key k = true.
Proof.
  induction ks as [|key ks IH]; intros o Hal Hks Ho k H; simpl in H; [auto|].
  revert H. apply IH; [exact Hal|intros k' Hk'; apply Hks; right; exact Hk'|].
  intros k' Hk'. unfold string_step in Hk'.
  assert (Hkey : ok_key key = true) by (apply Hks; left; reflexivity).
  assert (H1 : forall k0, has k0 (oset key true o) = true -> ok_key k0 = true).
  { intros k0 Hk0. apply has_true in Hk0 as [v Hv].
    apply oget_oset_cases in Hv as [[-> _]|Hv]; [exact Hkey|].
    apply Ho. apply has_true. eexists; exact Hv. }
  destruct (oget key al) as [l|] eqn:El; [|apply H1; exact Hk'].
  destruct (Hal _ _ El) as (_ & x & -> & Hx).
  apply has_true in Hk' as [v Hv].
  apply oget_oset_cases in Hv as [[-> _]|Hv]; [exact Hx|].
  apply H1. apply has_true. eexists; exact Hv.
Qed.

Lemma strings_ok k : has k (strings fl) = true -> ok_key k = true.
Proof.
  unfold build_flags. simpl. apply strings_fold_ok.
  - apply aliases_ok.
  - intros k' Hk'. apply list_elem_of_In, list_elem_of_filter in Hk' as [_ Hk'].
    apply schema_key_ok. unfold schema_keys. rewrite !in_app_iff.
    right. left. apply list_elem_of_In. exact Hk'.
  - intros k' Hk'. discriminate.
Qed.

Lemma declared_ok k : Flag.declared fl k = true -> ok_key k = true.
Proof.
  unfold Flag.declared. intros H.
  apply orb_true_iff in H as [H|H]; [apply orb_true_iff in H as [H|H]|].
  - apply strings_ok. exact H.
  - apply bools_ok. exact H.
  - apply has_true in H as [l Hl]. apply (aliases_ok _ _ Hl).
Qed.

Lemma writes_ok k :
  ok_key k = true -> Forall (fun x => ok_key x = true) (Flag.writes fl k).
Proof.
  intros Hk. unfold Flag.writes. constructor; [exact Hk|].
  destruct (oget k (aliases fl)) as [l|] eqn:El; simpl; [|constructor].
  destruct (aliases_ok _ _ El) as (_ & x & -> & Hx).
  constructor; [exact Hx|constructor].
Qed.

End Tables.

Lemma bind_return {A B} (m : outcome A) (f : A -> outcome B) b :
  (m ≫= f) = Return b -> exists a, m = Return a /\ f a = Return b.
Proof. destruct m; simpl; intros H; try discriminate. eauto. Qed.

Lemma mem_In k l : Flag.mem k l = true <-> In k l.
Proof.
  unfold Flag.mem. rewrite existsb_exists. split.
  - intros (x & Hx & E). apply String.eqb_eq in E. subst. exact Hx.
  - intros H. exists k. split; [exact H|apply String.eqb_refl].
Qed.

Lemma mem_false k l : Flag.mem k l = false <-> ~ In k l.
Proof.
  rewrite <- mem_In. destruct (Flag.mem k l); split; intros H; congruence.
Qed.

(** *** [setKey], [setArg] *)

Section Writes.

Variable fl : flags.

Lemma setKey_plain key val argv :
  plain_key key = true ->
  setKey fl key val argv
  = Return (<[key := stored fl key val (argv !! key)]> argv).
Proof. intros H. unfold setKey. rewrite H. reflexivity. Qed.

Lemma setKey_frame key val argv argv' j :
  setKey fl key val argv = Return argv' -> j <> key ->
  argv' !! j = argv !! j.
Proof.
  unfold setKey. destruct (plain_key key); [|discriminate].
  intros [= <-] Hne. apply lookup_insert_ne. congruence.
Qed.

Lemma setKeys_frame keys val : forall argv argv' j,
  setKeys fl keys val argv = Return argv' -> ~ In j keys ->
  argv' !! j = argv !! j.
Proof.
  induction keys as [|x keys IH]; intros argv argv' j H Hj; simpl in H.
  - injection H as <-. reflexivity.
  - apply bind_return in H as (argv1 & H1 & H2).
    rewrite (IH _ _ _ H2) by (intros Hin; apply Hj; right; exact Hin).
    apply (setKey_frame _ _ _ _ _ H1). intros ->. apply Hj. left. reflexivity.
Qed.

Lemma setKeys_total keys val : forall argv,
  Forall (fun x => ok_key x = true) keys ->
  exists argv', setKeys fl keys val argv = Return argv'.
Proof.
  induction keys as [|x keys IH]; intros argv Hk; simpl; [eauto|].
  inversion Hk as [|? ? Hx Hks]; subst.
  rewrite setKey_plain by (apply ok_key_plain; exact Hx). simpl.
  apply IH. exact Hks.
Qed.

Lemma setArg_frame key val argv argv' j :
  setArg fl key val argv = Return argv' -> ~ In j (Flag.writes fl key) ->
  argv' !! j = argv !! j.
Proof.
  unfold setArg, Flag.writes. intros H Hj.
  apply bind_return in H as (argv1 & H1 & H2).
  rewrite (setKeys_frame _ _ _ _ _ H2) by (intros Hin; apply Hj; right; exact Hin).
  apply (setKey_frame _ _ _ _ _ H1). intros ->. apply Hj. left. reflexivity.
Qed.

Lemma setArg_total key val argv :
  Forall (fun x => ok_key x = true) (Flag.writes fl key) ->
  exists argv', setArg fl key val argv = Return argv'.
Proof.
  unfold setArg, Flag.writes. intros Hk.
  inversion Hk as [|? ? Hx Hks]; subst.
  rewrite setKey_plain by (apply ok_key_plain; exact Hx). simpl.
  apply setKeys_total. exact Hks.
Qed.

(** The property [key] itself after [setArg(key, val)], when [key] is not
    its own alias. *)
Lemma setArg_self key val argv argv' :
  setArg fl key val argv = Return argv' ->
  ~ In key (default [] (oget key (aliases fl))) ->
  argv' !! key = Some (stored fl key (coerce fl key val) (argv !! key)).
Proof.
  unfold setArg. intros H Hj.
  apply bind_return in H as (argv1 & H1 & H2).
  rewrite (setKeys_frame _ _ _ _ _ H2) by exact Hj.
  unfold setKey in H1. destruct (plain_key key); [|discriminate].
  injection H1 as <-. apply lookup_insert_eq.
Qed.

Lemma setArgs_frame sets : forall argv argv' j,
  setArgs fl sets argv = Return argv' ->
  (forall k, In k (map fst sets) -> ~ In j (Flag.writes fl k)) ->
  argv' !! j = argv !! j.
Proof.
  induction sets as [|[k v] sets IH]; intros argv argv' j H Hj; simpl in H.
  - injection H as <-. reflexivity.
  - apply bind_return in H as (argv1 & H1 & H2).
    rewrite (IH _ _ _ H2) by (intros k' Hk'; apply Hj; right; exact Hk').
    apply (setArg_frame _ _ _ _ _ H1). apply Hj. left. reflexivity.
Qed.

Lemma setArgs_total sets : forall argv,
  (forall k, In k (map fst sets) ->
             Forall (fun x => ok_key x = true) (Flag.writes fl k)) ->
  exists argv', setArgs fl sets argv = Return argv'.
Proof.
  induction sets as [|[k v] sets IH]; intros argv Hk; simpl; [eauto|].
  destruct (setArg_total k v argv) as [argv1 H1]; [apply Hk; left; reflexivity|].
  rewrite H1. simpl. apply IH. intros k' Hk'. apply Hk. right. exact Hk'.
Qed.

Lemma setArgs_app s1 s2 argv :
  setArgs fl (s1 ++ s2) argv = setArgs fl s1 argv ≫= setArgs fl s2.
Proof.
  revert argv. induction s1 as [|[k v] s1 IH]; intros argv; simpl; [reflexivity|].
  destruct (setArg fl k v argv); simpl; [apply IH|reflexivity|reflexivity].
Qed.

(** The positionals stay an array whatever is set, [_] not being a boolean
    flag. *)
Lemma setKey_array key val argv argv' :
  has "_" (bools fl) = false ->
  setKey fl key val argv = Return argv' -> is_array argv -> is_array argv'.
Proof.
  intros Hb H [l Hl]. unfold setKey in H.
  destruct (plain_key key); [|discriminate].
  injection H as <-. destruct (String.eqb_spec key "_") as [->|Hne].
  - rewrite Hl. unfold stored. rewrite Hb. exists (l ++ [val]).
    apply lookup_insert_eq.
  - exists l. rewrite lookup_insert_ne by congruence. exact Hl.
Qed.

Lemma setKeys_read keys val : forall argv,
  has "_" (bools fl) = false ->
  forallb plain_key keys = true -> is_array argv ->
  exists argv', setKeys fl keys val argv = Return argv' /\ is_array argv'.
Proof.
  induction keys as [|x keys IH]; intros argv Hb Hk Ha; simpl; [eauto|].
  simpl in Hk. apply andb_true_iff in Hk as [Hx Hk].
  rewrite (setKey_plain x val argv Hx). simpl. apply IH; [exact Hb|exact Hk|].
  apply (setKey_array x val argv _ Hb (setKey_plain x val argv Hx) Ha).
Qed.

Lemma setArg_read key val argv :
  has "_" (bools fl) = false ->
  forallb plain_key (Flag.writes fl key) = true -> is_array argv ->
  exists argv', setArg fl key val argv = Return argv' /\ is_array argv'.
Proof.
  unfold setArg, Flag.writes. intros Hb Hk Ha.
  simpl in Hk. apply andb_true_iff in Hk as [Hx Hk].
  rewrite (setKey_plain key _ argv Hx). simpl.
  apply setKeys_read; [exact Hb|exact Hk|].
  apply (setKey_array key _ argv _ Hb (setKey_plain key _ argv Hx) Ha).
Qed.

Lemma setArgs_read sets : forall argv,
  has "_" (bools fl) = false ->
  forallb (fun k => forallb plain_key (Flag.writes fl k)) (map fst sets)
  = true ->
  is_array argv ->
  exists argv', setArgs fl sets argv = Return argv' /\ is_array argv'.
Proof.
  induction sets as [|[k v] sets IH]; intros argv Hb Hk Ha; simpl; [eauto|].
  simpl in Hk. apply andb_true_iff in Hk as [Hx Hk].
  destruct (setArg_read k v argv Hb Hx Ha) as (argv1 & H1 & Ha1).
  rewrite H1. simpl. apply IH; assumption.
Qed.

(** *** [classify] *)

Lemma not_bool_word_dashed n : dashed n = true -> is_bool_word n = false.
Proof.
  destruct n as [|c n]; [discriminate|]. unfold dashed, is_bool_word.
  destruct c as [[] [] [] [] [] [] [] []]; try discriminate;
    intros _; reflexivity.
Qed.

Lemma flag_like_dashed n : flag_like n = true -> dashed n = true.
Proof.
  destruct n as [|c n]; [discriminate|]. unfold flag_like, dashed. simpl.
  destruct c as [[] [] [] [] [] [] [] []]; try discriminate. reflexivity.
Qed.

(** An argument that looks like a flag is never taken as a value. *)
Lemma classify_flag_next arg n :
  flag_like n = true -> classify fl arg (Some n) = classify fl arg None.
Proof.
  intros Hn. pose proof (flag_like_dashed _ Hn) as Hd.
  pose proof (not_bool_word_dashed _ Hd) as Hb.
  unfold classify. rewrite Hn, Hd, Hb. simpl.
  rewrite !andb_false_r. simpl.
  destruct (cluster fl (Str.drop 1 arg)). reflexivity.
Qed.

(** The following argument decides which value a flag takes, not which
    keys are set. *)
Lemma classify_keys arg next :
  match classify fl arg next, classify fl arg None with
  | Sets s _, Sets s0 _ => map fst s = map fst s0
  | Positional, Positional => True
  | Fault _, Fault _ => True
  | _, _ => False
  end.
Proof.
  unfold classify.
  destruct (long_eq arg).
  { destruct (Str.is_empty _); [exact I|].
    destruct (has _ _); reflexivity. }
  destruct (long_after "--no-" arg); [reflexivity|].
  destruct (long_after "--" arg).
  { destruct next as [n|]; [|reflexivity].
    repeat match goal with
           | |- context [if ?b then _ else _] => destruct b
           end; reflexivity. }
  destruct (short arg); [|exact I].
  destruct (cluster fl (Str.drop 1 arg)) as [sets broken].
  destruct (negb broken && _); [|reflexivity].
  destruct next as [n|]; [|reflexivity].
  repeat match goal with
         | |- context [if ?b then _ else _] => destruct b
         end; rewrite !map_app; reflexivity.
Qed.

End Writes.

(** *** The loop over the arguments *)

(** Induction along the loop: it goes on after one argument or after two. *)
Lemma loop_ind (Q : list string -> Prop) :
  Q [] ->
  (forall arg rest,
      Q rest -> (forall n rest', rest = n :: rest' -> Q rest') ->
      Q (arg :: rest)) ->
  forall args, Q args.
Proof.
  intros Hnil Hcons args.
  enough (H : Q args /\ (forall n rest', args = n :: rest' -> Q rest'))
    by apply H.
  induction args as [|a rest [IH1 IH2]].
  - split; [exact Hnil|discriminate].
  - split; [apply Hcons; assumption|].
    intros n rest' [= _ <-]. exact IH1.
Qed.

Lemma push_total x argv :
  is_array argv -> exists argv', push x argv = Return argv' /\ is_array argv'.
Proof.
  intros [l Hl]. unfold push. rewrite Hl. eexists. split; [reflexivity|].
  exists (l ++ [x]). apply lookup_insert_eq.
Qed.

Lemma push_frame x argv argv' j :
  push x argv = Return argv' -> j <> "_" -> argv' !! j = argv !! j.
Proof.
  unfold push. destruct (argv !! "_") as [[| |l]|]; try discriminate.
  intros [= <-] Hj. apply lookup_insert_ne. congruence.
Qed.

Section Loop.

Variable fl : flags.

Lemma loop_preserves (P : obj -> Prop) (C : string -> Prop) :
  (forall arg next sets c argv argv',
      C arg -> classify fl arg next = Sets sets c ->
      P argv -> setArgs fl sets argv = Return argv' -> P argv') ->
  (forall x argv argv', P argv -> push x argv = Return argv' -> P argv') ->
  forall args, Forall C args ->
  forall argv argv', P argv -> loop fl args argv = Return argv' -> P argv'.
Proof.
  intros Hsets Hpush args. induction args as [|arg rest IH1 IH2] using loop_ind;
    intros HC argv argv' HP H; simpl in H.
  - injection H as <-. exact HP.
  - inversion HC as [|? ? Harg Hrest]; subst.
    destruct (classify fl arg (head rest)) as [sets c| |m] eqn:Ec.
    + apply bind_return in H as (argv1 & H1 & H2).
      assert (HP1 : P argv1) by (eapply Hsets; eassumption).
      destruct c.
      * destruct rest as [|n rest']; [injection H2 as <-; exact HP1|].
        inversion Hrest; subst.
        eapply (IH2 n rest' eq_refl); eassumption.
      * eapply IH1; eassumption.
    + apply bind_return in H as (argv1 & H1 & H2).
      eapply IH1; [exact Hrest| |exact H2]. eapply Hpush; eassumption.
    + discriminate.
Qed.

(** An argument that does not set [key] leaves it as it is. *)
Lemma loop_frame key args argv argv' :
  key <> "_" ->
  Forall (fun arg => Flag.silent fl key arg = true) args ->
  loop fl args argv = Return argv' ->
  argv' !! key = argv !! key.
Proof.
  intros Hkey Hs H.
  apply (loop_preserves (fun a => a !! key = argv !! key)
           (fun arg => Flag.silent fl key arg = true)) with args argv;
    [| |exact Hs|reflexivity|exact H].
  - intros arg next sets c a a' Harg Hc Ha Hsets. rewrite <- Ha.
    apply (setArgs_frame fl _ _ _ _ Hsets).
    intros k Hk. pose proof (classify_keys fl arg next) as Hkeys.
    rewrite Hc in Hkeys. unfold Flag.silent, Flag.keys_of in Harg.
    destruct (classify fl arg None) as [s0 c0| |]; try contradiction.
    rewrite Hkeys in Hk. rewrite forallb_forall in Harg.
    specialize (Harg k Hk). apply negb_true_iff, mem_false in Harg.
    exact Harg.
  - intros x a a' Ha Hp. rewrite <- Ha. apply (push_frame _ _ _ _ Hp Hkey).
Qed.

Lemma writes_not_positional k :
  Forall (fun x => ok_key x = true) (Flag.writes fl k) ->
  ~ In "_" (Flag.writes fl k).
Proof.
  intros H Hin. rewrite Forall_forall in H.
  specialize (H _ (proj2 (list_elem_of_In _ _) Hin)). discriminate.
Qed.

(** The loop returns for every list of readable arguments. *)
Lemma loop_total args :
  has "_" (bools fl) = false ->
  Forall (fun arg => Flag.readable fl arg = true) args ->
  forall argv, is_array argv ->
  exists argv', loop fl args argv = Return argv' /\ is_array argv'.
Proof.
  intros Hb.
  induction args as [|arg rest IH1 IH2] using loop_ind; intros HK argv Ha;
    simpl.
  - eauto.
  - inversion HK as [|? ? Harg Hrest]; subst.
    pose proof (classify_keys fl arg (head rest)) as Hkeys.
    unfold Flag.readable in Harg.
    destruct (classify fl arg (head rest)) as [sets c| |m] eqn:Ec;
      destruct (classify fl arg None) as [s0 c0| |m0]; try contradiction;
      try discriminate.
    + rewrite <- Hkeys in Harg.
      destruct (setArgs_read fl sets argv Hb Harg Ha) as (argv1 & H1 & Ha1).
      rewrite H1. simpl. destruct c.
      * destruct rest as [|n rest']; [eauto|].
        inversion Hrest; subst. apply (IH2 n rest' eq_refl); assumption.
      * apply IH1; assumption.
    + destruct (push_total (positional fl arg) argv Ha) as (argv1 & H1 & Ha1).
      rewrite H1. simpl. apply IH1; assumption.
Qed.

(** Reading a prefix that is followed by a flag, then the rest. *)
Lemma loop_app pre n rest :
  flag_like n = true ->
  forall argv,
  loop fl (pre ++ n :: rest) argv
  = loop fl pre argv ≫= loop fl (n :: rest).
Proof.
  intros Hn. induction pre as [|arg pre IH1 IH2] using loop_ind; intros argv.
  - reflexivity.
  - change ((arg :: pre) ++ n :: rest) with (arg :: (pre ++ n :: rest)).
    cbn [loop].
    assert (Hc : classify fl arg (head (pre ++ n :: rest))
                 = classify fl arg (head pre)).
    { destruct pre as [|m pre']; [|reflexivity].
      apply classify_flag_next. exact Hn. }
    rewrite Hc.
    destruct (classify fl arg (head pre)) as [sets c| |m] eqn:Ec; simpl.
    + destruct (setArgs fl sets argv) as [argv1| |]; simpl; try reflexivity.
      destruct c.
      * destruct pre as [|m pre'].
        { (* a flag never consumes a value that is not there *)
          exfalso. clear -Ec. unfold classify in Ec. simpl in Ec.
          repeat match type of Ec with
                 | context [if ?b then _ else _] => destruct b
                 | context [let (_, _) := ?p in _] => destruct p
                 end; discriminate. }
        apply (IH2 m pre' eq_refl).
      * apply IH1.
    + destruct (push (positional fl arg) argv); simpl; try reflexivity.
      apply IH1.
    + reflexivity.
Qed.

End Loop.

(** *** The defaults and the arguments after [--] *)

Section Defaults.

Variable fl : flags.
Variable defaults : jsobj prim.

Lemma apply_defaults_frame keys : forall argv argv' K,
  apply_defaults fl defaults keys argv = Return argv' ->
  (forall k, In k keys -> k <> K -> ~ In K (Flag.writes fl k)) ->
  is_Some (argv !! K) \/ ~ In K keys ->
  argv' !! K = argv !! K.
Proof.
  induction keys as [|key keys IH]; intros argv argv' K H Hw HK; simpl in H.
  - injection H as <-. reflexivity.
  - assert (Hw' : forall k, In k keys -> k <> K -> ~ In K (Flag.writes fl k))
      by (intros k Hk; apply Hw; right; exact Hk).
    assert (HK' : forall a : obj, a !! K = argv !! K ->
                    is_Some (a !! K) \/ ~ In K keys).
    { intros a Ha. destruct HK as [HK|HK]; [left; rewrite Ha; exact HK|].
      right. intros Hin. apply HK. right. exact Hin. }
    destruct (oget key defaults) as [d|]; [|apply (IH _ _ _ H Hw'); auto].
    destruct (plain_key key); [|discriminate].
    destruct (argv !! key) as [old|] eqn:Eold; [apply (IH _ _ _ H Hw'); auto|].
    apply bind_return in H as (argv1 & H1 & H).
    apply bind_return in H as (argv2 & H2 & H).
    assert (Hne : key <> K).
    { intros ->. destruct HK as [[v Hv]|HK]; [congruence|].
      apply HK. left. reflexivity. }
    assert (Hnw : ~ In K (Flag.writes fl key))
      by (apply Hw; [left; reflexivity|exact Hne]).
    assert (E : argv2 !! K = argv !! K).
    { rewrite (setKeys_frame fl _ _ _ _ _ H2)
        by (intros Hin; apply Hnw; right; exact Hin).
      apply (setKey_frame fl _ _ _ _ _ H1). congruence. }
    rewrite <- E. apply (IH _ _ _ H Hw'). apply HK'. exact E.
Qed.

Lemma apply_defaults_total keys : forall argv,
  (forall k, In k keys ->
             Forall (fun x => ok_key x = true) (Flag.writes fl k)) ->
  is_array argv ->
  exists argv', apply_defaults fl defaults keys argv = Return argv'
                /\ is_array argv'.
Proof.
  induction keys as [|key keys IH]; intros argv Hk Ha; simpl; [eauto|].
  assert (Hk' : forall k, In k keys ->
                  Forall (fun x => ok_key x = true) (Flag.writes fl k))
    by (intros k Hin; apply Hk; right; exact Hin).
  destruct (oget key defaults) as [d|]; [|apply IH; assumption].
  pose proof (Hk key (or_introl eq_refl)) as Hkey.
  inversion Hkey as [|? ? Hx Hal]; subst.
  rewrite (ok_key_plain _ Hx).
  destruct (argv !! key) as [old|] eqn:Eold; [apply IH; assumption|].
  rewrite setKey_plain by (apply ok_key_plain; exact Hx). simpl.
  destruct (setKeys_total fl _ d (<[key:=stored fl key d (argv !! key)]> argv) Hal)
    as [argv2 H2].
  rewrite H2. simpl. apply IH; [exact Hk'|].
  destruct Ha as [l Hl]. exists l.
  rewrite (setKeys_frame fl _ _ _ _ _ H2).
  - rewrite lookup_insert_ne; [exact Hl|]. intros ->. discriminate.
  - intros Hin. rewrite Forall_forall in Hal.
    specialize (Hal _ (proj2 (list_elem_of_In _ _) Hin)). discriminate.
Qed.

End Defaults.

Lemma push_all_total xs : forall argv,
  is_array argv ->
  exists argv', push_all xs argv = Return argv' /\ is_array argv'.
Proof.
  induction xs as [|x xs IH]; intros argv Ha; simpl; [eauto|].
  destruct (push_total (PStr x) argv Ha) as (argv1 & H1 & Ha1).
  rewrite H1. simpl. apply IH. exact Ha1.
Qed.

Lemma push_all_frame xs : forall argv argv' j,
  push_all xs argv = Return argv' -> j <> "_" -> argv' !! j = argv !! j.
Proof.
  induction xs as [|x xs IH]; intros argv argv' j H Hj; simpl in H.
  - injection H as <-. reflexivity.
  - apply bind_return in H as (argv1 & H1 & H2).
    rewrite (IH _ _ _ H2 Hj). apply (push_frame _ _ _ _ H1 Hj).
Qed.

Lemma before_dashes_sub (P : string -> Prop) args :
  Forall P args -> Forall P (before_dashes args).
Proof.
  induction 1 as [|a args Ha Hargs IH]; simpl; [constructor|].
  destruct (String.eqb a "--"); constructor; assumption.
Qed.

Lemma before_dashes_app pre rest :
  ~ In "--" pre -> before_dashes (pre ++ rest) = pre ++ before_dashes rest.
Proof.
  induction pre as [|a pre IH]; intros H; simpl; [reflexivity|].
  destruct (String.eqb_spec a "--") as [->|Hne].
  - exfalso. apply H. left. reflexivity.
  - rewrite IH; [reflexivity|]. intros Hin. apply H. right. exact Hin.
Qed.

Lemma after_dashes_app pre rest :
  ~ In "--" pre -> after_dashes (pre ++ rest) = after_dashes rest.
Proof.
  induction pre as [|a pre IH]; intros H; simpl; [reflexivity|].
  destruct (String.eqb_spec a "--") as [->|Hne].
  - exfalso. apply H. left. reflexivity.
  - apply IH. intros Hin. apply H. right. exact Hin.
Qed.

(** *** The stages of [minimist] *)

Section Stages.

Variable opts : MinimistOpts.
Hypothesis Hok : schema_ok opts = true.

Local Abbreviation fl := (build_flags opts).
Local Abbreviation defaults := (m_default opts).

Lemma minimist_unfold args :
  minimist args opts
  = (argv0 ← setArgs fl (presets opts) {["_" := VArr []]};
     argv1 ← loop fl (before_dashes args) argv0;
     argv2 ← apply_defaults fl defaults (okeys defaults) argv1;
     push_all (after_dashes args) argv2).
Proof. unfold minimist. rewrite (schema_plain opts Hok). reflexivity. Qed.

Lemma declared_writes k :
  Flag.declared fl k = true ->
  Forall (fun x => ok_key x = true) (Flag.writes fl k).
Proof.
  intros H. apply (writes_ok opts Hok), (declared_ok opts Hok), H.
Qed.

Lemma declared_plain k :
  Flag.declared fl k = true -> forallb plain_key (Flag.writes fl k) = true.
Proof.
  intros H. apply forallb_forall. intros x Hx. apply ok_key_plain.
  pose proof (declared_writes k H) as Hw. rewrite Forall_forall in Hw.
  apply Hw, list_elem_of_In, Hx.
Qed.

(** An argument with no unknown flag is readable. *)
Lemma known_readable arg :
  Flag.known fl arg = true -> Flag.readable fl arg = true.
Proof.
  unfold Flag.known, Flag.readable.
  destruct (classify fl arg None) as [sets c| |m]; try (intros H; exact H).
  rewrite !forallb_forall. intros H k Hk. apply declared_plain, H, Hk.
Qed.

Lemma bools_not_positional : has "_" (bools fl) = false.
Proof.
  destruct (has "_" (bools fl)) eqn:E; [|reflexivity].
  apply (bools_ok opts Hok) in E. discriminate.
Qed.

Lemma preset_keys k : In k (map fst (presets opts)) -> has k (bools fl) = true.
Proof.
  unfold presets. rewrite map_map. simpl. rewrite map_id.
  intros H. apply okeys_In, In_oget in H. apply has_true. exact H.
Qed.

Lemma preset_declared k :
  In k (map fst (presets opts)) -> Flag.declared fl k = true.
Proof.
  intros H. unfold Flag.declared. rewrite (preset_keys k H).
  apply orb_true_iff. left. apply orb_true_r.
Qed.

Lemma default_writes k :
  In k (okeys defaults) ->
  Forall (fun x => ok_key x = true) (Flag.writes fl k).
Proof.
  intros H. apply (writes_ok opts Hok), (default_key_ok opts Hok).
  apply okeys_In. exact H.
Qed.

Lemma presets_total :
  exists argv0, setArgs fl (presets opts) {["_" := VArr []]} = Return argv0
                /\ argv0 !! "_" = Some (VArr []).
Proof.
  destruct (setArgs_total fl (presets opts) {["_" := VArr []]}) as [argv0 H].
  { intros k Hk. apply declared_writes, preset_declared, Hk. }
  exists argv0. split; [exact H|].
  rewrite (setArgs_frame fl _ _ _ "_" H).
  - apply lookup_singleton_eq.
  - intros k Hk. apply writes_not_positional, declared_writes,
      preset_declared, Hk.
Qed.

(** On readable arguments minimist returns; the stages it goes through. *)
Lemma minimist_stages args :
  Forall (fun arg => Flag.readable fl arg = true) args ->
  exists argv0 argv1 argv2 r,
    setArgs fl (presets opts) {["_" := VArr []]} = Return argv0
    /\ argv0 !! "_" = Some (VArr [])
    /\ loop fl (before_dashes args) argv0 = Return argv1
    /\ apply_defaults fl defaults (okeys defaults) argv1 = Return argv2
    /\ push_all (after_dashes args) argv2 = Return r
    /\ minimist args opts = Return r.
Proof.
  intros Hk. destruct presets_total as (argv0 & H0 & Ha0).
  destruct (loop_total fl (before_dashes args) bools_not_positional
              (before_dashes_sub _ _ Hk) argv0) as (argv1 & H1 & Ha1);
    [eexists; exact Ha0|].
  destruct (apply_defaults_total fl defaults (okeys defaults) argv1
              default_writes Ha1) as (argv2 & H2 & Ha2).
  destruct (push_all_total (after_dashes args) argv2 Ha2) as (r & H3 & _).
  exists argv0, argv1, argv2, r. repeat split; try assumption.
  rewrite minimist_unfold, H0. simpl. rewrite H1. simpl. rewrite H2. exact H3.
Qed.

End Stages.

(** An argument list with no unknown flag is one of those. *)
Lemma no_unknown_flags_reads options args :
  schema_ok (tables options) = true ->
  no_unknown_flags options args -> reads_flags options args.
Proof.
  intros Hok H. unfold no_unknown_flags, reads_flags in *.
  rewrite Forall_forall in *. intros arg Harg.
  apply (known_readable _ Hok), H, Harg.
Qed.

(** ** Post-processing, property by property *)

Lemma normal_form_idem v : normal_form (normal_form v) = normal_form v.
Proof. destruct v as [|[b|[|c s]|lit]|l]; reflexivity. Qed.

Lemma normalize_frame ks : forall r K,
  ~ In K ks -> normalize ks r !! K = r !! K.
Proof.
  induction ks as [|k ks IH]; intros r K HK; simpl; [reflexivity|].
  rewrite IH by (intros Hin; apply HK; right; exact Hin).
  unfold normalize_key. destruct (inherited_proto k r); [reflexivity|].
  apply lookup_insert_ne.
  intros ->. apply HK. left. reflexivity.
Qed.

Lemma normalize_key_lookup r k K :
  inherited_proto K r = false ->
  inherited_proto K (normalize_key r k) = false
  /\ get K (normalize_key r k)
     = if decide (k = K) then normal_form (get K r) else get K r.
Proof.
  intros HK. unfold normalize_key.
  destruct (decide (k = K)) as [->|Hne].
  - rewrite HK. split.
    + apply (inherited_proto_own _ (normal_form (get K r))).
      apply lookup_insert_eq.
    + unfold get at 1. rewrite lookup_insert_eq. reflexivity.
  - destruct (inherited_proto k r); [split; [exact HK|reflexivity]|]. split.
    + rewrite inherited_proto_frame by exact Hne. exact HK.
    + unfold get. rewrite lookup_insert_ne by exact Hne. reflexivity.
Qed.

Lemma normalize_lookup ks : forall r K,
  In K ks -> inherited_proto K r = false ->
  normalize ks r !! K = Some (normal_form (get K r)).
Proof.
  induction ks as [|k ks IH]; intros r K HK Hp; [destruct HK|]. simpl.
  destruct (normalize_key_lookup r k K Hp) as (Hp' & Hget).
  destruct (in_dec string_dec K ks) as [Hin|Hnin].
  - rewrite (IH _ _ Hin Hp'), Hget. f_equal.
    destruct (decide (k = K)); [apply normal_form_idem|reflexivity].
  - destruct HK as [->|HK]; [|contradiction].
    rewrite (normalize_frame _ _ _ Hnin). unfold normalize_key.
    rewrite Hp. apply lookup_insert_eq.
Qed.

Lemma not_inherited_proto k (r : obj) :
  k <> "__proto__" -> inherited_proto k r = false.
Proof.
  intros H. unfold inherited_proto.
  destruct (String.eqb_spec k "__proto__"); [contradiction|reflexivity].
Qed.

(** ** [parseTemplates] *)

Lemma parse_split argv options commands :
  minimistPrettyParse argv options (Some commands)
  = minimistPrettyParse argv options None ≫= parseTemplates commands.
Proof.
  unfold minimistPrettyParse. destruct (minimist_options options) as [m any].
  destruct (minimist argv m); reflexivity.
Qed.

Lemma assign_frame k v r r' j :
  assign k v r = Return r' -> j <> k -> r' !! j = r !! j.
Proof.
  unfold assign. destruct (String.eqb k "__proto__"); [discriminate|].
  intros [= <-] Hj. apply lookup_insert_ne. congruence.
Qed.

Lemma bind_token_frame command preset tok index last prev r r' prev' K :
  bind_token command preset tok index last prev r = Return (r', prev') ->
  ~ In K (bound_names tok) -> r' !! K = r !! K.
Proof.
  unfold bind_token, bound_names.
  destruct (Template.matches tok); [|discriminate].
  destruct (Template.name tok) as [n|]; [|discriminate].
  intros H HK.
  assert (Hn : K <> n) by (intros ->; apply HK; left; reflexivity).
  assert (Hc : K <> Camel.camelCase n)
    by (intros ->; apply HK; right; left; reflexivity).
  apply bind_return in H as (r1 & H1 & H).
  apply bind_return in H as (r2 & H2 & H). injection H as <- _.
  assert (E1 : r1 !! K = r !! K).
  { clear H2. revert H1.
    repeat match goal with
           | |- context [if ?b then _ else _] => destruct b
           end; try discriminate;
      intros H1;
      repeat match type of H1 with
             | (_ ≫= _) = Return _ =>
                 let x := fresh "x" in let Hx := fresh "Hx" in
                 apply bind_return in H1 as (x & Hx & H1)
             | (if ?b then _ else _) = Return _ => destruct b
             end; try discriminate;
      try (injection H1 as <-; reflexivity);
      try (apply (assign_frame _ _ _ _ _ H1 Hn)). }
  rewrite <- E1. destruct (Camel.is_multiword n).
  - apply (assign_frame _ _ _ _ _ H2 Hc).
  - injection H2 as <-. reflexivity.
Qed.

Lemma bind_tokens_frame command preset toks : forall index prev r r' K,
  bind_tokens command preset toks index prev r = Return r' ->
  (forall tok, In tok toks -> ~ In K (bound_names tok)) ->
  r' !! K = r !! K.
Proof.
  induction toks as [|tok toks IH]; intros index prev r r' K H HK; simpl in H.
  - injection H as <-. reflexivity.
  - apply bind_return in H as ([r1 p1] & H1 & H2).
    rewrite (IH _ _ _ _ _ H2) by (intros t Ht; apply HK; right; exact Ht).
    apply (bind_token_frame _ _ _ _ _ _ _ _ _ _ H1).
    apply HK. left. reflexivity.
Qed.

Lemma includes_char a c t :
  Str.includes (String a "") (String c t)
  = Ascii.eqb a c || Str.includes (String a "") t.
Proof.
  change (Str.includes (String a "") (String c t))
    with (Ascii.eqb a c && Str.starts_with "" t
          || Str.includes (String a "") t).
  destruct t; rewrite andb_true_r; reflexivity.
Qed.

Lemma split_single text :
  Str.includes " " text = false -> Str.split " " text = [text].
Proof.
  induction text as [|c text IH]; [reflexivity|].
  rewrite includes_char. intros H. apply orb_false_iff in H as [Hc H].
  cbn [Str.split]. rewrite Ascii.eqb_sym, Hc, (IH H). reflexivity.
Qed.

(** A name no template binds is left as the flags set it. *)
Lemma parseTemplates_frame commands r r' K :
  parseTemplates commands r = Return r' -> unbound commands K ->
  r' !! K = r !! K.
Proof.
  unfold parseTemplates. intros H HK.
  apply bind_return in H as (first & _ & H).
  set (command := match _ with Some s => s | None => "*" end) in H.
  apply bind_return in H as (t & Ht & H).
  unfold template_of in Ht.
  destruct (commands !! command) as [spec|] eqn:Espec; [|discriminate].
  injection Ht as <-.
  destruct (str_truthy (template spec)) eqn:Et.
  - destruct (template spec) as [text|] eqn:Etext; [|discriminate]. simpl in H.
    apply bind_return in H as (toks & Htoks & H).
    apply (bind_tokens_frame _ _ _ _ _ _ _ _ H).
    intros tok Htok.
    destruct (Str.includes " " text) eqn:Esp.
    + apply bind_return in Htoks as (t' & Ht' & Htoks).
      unfold template_of in Ht'.
      destruct (commands !! "[object Object]") as [spec'|] eqn:Espec';
        [|discriminate].
      injection Ht' as <-.
      destruct (template spec') as [text'|] eqn:Etext'; [|discriminate].
      injection Htoks as <-.
      apply (HK _ _ _ _ Espec' Etext' Htok).
    + injection Htoks as <-. apply (HK _ _ _ _ Espec Etext).
      rewrite (split_single _ Esp). exact Htok.
  - apply bind_return in H as (len & _ & H).
    destruct (_ || _); [discriminate|]. injection H as <-. reflexivity.
Qed.

Lemma get_lookup (r : obj) k v : r !! k = Some v -> get k r = v.
Proof. unfold get. intros ->. reflexivity. Qed.

Lemma residual_Some o l :
  residual o = Some l -> exists r, o = Return r /\ r !! "_" = Some (VArr l).
Proof.
  destruct o as [r| |]; simpl; try discriminate.
  destruct (r !! "_") as [[| |l']|] eqn:E; try discriminate.
  intros [= ->]. eauto.
Qed.

Lemma includes_nonempty sub s :
  sub <> "" -> Str.includes sub s = true -> Str.is_empty s = false.
Proof.
  destruct s; [|reflexivity]. destruct sub; [congruence|]. discriminate.
Qed.

Lemma selected_command (commands : gmap string CommandSpec) c spec :
  commands !! c = Some spec ->
  bool_decide (is_Some (commands !! c)) = true.
Proof. intros H. apply bool_decide_eq_true. rewrite H. eauto. Qed.

Lemma unselected_command (commands : gmap string CommandSpec) c :
  commands !! c = None ->
  bool_decide (is_Some (commands !! c)) = false.
Proof.
  intros H. apply bool_decide_eq_false. rewrite H. intros [x Hx]. discriminate.
Qed.

(** The template a named command is matched against. *)
Lemma parseTemplates_named (commands : gmap string CommandSpec) c spec text
    (r : obj) rest :
  commands !! c = Some spec -> template spec = Some text ->
  Str.is_empty text = false -> Str.includes " " text = false ->
  r !! "_" = Some (VArr (PStr c :: rest)) ->
  parseTemplates commands r = bind_tokens c 1 [text] 0 false r.
Proof.
  intros Hc Ht Hne Hsp Hl. unfold parseTemplates.
  rewrite (get_lookup _ _ _ Hl).
  cbn [js_index lookup list_lookup mbind outcome_bind].
  rewrite (selected_command _ _ _ Hc).
  unfold template_of. rewrite Hc. cbn [mbind outcome_bind].
  rewrite Ht. unfold str_truthy. rewrite Hne.
  change (default "" (Some text)) with text. cbn [negb].
  rewrite Hsp. reflexivity.
Qed.

(** The template the default command is matched against. *)
Lemma parseTemplates_default (commands : gmap string CommandSpec) spec text
    (r : obj) l :
  commands !! "*" = Some spec -> template spec = Some text ->
  Str.is_empty text = false -> Str.includes " " text = false ->
  r !! "_" = Some (VArr l) -> names_no_command commands l ->
  parseTemplates commands r = bind_tokens "*" 0 [text] 0 false r.
Proof.
  intros Hc Ht Hne Hsp Hl Hno. unfold parseTemplates.
  rewrite (get_lookup _ _ _ Hl).
  cbn [js_index mbind outcome_bind].
  assert (Hsel : match match l !! 0 with Some p => VPrim p | None => VUndef end with
                 | VPrim (PStr s) =>
                     if bool_decide (is_Some (commands !! s)) then Some s else None
                 | _ => None
                 end = None).
  { destruct l as [|[b|s|lit] l]; try reflexivity. simpl in Hno |- *.
    rewrite (unselected_command _ _ Hno). reflexivity. }
  rewrite Hsel. unfold template_of. rewrite Hc. cbn [mbind outcome_bind].
  rewrite Ht. unfold str_truthy. rewrite Hne.
  change (default "" (Some text)) with text. cbn [negb].
  rewrite Hsp. reflexivity.
Qed.

(** With the property that line 2580 reads in place, the loop over the two
    required tokens gives the errors for too many and for too few
    arguments. *)
Lemma arity_loop_as_intended :
  minimistPrettyParse ["cmd"; "a"; "b"; "c"] None (Some two_required_reached)
  = Throw (Error "Too many arguments were given to 'cmd' command")
  /\ minimistPrettyParse ["cmd"; "a"] None (Some two_required_reached)
     = Throw (Error "'y' argument is required for 'cmd' command").
Proof. split; vm_compute; reflexivity. Qed.

(** *** The default command *)

Lemma run_stuck s : Camel.run Camel.Stuck s = Camel.Stuck.
Proof. induction s as [|c s IH]; [reflexivity|exact IH]. Qed.

Lemma alpha_not_sep c : Str.is_alpha c = true -> Camel.is_sep c = false.
Proof.
  destruct c as [[] [] [] [] [] [] [] []]; try reflexivity;
    intros H; vm_compute in H; discriminate.
Qed.

Lemma alpha_not_underscore c : Str.is_alpha c = true -> c <> "_"%char.
Proof. intros H ->. vm_compute in H. discriminate. Qed.

(** The camelCase mirror of a hyphenated name is an ordinary name. *)
Lemma multiword_camel_not_proto n :
  Camel.is_multiword n = true -> Camel.camelCase n <> "__proto__".
Proof.
  unfold Camel.is_multiword. destruct n as [|c t]; [discriminate|].
  cbn [Camel.run Camel.step].
  destruct (Str.is_alpha c) eqn:Ec; [|rewrite run_stuck; discriminate].
  intros _. pose proof (alpha_not_underscore c Ec) as Hc.
  destruct t as [|d t]; [intros [= ->]; congruence|].
  cbn [Camel.camelCase]. rewrite (alpha_not_sep c Ec). cbn [andb].
  intros [= -> _]. congruence.
Qed.

Lemma matches_nonempty tok :
  Template.matches tok = true -> Str.is_empty tok = false.
Proof. destruct tok; [discriminate|reflexivity]. Qed.

(** The mirror assignment of line 2609 keeps the name it mirrors. *)
Lemma mirror_keeps n (r : obj) v :
  r !! n = Some v ->
  exists r2,
    (if Camel.is_multiword n
     then assign (Camel.camelCase n) (get n r) r else Return r) = Return r2
    /\ r2 !! n = Some v.
Proof.
  intros Hv. destruct (Camel.is_multiword n) eqn:Em; [|eauto].
  unfold assign.
  destruct (String.eqb_spec (Camel.camelCase n) "__proto__") as [E|_].
  { exfalso. exact (multiword_camel_not_proto n Em E). }
  eexists. split; [reflexivity|].
  destruct (decide (Camel.camelCase n = n)) as [->|Hne].
  - rewrite lookup_insert_eq. rewrite (get_lookup _ _ _ Hv). reflexivity.
  - rewrite lookup_insert_ne by exact Hne. exact Hv.
Qed.

(** ** Flags by name *)

Lemma take_while_all p s : Str.all p s = true -> Str.take_while p s = s.
Proof.
  induction s as [|c s IH]; simpl; [reflexivity|].
  intros H. apply andb_true_iff in H as [Hc Hs]. rewrite Hc, (IH Hs).
  reflexivity.
Qed.

(** What the name of a flag is made of. *)
Lemma name_parts k :
  Flag.name k = true ->
  exists c t, k = String c t /\ not_dash c = true
              /\ Str.all Str.is_dot k = true /\ Str.any is_eq k = false
              /\ Str.starts_with "no-" k = false.
Proof.
  unfold Flag.name. intros H.
  apply andb_true_iff in H as [H Hno].
  apply andb_true_iff in H as [H Heq].
  apply andb_true_iff in H as [Hc Hdot].
  destruct k as [|c t]; [discriminate|].
  exists c, t. repeat split; try assumption.
  - apply negb_true_iff. exact Heq.
  - apply negb_true_iff. exact Hno.
Qed.

Lemma any_tail p c t : Str.any p (String c t) = false -> Str.any p t = false.
Proof. simpl. intros H. apply orb_false_iff in H as [_ H]. exact H. Qed.

Lemma dash_eqb c : not_dash c = true -> Ascii.eqb "-" c = false.
Proof. unfold not_dash. rewrite Ascii.eqb_sym. apply negb_true_iff. Qed.

(** [--key] is a flag that sets [key]. *)
Lemma flag_like_long k : Flag.name k = true -> flag_like ("--" +:+ k) = true.
Proof.
  intros H. destruct (name_parts k H) as (c & t & -> & Hc & _).
  simpl. exact Hc.
Qed.

Lemma flag_like_no k : flag_like ("--no-" +:+ k) = true.
Proof. reflexivity. Qed.

Section Names.

Variable fl : flags.

Lemma long_eq_name p k :
  Str.all Str.is_dot p = true -> Str.any is_eq p = false ->
  Flag.name k = true ->
  match Str.take_while Str.is_dot (p +:+ k) with
  | String _ t => Str.any is_eq t
  | EmptyString => false
  end = false.
Proof.
  intros Hp1 Hp2 H. destruct (name_parts k H) as (c & t & -> & _ & Hd & He & _).
  assert (Hall : Str.all Str.is_dot (p +:+ String c t) = true).
  { clear Hp2. induction p as [|a p IH]; [exact Hd|]. simpl in *.
    apply andb_true_iff in Hp1 as [Ha Hp1]. rewrite Ha. apply IH, Hp1. }
  rewrite (take_while_all _ _ Hall).
  assert (Hany : Str.any is_eq (p +:+ String c t) = false).
  { clear Hp1 Hall. induction p as [|a p IH]; [exact He|]. simpl in *.
    apply orb_false_iff in Hp2 as [Ha Hp2]. rewrite Ha. apply IH, Hp2. }
  destruct (p +:+ String c t) as [|a s]; [reflexivity|].
  apply (any_tail _ _ _ Hany).
Qed.

Lemma classify_no k next :
  Flag.name k = true ->
  classify fl ("--no-" +:+ k) next = Sets [(k, PBool false)] false.
Proof.
  intros H. unfold classify, long_eq.
  change (Str.drop 2 ("--no-" +:+ k)) with ("no-" +:+ k).
  rewrite (long_eq_name "no-" k eq_refl eq_refl H). rewrite andb_false_r.
  destruct (name_parts k H) as (c & t & -> & _ & Hd & _).
  unfold long_after.
  change (Str.starts_with "--no-" ("--no-" +:+ String c t)) with true.
  change (Str.drop (String.length "--no-") ("--no-" +:+ String c t))
    with (String c t).
  change (Str.drop 5 ("--no-" +:+ String c t)) with (String c t).
  rewrite (take_while_all _ _ Hd).
  simpl in Hd. apply andb_true_iff in Hd as [Hc _]. rewrite Hc. reflexivity.
Qed.

(** The long branch of [classify] for [--key]. *)
Lemma classify_long k next :
  Flag.name k = true ->
  classify fl ("--" +:+ k) next
  = match next with
    | Some n =>
        if negb (dashed n) && negb (has k (bools fl))
           && alias_not_boolean fl k
        then Sets [(k, PStr n)] true
        else if is_bool_word n
             then Sets [(k, PBool (String.eqb n "true"))] true
             else Sets [(k, bare fl k)] false
    | None => Sets [(k, bare fl k)] false
    end.
Proof.
  intros H. unfold classify, long_eq.
  change (Str.drop 2 ("--" +:+ k)) with k.
  pose proof (long_eq_name "" k eq_refl eq_refl H) as Hle.
  change ("" +:+ k) with k in Hle. rewrite Hle, andb_false_r. clear Hle.
  destruct (name_parts k H) as (c & t & -> & _ & Hd & _ & Hno).
  unfold long_after.
  change (Str.starts_with "--no-" ("--" +:+ String c t))
    with (Str.starts_with "no-" (String c t)).
  rewrite Hno. cbn [andb].
  change (Str.starts_with "--" ("--" +:+ String c t)) with true.
  change (Str.drop (String.length "--") ("--" +:+ String c t))
    with (String c t).
  rewrite (take_while_all _ _ Hd).
  simpl in Hd. apply andb_true_iff in Hd as [Hc _]. rewrite Hc. reflexivity.
Qed.

End Names.

(** ** Boolean flags *)

Section Booleans.

Variable fl : flags.
Variable K : string.
Hypothesis HK : has K (bools fl) = true.

Lemma stored_bool v old : stored fl K v old = VPrim v.
Proof.
  unfold stored. rewrite HK.
  destruct old as [[|[b|s|lit]|l]|]; reflexivity.
Qed.

Lemma setKeys_bool keys val : forall argv argv',
  setKeys fl keys val argv = Return argv' ->
  argv !! K = Some (VPrim val) -> argv' !! K = Some (VPrim val).
Proof.
  induction keys as [|x keys IH]; intros argv argv' H Hv; simpl in H.
  - injection H as <-. exact Hv.
  - apply bind_return in H as (argv1 & H1 & H2). apply (IH _ _ H2).
    unfold setKey in H1. destruct (plain_key x); [|discriminate].
    injection H1 as <-. destruct (decide (x = K)) as [->|Hne].
    + rewrite lookup_insert_eq, stored_bool. reflexivity.
    + rewrite lookup_insert_ne by exact Hne. exact Hv.
Qed.

(** A boolean flag holds the last value it was given. *)
Lemma setArg_bool val argv argv' :
  setArg fl K val argv = Return argv' ->
  argv' !! K = Some (VPrim (coerce fl K val)).
Proof.
  unfold setArg. intros H. apply bind_return in H as (argv1 & H1 & H2).
  apply (setKeys_bool _ _ _ _ H2).
  unfold setKey in H1. destruct (plain_key K); [|discriminate].
  injection H1 as <-. rewrite lookup_insert_eq, stored_bool. reflexivity.
Qed.

Lemma setArgs_bool v sets : forall argv argv',
  setArgs fl sets argv = Return argv' ->
  coerce fl K v = v ->
  (forall v', In (K, v') sets -> v' = v) ->
  (forall k, In k (map fst sets) -> k <> K -> ~ In K (Flag.writes fl k)) ->
  In K (map fst sets) \/ argv !! K = Some (VPrim v) ->
  argv' !! K = Some (VPrim v).
Proof.
  induction sets as [|[k v'] sets IH]; intros argv argv' H Hco Hv Hw Hin;
    simpl in H.
  - injection H as <-. destruct Hin as [[]|Hin]. exact Hin.
  - apply bind_return in H as (argv1 & H1 & H2).
    apply (IH _ _ H2 Hco).
    + intros v0 Hv0. apply Hv. right. exact Hv0.
    + intros k0 Hk0. apply Hw. right. exact Hk0.
    + destruct (decide (k = K)) as [->|Hne].
      * right. rewrite (setArg_bool _ _ _ H1).
        rewrite (Hv v' (or_introl eq_refl)), Hco. reflexivity.
      * destruct Hin as [[Hin|Hin]|Hin]; [contradiction|left; exact Hin|].
        right. rewrite <- Hin. apply (setArg_frame fl _ _ _ _ _ H1).
        apply Hw; [left; reflexivity|exact Hne].
Qed.

End Booleans.

Lemma normalize_bool ks (r : obj) K b :
  r !! K = Some (VPrim (PBool b)) ->
  normalize ks r !! K = Some (VPrim (PBool b)).
Proof.
  intros H. destruct (in_dec string_dec K ks) as [Hin|Hnin].
  - rewrite (normalize_lookup _ _ _ Hin (inherited_proto_own _ _ _ H)),
      (get_lookup _ _ _ H).
    reflexivity.
  - rewrite (normalize_frame _ _ _ Hnin). exact H.
Qed.

(** The flag stage of a parse, and the whole of it. *)
Lemma parse_flags args options r :
  minimist args (fst (buildOptions options)) = Return r ->
  minimistPrettyParse args (Some options) None
  = Return (normalize (snd (buildOptions options)) r).
Proof.
  intros H. unfold minimistPrettyParse, minimist_options.
  destruct (buildOptions options) as [m any]. simpl in *. rewrite H.
  reflexivity.
Qed.

Lemma private_spec fl defaults K k :
  Flag.private fl defaults K = true ->
  In k (okeys (bools fl)) \/ In k (okeys defaults) ->
  k <> K -> ~ In K (Flag.writes fl k).
Proof.
  unfold Flag.private. rewrite forallb_forall. intros H Hk Hne.
  specialize (H k (proj2 (in_app_iff _ _ _) Hk)).
  apply orb_true_iff in H as [H|H].
  - apply String.eqb_eq in H. contradiction.
  - apply negb_true_iff, mem_false in H. exact H.
Qed.

Lemma Forall_app_l {A} (P : A -> Prop) l1 l2 :
  Forall P (l1 ++ l2) -> Forall P l1.
Proof. rewrite Forall_app. intros [H _]. exact H. Qed.

Lemma Forall_app_r {A} (P : A -> Prop) l1 l2 :
  Forall P (l1 ++ l2) -> Forall P l2.
Proof. rewrite Forall_app. intros [_ H]. exact H. Qed.

(** *** The negated flag at the level of the tables *)

Section Negation.

Variable opts : MinimistOpts.
Hypothesis Hok : schema_ok opts = true.

Local Abbreviation fl := (build_flags opts).
Local Abbreviation defaults := (m_default opts).

Variable foo : string.
Hypothesis Hbool : has foo (bools fl) = true.
Hypothesis Hdef : oget foo defaults = Some (PBool true).
Hypothesis Hpriv : Flag.private fl defaults foo = true.

Lemma foo_not_positional : foo <> "_".
Proof. apply ok_key_positional, (bools_ok opts Hok), Hbool. Qed.

Lemma presets_foo argv0 :
  setArgs fl (presets opts) {["_" := VArr []]} = Return argv0 ->
  argv0 !! foo = Some vtrue.
Proof.
  intros H. apply (setArgs_bool fl foo Hbool (PBool true) _ _ _ H).
  - reflexivity.
  - intros v' Hv'. unfold presets in Hv'. apply in_map_iff in Hv' as (k & E & _).
    unfold preset in E. injection E as -> <-. rewrite Hdef. reflexivity.
  - intros k Hk Hne. apply (private_spec _ _ _ _ Hpriv); [|exact Hne].
    left. unfold presets in Hk. rewrite map_map in Hk. simpl in Hk.
    rewrite map_id in Hk. exact Hk.
  - left. unfold presets. rewrite map_map. simpl. rewrite map_id.
    apply okeys_In. apply has_true in Hbool as [v Hv].
    apply (oget_In _ _ _ Hv).
Qed.

Lemma defaults_foo argv1 argv2 b :
  apply_defaults fl defaults (okeys defaults) argv1 = Return argv2 ->
  argv1 !! foo = Some (VPrim (PBool b)) ->
  argv2 !! foo = Some (VPrim (PBool b)).
Proof.
  intros H Hv. rewrite <- Hv.
  apply (apply_defaults_frame fl defaults _ _ _ _ H).
  - intros k Hk Hne. apply (private_spec _ _ _ _ Hpriv); [right; exact Hk|exact Hne].
  - left. rewrite Hv. eauto.
Qed.

(** Absent from the command line, [foo] is [true]. *)
Lemma absent_true args :
  Forall (fun arg => Flag.readable fl arg = true) args ->
  Forall (fun arg => Flag.silent fl foo arg = true) args ->
  exists r, minimist args opts = Return r /\ r !! foo = Some vtrue.
Proof.
  intros Hk Hs.
  destruct (minimist_stages opts Hok args Hk)
    as (argv0 & argv1 & argv2 & r & H0 & _ & H1 & H2 & H3 & Hr).
  exists r. split; [exact Hr|].
  rewrite (push_all_frame _ _ _ _ H3 foo_not_positional).
  apply (defaults_foo _ _ true H2).
  rewrite (loop_frame fl foo _ _ _ foo_not_positional
             (before_dashes_sub _ _ Hs) H1).
  apply presets_foo. exact H0.
Qed.

(** [--no-foo] makes it [false]. *)
Lemma negated_false pre post :
  Flag.name foo = true -> ~ In "--" pre ->
  Forall (fun arg => Flag.readable fl arg = true) (pre ++ post) ->
  Forall (fun arg => Flag.silent fl foo arg = true) (pre ++ post) ->
  exists r, minimist (pre ++ ("--no-" +:+ foo) :: post) opts = Return r
            /\ r !! foo = Some vfalse.
Proof.
  intros Hname Hpre Hk Hs.
  assert (Hknown : Forall (fun arg => Flag.readable fl arg = true)
                     (pre ++ ("--no-" +:+ foo) :: post)).
  { apply Forall_app. split; [apply (Forall_app_l _ _ _ Hk)|].
    constructor; [|apply (Forall_app_r _ _ _ Hk)].
    apply (known_readable opts Hok).
    unfold Flag.known. rewrite (classify_no fl foo None Hname). simpl.
    unfold Flag.declared. rewrite Hbool, orb_true_r. reflexivity. }
  destruct (minimist_stages opts Hok _ Hknown)
    as (argv0 & argv1 & argv2 & r & H0 & _ & H1 & H2 & H3 & Hr).
  exists r. split; [exact Hr|].
  rewrite (push_all_frame _ _ _ _ H3 foo_not_positional).
  apply (defaults_foo _ _ false H2).
  rewrite (before_dashes_app _ _ Hpre) in H1. cbn [before_dashes] in H1.
  assert (Hnd : String.eqb ("--no-" +:+ foo) "--" = false) by reflexivity.
  rewrite Hnd in H1.
  rewrite (loop_app fl _ _ _ (flag_like_no foo)) in H1.
  apply bind_return in H1 as (a1 & Ha1 & H1).
  cbn [loop] in H1. rewrite (classify_no fl foo _ Hname) in H1.
  cbn [setArgs] in H1.
  apply bind_return in H1 as (a2 & Ha2 & H1).
  apply bind_return in Ha2 as (a3 & Ha3 & Ha2). injection Ha2 as <-.
  rewrite (loop_frame fl foo _ _ _ foo_not_positional
             (before_dashes_sub _ _ (Forall_app_r _ _ _ Hs)) H1).
  apply (setArg_bool fl foo Hbool _ _ _ Ha3).
Qed.

End Negation.

(** ** From the schema to the tables *)

Lemma buildOptions_step_boolean st k v :
  m_boolean (fst (buildOptions_step st (k, v)))
  = m_boolean (fst st) ++ (if is_boolean v then [k] else []).
Proof.
  destruct st as [m any]. unfold buildOptions_step, is_boolean.
  cbn [fst].
  set (m4 := if Camel.is_multiword k then _ else _).
  assert (H4 : m_boolean m4 = m_boolean m).
  { subst m4.
    repeat match goal with
           | |- context [match ?x with _ => _ end] => destruct x
           end; reflexivity. }
  destruct (str_truthy (opt_type v) || default_truthy (opt_default v)).
  - destruct (bool_decide (declared_type v = Some "boolean")); cbn [fst].
    + unfold push_boolean. cbn [m_boolean]. rewrite H4. reflexivity.
    + unfold push_string. cbn [m_boolean]. rewrite H4, app_nil_r. reflexivity.
  - cbn [fst]. unfold push_boolean. cbn [m_boolean]. rewrite H4. reflexivity.
Qed.

Lemma buildOptions_fold_boolean k v l : forall st,
  In (k, v) l -> is_boolean v = true ->
  In k (m_boolean (fst (foldl buildOptions_step st l))).
Proof.
  assert (Hmono : forall l st k0,
             In k0 (m_boolean (fst st)) ->
             In k0 (m_boolean (fst (foldl buildOptions_step st l)))).
  { clear. induction l as [|[k v] l IH]; intros st k0 H; simpl; [exact H|].
    apply IH. rewrite buildOptions_step_boolean. apply in_app_iff. left.
    exact H. }
  induction l as [|[k0 v0] l IH]; intros st Hin Hb; [destruct Hin|].
  simpl. destruct Hin as [[= -> ->]|Hin].
  - apply Hmono. rewrite buildOptions_step_boolean, Hb.
    apply in_app_iff. right. left. reflexivity.
  - apply IH; assumption.
Qed.

(** A boolean entry of the schema is a boolean flag of minimist. *)
Lemma boolean_entry options k v :
  In (k, v) options -> is_boolean v = true ->
  In k (m_boolean (tables options)).
Proof. apply buildOptions_fold_boolean. Qed.

Lemma boolean_flag options k v :
  schema_ok (tables options) = true ->
  In (k, v) options -> is_boolean v = true -> k <> "" ->
  has k (bools (flags_of options)) = true.
Proof.
  intros Hok Hin Hb Hne. unfold flags_of, build_flags. cbn [bools].
  pose proof (boolean_entry _ _ _ Hin Hb) as Hk.
  apply has_mark; [exact Hk|exact Hne|].
  apply ok_key_proto, (schema_key_ok _ Hok). unfold schema_keys.
  apply in_app_iff. left. exact Hk.
Qed.

Lemma NoDup_fst_unique {A} (l : list (string * A)) k v v' :
  NoDup (map fst l) -> In (k, v) l -> In (k, v') l -> v = v'.
Proof.
  induction l as [|[k0 v0] l IH]; intros Hnd H1 H2; [destruct H1|].
  simpl in Hnd. apply NoDup_cons in Hnd as [Hnot Hnd].
  assert (Hfst : forall w, In (k0, w) l -> False).
  { intros w Hw. apply Hnot. apply list_elem_of_In.
    change k0 with (fst (k0, w)). apply in_map. exact Hw. }
  destruct H1 as [H1|H1], H2 as [H2|H2].
  - congruence.
  - inversion H1; subst. exfalso. apply (Hfst _ H2).
  - inversion H2; subst. exfalso. apply (Hfst _ H1).
  - apply IH; assumption.
Qed.

(** A boolean entry with a truthy default has the default [true]. *)
Lemma boolean_default v :
  is_boolean v = true ->
  default_truthy (opt_default v) = false \/ opt_default v = Some (PBool true).
Proof.
  unfold is_boolean, declared_type, default_truthy.
  destruct (opt_default v) as [d|]; [|left; reflexivity].
  destruct (prim_truthy d) eqn:Ed; [|left; reflexivity].
  rewrite orb_true_r. intros H. apply bool_decide_eq_true in H.
  right. destruct d as [b|s|lit]; try discriminate.
  simpl in Ed. subst b. reflexivity.
Qed.

(** Right after an entry whose key holds [no-], the key without it has the
    default [true]. *)
Lemma negation_step_default pre k v :
  Str.includes "no-" k = true ->
  Str.replace_first "no-" "" k <> "__proto__" ->
  oget (Str.replace_first "no-" "" k)
       (m_default (fst (buildOptions (pre ++ [(k, v)]))))
  = Some (PBool true).
Proof.
  intros Hin Hp. rewrite buildOptions_snoc, buildOptions_step_default.
  unfold step_default. simpl. rewrite Hin. apply oget_oset_eq. exact Hp.
Qed.

(** The negated flag of the schema gives its option the default [true]. *)
Lemma negated_default options foo vf vn :
  NoDup (map fst options) ->
  In (foo, vf) options -> is_boolean vf = true ->
  In ("no-" +:+ foo, vn) options ->
  foo <> "__proto__" ->
  oget foo (m_default (tables options)) = Some (PBool true).
Proof.
  intros Hnd Hf Hb Hn Hp.
  destruct (in_split _ _ Hn) as (pre & post & E). unfold tables. rewrite E.
  replace (pre ++ ("no-" +:+ foo, vn) :: post)
    with ((pre ++ [("no-" +:+ foo, vn)]) ++ post)
    by (rewrite <- app_assoc; reflexivity).
  rewrite buildOptions_app. apply buildOptions_default_kept.
  - exact Hp.
  - apply (negation_step_default pre ("no-" +:+ foo) vn eq_refl Hp).
  - intros [k v] He Hk. simpl in Hk. subst k.
    assert (Ev : v = vf).
    { apply (NoDup_fst_unique _ foo _ _ Hnd); [|exact Hf].
      rewrite E. apply in_app_iff. right. right. exact He. }
    subst v. apply (boolean_default vf Hb).
Qed.

Lemma name_nonempty k : Flag.name k = true -> k <> "".
Proof. intros H ->. discriminate. Qed.

(** What a template binds does not reach a name it does not bind. *)
Lemma parse_commands_field args options commands K r :
  unbound commands K ->
  minimistPrettyParse args options (Some commands) = Return r ->
  r !! K = field K (minimistPrettyParse args options None).
Proof.
  intros Hu H. rewrite parse_split in H.
  apply bind_return in H as (r0 & H0 & H). rewrite H0. simpl.
  apply (parseTemplates_frame _ _ _ _ H Hu).
Qed.

(** ** Options that take a value *)

Lemma classify_plain fl arg next :
  dashed arg = false -> classify fl arg next = Positional.
Proof.
  destruct arg as [|c arg]; [reflexivity|].
  destruct c as [[] [] [] [] [] [] [] []]; intros H;
    try reflexivity; discriminate H.
Qed.

Lemma readable_plain fl arg :
  dashed arg = false -> Flag.readable fl arg = true.
Proof.
  intros H. unfold Flag.readable. rewrite (classify_plain _ _ _ H).
  reflexivity.
Qed.

(** [--key=value], read as a flag in one token. *)
Lemma take_while_eq k v :
  Str.all Str.is_dot k = true ->
  Str.take_while Str.is_dot (k +:+ String "=" v)
  = k +:+ String "=" (Str.take_while Str.is_dot v).
Proof.
  induction k as [|c k IH]; intros H; [reflexivity|].
  simpl in H. apply andb_true_iff in H as [Hc Hk].
  simpl. rewrite Hc, (IH Hk). reflexivity.
Qed.

Lemma any_eq_app k v : Str.any is_eq (k +:+ String "=" v) = true.
Proof.
  induction k as [|c k IH]; [reflexivity|].
  simpl. rewrite IH. apply orb_true_r.
Qed.

Lemma key_of_eq k v :
  Str.any is_eq k = false ->
  Str.take_while not_eq (k +:+ String "=" v) = k
  /\ Str.drop_while not_eq (k +:+ String "=" v) = String "=" v.
Proof.
  induction k as [|c k IH]; intros H; [split; reflexivity|].
  simpl in H. apply orb_false_iff in H as [Hc Hk].
  destruct (IH Hk) as [E1 E2].
  simpl. unfold not_eq at 1 3. rewrite Hc. cbn [negb]. rewrite E1, E2.
  split; reflexivity.
Qed.

Lemma classify_long_eq fl k v next :
  Flag.name k = true -> has k (bools fl) = false ->
  classify fl ("--" +:+ (k +:+ String "=" v)) next
  = Sets [(k, PStr v)] false.
Proof.
  intros H Hnb.
  destruct (name_parts k H) as (c & t & E & _ & Hd & He & _).
  unfold classify, long_eq.
  change (Str.drop 2 ("--" +:+ (k +:+ String "=" v)))
    with (k +:+ String "=" v).
  change (Str.starts_with "--" ("--" +:+ (k +:+ String "=" v))) with true.
  rewrite (take_while_eq k v Hd).
  destruct (key_of_eq k v He) as [-> ->].
  assert (Hany : match k +:+ String "=" (Str.take_while Str.is_dot v) with
                 | String _ s => Str.any is_eq s
                 | EmptyString => false
                 end = true).
  { rewrite E. simpl. apply any_eq_app. }
  rewrite Hany. cbn [andb Str.drop].
  rewrite E at 1. cbn [Str.is_empty]. rewrite Hnb. reflexivity.
Qed.

Lemma flag_like_long_eq k v :
  Flag.name k = true -> flag_like ("--" +:+ (k +:+ String "=" v)) = true.
Proof.
  intros H. destruct (name_parts k H) as (c & t & -> & Hc & _).
  simpl. exact Hc.
Qed.

Section Valued.

Variable opts : MinimistOpts.
Hypothesis Hok : schema_ok opts = true.

Local Abbreviation fl := (build_flags opts).
Local Abbreviation defaults := (m_default opts).

Variable k : string.
Hypothesis Hval : Flag.valued fl k = true.
Hypothesis Hpriv : Flag.private fl defaults k = true.

Lemma valued_parts :
  has k (strings fl) = true /\ has k (bools fl) = false
  /\ alias_not_boolean fl k = true
  /\ ~ In k (default [] (oget k (aliases fl))).
Proof.
  unfold Flag.valued in Hval.
  apply andb_true_iff in Hval as [H H4].
  apply andb_true_iff in H as [H H3].
  apply andb_true_iff in H as [H1 H2].
  repeat split; try assumption.
  - apply negb_true_iff. exact H2.
  - apply mem_false, negb_true_iff. exact H4.
Qed.

Lemma valued_ok : ok_key k = true.
Proof. apply (strings_ok opts Hok), valued_parts. Qed.

Lemma valued_not_positional : k <> "_".
Proof. apply ok_key_positional, valued_ok. Qed.

Lemma valued_declared : Flag.declared fl k = true.
Proof.
  unfold Flag.declared. destruct valued_parts as (-> & _). reflexivity.
Qed.

Lemma valued_readable :
  Flag.name k = true -> Flag.readable fl ("--" +:+ k) = true.
Proof.
  intros Hn. apply (known_readable opts Hok).
  unfold Flag.known. rewrite (classify_long fl k None Hn).
  simpl. rewrite valued_declared. reflexivity.
Qed.

(** The bools that are preset leave a valued option unset. *)
Lemma presets_valued argv0 :
  setArgs fl (presets opts) {["_" := VArr []]} = Return argv0 ->
  argv0 !! k = None.
Proof.
  intros H. rewrite (setArgs_frame fl _ _ _ k H).
  - apply lookup_singleton_ne. intros E. apply valued_not_positional.
    symmetry. exact E.
  - intros b Hb. apply (private_spec _ _ _ _ Hpriv).
    + left. unfold presets in Hb. rewrite map_map in Hb. simpl in Hb.
      rewrite map_id in Hb. exact Hb.
    + intros ->. apply (preset_keys opts) in Hb.
      destruct valued_parts as (_ & Hnb & _). congruence.
Qed.

Lemma defaults_valued argv1 argv2 :
  apply_defaults fl defaults (okeys defaults) argv1 = Return argv2 ->
  is_Some (argv1 !! k) \/ oget k defaults = None ->
  argv2 !! k = argv1 !! k.
Proof.
  intros H Hv.
  apply (apply_defaults_frame fl defaults _ _ _ _ H).
  - intros d Hd Hne.
    apply (private_spec _ _ _ _ Hpriv); [right; exact Hd|exact Hne].
  - destruct Hv as [Hv|Hv]; [left; exact Hv|right].
    intros Hin. apply okeys_In, In_oget in Hin as [v Hv']. congruence.
Qed.

(** Absent from the command line, the option stays unset. *)
Lemma absent_unset args :
  oget k defaults = None ->
  Forall (fun arg => Flag.readable fl arg = true) args ->
  Forall (fun arg => Flag.silent fl k arg = true) args ->
  exists r, minimist args opts = Return r /\ r !! k = None.
Proof.
  intros Hnd Hk Hs.
  destruct (minimist_stages opts Hok args Hk)
    as (argv0 & argv1 & argv2 & r & H0 & _ & H1 & H2 & H3 & Hr).
  exists r. split; [exact Hr|].
  rewrite (push_all_frame _ _ _ _ H3 valued_not_positional).
  rewrite (defaults_valued _ _ H2 (or_intror Hnd)).
  rewrite (loop_frame fl k _ _ _ valued_not_positional
             (before_dashes_sub _ _ Hs) H1).
  apply presets_valued. exact H0.
Qed.

Lemma given_value value pre post :
  Flag.name k = true -> ~ In "--" pre ->
  match value with
  | Some v => dashed v = false
  | None => Flag.no_value post = true
  end ->
  Forall (fun arg => Flag.readable fl arg = true) (pre ++ post) ->
  Forall (fun arg => Flag.silent fl k arg = true) (pre ++ post) ->
  exists r, minimist (pre ++ Flag.given k value post) opts = Return r
            /\ r !! k = Some (vstr (default "" value)).
Proof.
  intros Hname Hpre Hvalue Hk Hs.
  destruct valued_parts as (Hstr & Hnb & Hanb & Hself).
  assert (Hknown : Forall (fun arg => Flag.readable fl arg = true)
                     (pre ++ Flag.given k value post)).
  { apply Forall_app. split; [apply (Forall_app_l _ _ _ Hk)|].
    pose proof (Forall_app_r _ _ _ Hk) as Hpost.
    destruct value as [v|]; simpl.
    - constructor; [apply (valued_readable Hname)|].
      constructor; [apply readable_plain; exact Hvalue|exact Hpost].
    - constructor; [apply (valued_readable Hname)|exact Hpost]. }
  destruct (minimist_stages opts Hok _ Hknown)
    as (argv0 & argv1 & argv2 & r & H0 & _ & H1 & H2 & H3 & Hr).
  exists r. split; [exact Hr|].
  rewrite (push_all_frame _ _ _ _ H3 valued_not_positional).
  assert (Hflag : String.eqb ("--" +:+ k) "--" = false).
  { destruct (name_parts k Hname) as (c & t & -> & _). reflexivity. }
  assert (Hgiven : Flag.given k value post
                   = ("--" +:+ k) :: match value with
                                     | Some v => v :: post
                                     | None => post
                                     end)
    by (destruct value; reflexivity).
  rewrite Hgiven, (before_dashes_app _ _ Hpre) in H1.
  cbn [before_dashes] in H1. rewrite Hflag in H1.
  rewrite (loop_app fl _ _ _ (flag_like_long k Hname)) in H1.
  apply bind_return in H1 as (a1 & Ha1 & H1).
  assert (Hk1 : a1 !! k = None).
  { rewrite (loop_frame fl k _ _ _ valued_not_positional
               (Forall_app_l _ _ _ Hs) Ha1).
    apply presets_valued. exact H0. }
  cbn [loop] in H1. rewrite (classify_long fl k _ Hname) in H1.
  pose proof (Forall_app_r _ _ _ Hs) as Hspost.
  assert (Hset : forall s a3,
             setArg fl k (PStr s) a1 = Return a3 ->
             a3 !! k = Some (vstr s)).
  { intros s a3 Ha3. rewrite (setArg_self fl _ _ _ _ Ha3 Hself), Hk1.
    unfold coerce. rewrite Hstr. reflexivity. }
  enough (Hend : exists a3 rest,
             a3 !! k = Some (vstr (default "" value))
             /\ Forall (fun arg => Flag.silent fl k arg = true) rest
             /\ loop fl rest a3 = Return argv1).
  { destruct Hend as (a3 & rest & Hv & Hsr & Hloop).
    rewrite (defaults_valued _ _ H2).
    - rewrite (loop_frame fl k _ _ _ valued_not_positional Hsr Hloop).
      exact Hv.
    - left. rewrite (loop_frame fl k _ _ _ valued_not_positional Hsr Hloop).
      rewrite Hv. eauto. }
  destruct value as [v|].
  - (* [--k v]: the value is consumed *)
    change (dashed v = false) in Hvalue.
    assert (Hv : String.eqb v "--" = false).
    { destruct (String.eqb_spec v "--") as [->|]; [discriminate|reflexivity]. }
    cbn [before_dashes] in H1. rewrite Hv in H1. cbn [head] in H1.
    rewrite Hvalue, Hnb, Hanb in H1. cbn [negb andb setArgs] in H1.
    apply bind_return in H1 as (a2 & Ha2 & H1).
    apply bind_return in Ha2 as (a3 & Ha3 & Ha2). injection Ha2 as <-.
    exists a3, (before_dashes post). repeat split.
    + apply (Hset _ _ Ha3).
    + apply before_dashes_sub. exact Hspost.
    + exact H1.
  - (* [--k] with nothing to consume *)
    assert (Hsets : classify fl ("--" +:+ k) (head (before_dashes post))
                    = Sets [(k, bare fl k)] false).
    { rewrite (classify_long fl k _ Hname).
      destruct post as [|n post]; [reflexivity|].
      change (dashed n = true) in Hvalue. cbn [before_dashes].
      destruct (String.eqb n "--"); [reflexivity|]. cbn [head].
      rewrite Hvalue, (not_bool_word_dashed _ Hvalue). reflexivity. }
    rewrite <- (classify_long fl k _ Hname), Hsets in H1.
    cbn [setArgs] in H1.
    apply bind_return in H1 as (a2 & Ha2 & H1).
    apply bind_return in Ha2 as (a3 & Ha3 & Ha2). injection Ha2 as <-.
    exists a3, (before_dashes post). repeat split.
    + unfold bare in Ha3. rewrite Hstr in Ha3. apply (Hset _ _ Ha3).
    + apply before_dashes_sub. exact Hspost.
    + exact H1.
Qed.

Lemma valued_eq_readable v :
  Flag.name k = true ->
  Flag.readable fl ("--" +:+ (k +:+ String "=" v)) = true.
Proof.
  intros Hn. destruct valued_parts as (_ & Hnb & _).
  apply (known_readable opts Hok).
  unfold Flag.known. rewrite (classify_long_eq fl k v None Hn Hnb).
  simpl. rewrite valued_declared. reflexivity.
Qed.

(** [--k=v] gives [k] the value [v], whatever [v] is and whatever
    follows. *)
Lemma given_eq v pre post :
  Flag.name k = true -> ~ In "--" pre ->
  Forall (fun arg => Flag.readable fl arg = true) (pre ++ post) ->
  Forall (fun arg => Flag.silent fl k arg = true) (pre ++ post) ->
  exists r,
    minimist (pre ++ ("--" +:+ (k +:+ String "=" v)) :: post) opts = Return r
    /\ r !! k = Some (vstr v).
Proof.
  intros Hname Hpre Hk Hs.
  destruct valued_parts as (Hstr & Hnb & Hanb & Hself).
  assert (Hknown : Forall (fun arg => Flag.readable fl arg = true)
                     (pre ++ ("--" +:+ (k +:+ String "=" v)) :: post)).
  { apply Forall_app. split; [apply (Forall_app_l _ _ _ Hk)|].
    constructor; [apply (valued_eq_readable v Hname)|].
    apply (Forall_app_r _ _ _ Hk). }
  destruct (minimist_stages opts Hok _ Hknown)
    as (argv0 & argv1 & argv2 & r & H0 & _ & H1 & H2 & H3 & Hr).
  exists r. split; [exact Hr|].
  rewrite (push_all_frame _ _ _ _ H3 valued_not_positional).
  assert (Hflag : String.eqb ("--" +:+ (k +:+ String "=" v)) "--" = false).
  { destruct (name_parts k Hname) as (c & t & -> & _). reflexivity. }
  rewrite (before_dashes_app _ _ Hpre) in H1.
  cbn [before_dashes] in H1. rewrite Hflag in H1.
  rewrite (loop_app fl _ _ _ (flag_like_long_eq k v Hname)) in H1.
  apply bind_return in H1 as (a1 & Ha1 & H1).
  assert (Hk1 : a1 !! k = None).
  { rewrite (loop_frame fl k _ _ _ valued_not_positional
               (Forall_app_l _ _ _ Hs) Ha1).
    apply presets_valued. exact H0. }
  cbn [loop] in H1. rewrite (classify_long_eq fl k v _ Hname Hnb) in H1.
  cbn [setArgs] in H1.
  apply bind_return in H1 as (a2 & Ha2 & H1).
  apply bind_return in Ha2 as (a3 & Ha3 & Ha2). injection Ha2 as <-.
  assert (Hv : a3 !! k = Some (vstr v)).
  { rewrite (setArg_self fl _ _ _ _ Ha3 Hself), Hk1.
    unfold coerce. rewrite Hstr. reflexivity. }
  pose proof (before_dashes_sub _ _ (Forall_app_r _ _ _ Hs)) as Hsr.
  rewrite (defaults_valued _ _ H2).
  - rewrite (loop_frame fl k _ _ _ valued_not_positional Hsr H1). exact Hv.
  - left. rewrite (loop_frame fl k _ _ _ valued_not_positional Hsr H1).
    rewrite Hv. eauto.
Qed.

(** Whatever comes before it, [--k] is read. *)
Lemma valued_last pre :
  Flag.name k = true ->
  Forall (fun arg => Flag.readable fl arg = true) pre ->
  exists r, minimist (pre ++ ["--" +:+ k]) opts = Return r.
Proof.
  intros Hname Hk.
  assert (Hknown : Forall (fun arg => Flag.readable fl arg = true)
                     (pre ++ ["--" +:+ k])).
  { apply Forall_app. split; [exact Hk|].
    constructor; [apply (valued_readable Hname)|constructor]. }
  destruct (minimist_stages opts Hok _ Hknown)
    as (_ & _ & _ & r & _ & _ & _ & _ & _ & Hr).
  exists r. exact Hr.
Qed.

End Valued.

(** ** Options with a default *)

(** Every default [buildOptions] records is truthy. *)
Lemma step_default_truthy d entry :
  (forall k v, oget k d = Some v -> prim_truthy v = true) ->
  forall k v, oget k (step_default d entry) = Some v -> prim_truthy v = true.
Proof.
  intros Hd k v. destruct entry as [key o]. unfold step_default.
  cbn [fst snd].
  assert (H1 : forall k v,
             oget k match opt_default o with
                    | Some p => if prim_truthy p then oset key p d else d
                    | None => d
                    end = Some v -> prim_truthy v = true).
  { intros k' v'. destruct (opt_default o) as [p|]; [|apply Hd].
    destruct (prim_truthy p) eqn:Ep; [|apply Hd].
    intros H. apply oget_oset_cases in H as [[_ ->]|H];
      [exact Ep|apply (Hd _ _ H)]. }
  destruct (Str.includes "no-" key); [|apply H1].
  intros H. apply oget_oset_cases in H as [[_ ->]|H];
    [reflexivity|apply (H1 _ _ H)].
Qed.

Lemma defaults_truthy options k d :
  oget k (m_default (tables options)) = Some d -> prim_truthy d = true.
Proof.
  unfold tables, buildOptions.
  enough (H : forall l st,
             (forall k v, oget k (m_default (fst st)) = Some v ->
                          prim_truthy v = true) ->
             forall k v,
               oget k (m_default (fst (foldl buildOptions_step st l)))
               = Some v -> prim_truthy v = true).
  { apply (H options (no_opts, [])). intros k' v' H'. discriminate H'. }
  induction l as [|e l IH]; intros st Hst; [exact Hst|].
  cbn [foldl]. apply IH. rewrite buildOptions_step_default.
  apply step_default_truthy, Hst.
Qed.

Section Defaulted.

Variable opts : MinimistOpts.
Hypothesis Hok : schema_ok opts = true.

Local Abbreviation fl := (build_flags opts).
Local Abbreviation defaults := (m_default opts).

Variable foo : string.
Variable d : prim.
Hypothesis Hnb : has foo (bools fl) = false.
Hypothesis Hself : ~ In foo (default [] (oget foo (aliases fl))).
Hypothesis Hdef : oget foo defaults = Some d.
Hypothesis Hpriv : Flag.private fl defaults foo = true.

Lemma defaulted_ok : ok_key foo = true.
Proof. apply (default_key_ok opts Hok), (oget_In _ _ _ Hdef). Qed.

Lemma defaulted_not_positional : foo <> "_".
Proof. apply ok_key_positional, defaulted_ok. Qed.

Lemma defaulted_plain : forallb plain_key (Flag.writes fl foo) = true.
Proof.
  apply forallb_forall. intros x Hx. apply ok_key_plain.
  pose proof (writes_ok opts Hok foo defaulted_ok) as Hw.
  rewrite Forall_forall in Hw. apply Hw, list_elem_of_In, Hx.
Qed.

Lemma presets_defaulted argv0 :
  setArgs fl (presets opts) {["_" := VArr []]} = Return argv0 ->
  argv0 !! foo = None.
Proof.
  intros H. rewrite (setArgs_frame fl _ _ _ foo H).
  - apply lookup_singleton_ne. intros E. apply defaulted_not_positional.
    symmetry. exact E.
  - intros b Hb. apply (private_spec _ _ _ _ Hpriv).
    + left. unfold presets in Hb. rewrite map_map in Hb. simpl in Hb.
      rewrite map_id in Hb. exact Hb.
    + intros ->. apply (preset_keys opts) in Hb. congruence.
Qed.

Lemma defaults_kept argv1 argv2 v :
  apply_defaults fl defaults (okeys defaults) argv1 = Return argv2 ->
  argv1 !! foo = Some v -> argv2 !! foo = Some v.
Proof.
  intros H Hv. rewrite <- Hv.
  apply (apply_defaults_frame fl defaults _ _ _ _ H).
  - intros k Hk Hne.
    apply (private_spec _ _ _ _ Hpriv); [right; exact Hk|exact Hne].
  - left. rewrite Hv. eauto.
Qed.

(** The loop over the defaults gives an unset [foo] its default. *)
Lemma defaults_fill keys : forall argv1 argv2,
  (forall k, In k keys -> In k (okeys defaults)) ->
  In foo keys ->
  apply_defaults fl defaults keys argv1 = Return argv2 ->
  argv1 !! foo = None -> argv2 !! foo = Some (VPrim d).
Proof.
  induction keys as [|key keys IH]; intros argv1 argv2 Hsub Hin H Hv;
    [destruct Hin|].
  assert (Hsub' : forall k, In k keys -> In k (okeys defaults))
    by (intros k Hk; apply Hsub; right; exact Hk).
  assert (Hw : forall k, In k keys -> k <> foo -> ~ In foo (Flag.writes fl k)).
  { intros k Hk Hne.
    apply (private_spec _ _ _ _ Hpriv); [right; apply Hsub'; exact Hk|exact Hne]. }
  cbn [apply_defaults] in H. destruct (decide (key = foo)) as [->|Hne].
  - rewrite Hdef, (ok_key_plain _ defaulted_ok), Hv in H.
    apply bind_return in H as (a1 & H1 & H).
    apply bind_return in H as (a2 & H2 & H).
    assert (E : a2 !! foo = Some (VPrim d)).
    { rewrite (setKeys_frame fl _ _ _ _ _ H2 Hself).
      unfold setKey in H1. rewrite (ok_key_plain _ defaulted_ok), Hv in H1.
      injection H1 as <-. apply lookup_insert_eq. }
    rewrite (apply_defaults_frame fl defaults _ _ _ foo H Hw); [exact E|].
    left. rewrite E. eauto.
  - destruct Hin as [E|Hin]; [contradiction|].
    destruct (oget key defaults) as [dk|] eqn:Ek; [|apply (IH _ _ Hsub' Hin H Hv)].
    destruct (plain_key key); [|discriminate].
    destruct (argv1 !! key); [apply (IH _ _ Hsub' Hin H Hv)|].
    apply bind_return in H as (a1 & H1 & H).
    apply bind_return in H as (a2 & H2 & H).
    apply (IH _ _ Hsub' Hin H).
    assert (Hnw : ~ In foo (Flag.writes fl key)).
    { apply (private_spec _ _ _ _ Hpriv); [|exact Hne].
      right. apply Hsub. left. reflexivity. }
    rewrite (setKeys_frame fl _ _ _ _ _ H2)
      by (intros Hi; apply Hnw; right; exact Hi).
    rewrite (setKey_frame fl _ _ _ _ _ H1) by congruence. exact Hv.
Qed.

(** Absent from the command line, [foo] holds its default. *)
Lemma absent_default args :
  Forall (fun arg => Flag.readable fl arg = true) args ->
  Forall (fun arg => Flag.silent fl foo arg = true) args ->
  exists r, minimist args opts = Return r /\ r !! foo = Some (VPrim d).
Proof.
  intros Hk Hs.
  destruct (minimist_stages opts Hok args Hk)
    as (argv0 & argv1 & argv2 & r & H0 & _ & H1 & H2 & H3 & Hr).
  exists r. split; [exact Hr|].
  rewrite (push_all_frame _ _ _ _ H3 defaulted_not_positional).
  apply (defaults_fill _ _ _ (fun k Hk' => Hk') (proj2 (okeys_In _ _)
           (oget_In _ _ _ Hdef)) H2).
  rewrite (loop_frame fl foo _ _ _ defaulted_not_positional
             (before_dashes_sub _ _ Hs) H1).
  apply presets_defaulted. exact H0.
Qed.

(** [--no-foo] makes it [false], whatever the default. *)
Lemma negated_defaulted pre post :
  Flag.name foo = true -> ~ In "--" pre ->
  Forall (fun arg => Flag.readable fl arg = true) (pre ++ post) ->
  Forall (fun arg => Flag.silent fl foo arg = true) (pre ++ post) ->
  exists r, minimist (pre ++ ("--no-" +:+ foo) :: post) opts = Return r
            /\ r !! foo = Some vfalse.
Proof.
  intros Hname Hpre Hk Hs.
  assert (Hknown : Forall (fun arg => Flag.readable fl arg = true)
                     (pre ++ ("--no-" +:+ foo) :: post)).
  { apply Forall_app. split; [apply (Forall_app_l _ _ _ Hk)|].
    constructor; [|apply (Forall_app_r _ _ _ Hk)].
    unfold Flag.readable. rewrite (classify_no fl foo None Hname).
    cbn [map fst forallb]. rewrite defaulted_plain. reflexivity. }
  destruct (minimist_stages opts Hok _ Hknown)
    as (argv0 & argv1 & argv2 & r & H0 & _ & H1 & H2 & H3 & Hr).
  exists r. split; [exact Hr|].
  rewrite (push_all_frame _ _ _ _ H3 defaulted_not_positional).
  apply (defaults_kept _ _ _ H2).
  rewrite (before_dashes_app _ _ Hpre) in H1. cbn [before_dashes] in H1.
  assert (Hnd : String.eqb ("--no-" +:+ foo) "--" = false) by reflexivity.
  rewrite Hnd in H1.
  rewrite (loop_app fl _ _ _ (flag_like_no foo)) in H1.
  apply bind_return in H1 as (a1 & Ha1 & H1).
  cbn [loop] in H1. rewrite (classify_no fl foo _ Hname) in H1.
  cbn [setArgs] in H1.
  apply bind_return in H1 as (a2 & Ha2 & H1).
  apply bind_return in Ha2 as (a3 & Ha3 & Ha2). injection Ha2 as <-.
  rewrite (loop_frame fl foo _ _ _ defaulted_not_positional
             (before_dashes_sub _ _ (Forall_app_r _ _ _ Hs)) H1).
  rewrite (setArg_self fl _ _ _ _ Ha3 Hself).
  assert (Hv : a1 !! foo = None).
  { rewrite (loop_frame fl foo _ _ _ defaulted_not_positional
               (Forall_app_l _ _ _ Hs) Ha1).
    apply presets_defaulted. exact H0. }
  rewrite Hv. reflexivity.
Qed.

End Defaulted.


(** ** A key and its alias *)

Section Alias.

Variable fl : flags.
Variables k a : string.
Hypothesis Hpair : Flag.pair fl k a = true.

Lemma pair_parts :
  oget k (aliases fl) = Some [a] /\ oget a (aliases fl) = Some [k] /\ k <> a.
Proof.
  unfold Flag.pair in Hpair.
  apply andb_true_iff in Hpair as [H Hne].
  apply andb_true_iff in H as [Hk Ha].
  split; [|split].
  - destruct (oget k (aliases fl)) as [[|x [|? ?]]|]; try discriminate.
    apply String.eqb_eq in Hk. subst x. reflexivity.
  - destruct (oget a (aliases fl)) as [[|x [|? ?]]|]; try discriminate.
    apply String.eqb_eq in Ha. subst x. reflexivity.
  - apply String.eqb_neq, negb_true_iff. exact Hne.
Qed.

Lemma setArg_pair x y val argv :
  oget x (aliases fl) = Some [y] -> x <> y ->
  setArg fl x val argv
  = (if plain_key x && plain_key y
     then Return (<[y := stored fl y (coerce fl x val) (argv !! y)]>
                    (<[x := stored fl x (coerce fl x val) (argv !! x)]> argv))
     else Unmodelled).
Proof.
  intros Hx Hne. unfold setArg. rewrite Hx.
  change (default [] (Some [y])) with [y].
  unfold setKeys, setKey.
  destruct (plain_key x); [|reflexivity]. cbn [mbind outcome_bind andb].
  destruct (plain_key y); [|reflexivity]. cbn [mbind outcome_bind].
  rewrite lookup_insert_ne by exact Hne. reflexivity.
Qed.

(** Under either spelling the flag writes the same two properties. *)
Lemma setArg_either val argv :
  coerce fl k val = coerce fl a val ->
  setArg fl k val argv = setArg fl a val argv.
Proof.
  destruct pair_parts as (Hk & Ha & Hne). intros Hc.
  rewrite (setArg_pair k a _ _ Hk Hne).
  rewrite (setArg_pair a k _ _ Ha (not_eq_sym Hne)).
  rewrite Hc, (andb_comm (plain_key a)).
  destruct (plain_key k && plain_key a); [|reflexivity].
  apply f_equal. apply insert_insert_ne. exact (not_eq_sym Hne).
Qed.

(** Two tokens that set [k] and [a] to the same value, and take or leave
    the next token alike, are read alike. *)
Lemma loop_either t u x consume rest argv :
  classify fl t (head rest) = Sets [(k, x)] consume ->
  classify fl u (head rest) = Sets [(a, x)] consume ->
  coerce fl k x = coerce fl a x ->
  loop fl (t :: rest) argv = loop fl (u :: rest) argv.
Proof.
  intros Ht Hu Hc. cbn [loop]. rewrite Ht, Hu. cbn [setArgs].
  rewrite (setArg_either _ _ Hc). reflexivity.
Qed.

End Alias.

Lemma coerce_string fl key val :
  has key (strings fl) = true -> coerce fl key val = val.
Proof. intros H. unfold coerce. rewrite H. destruct val; reflexivity. Qed.

Lemma coerce_bool fl key b : coerce fl key (PBool b) = PBool b.
Proof. reflexivity. Qed.

(** [-a], for an alias of one character. *)
Lemma classify_short fl c next :
  not_dash c = true ->
  classify fl ("-" +:+ Str.char c) next
  = match next with
    | Some n =>
        if negb (Str.is_empty n) && negb (flag_like n)
           && negb (has (Str.char c) (bools fl))
           && alias_not_boolean fl (Str.char c)
        then Sets [(Str.char c, PStr n)] true
        else if is_bool_word n
             then Sets [(Str.char c, PBool (String.eqb n "true"))] true
             else Sets [(Str.char c, bare fl (Str.char c))] false
    | None => Sets [(Str.char c, bare fl (Str.char c))] false
    end.
Proof.
  intros Hc. unfold classify, long_eq, long_after.
  assert (E1 : Str.starts_with "--" ("-" +:+ Str.char c) = false).
  { change (Str.starts_with "--" ("-" +:+ Str.char c))
      with (Ascii.eqb "-" "-" && (Ascii.eqb "-" c && true)).
    rewrite (dash_eqb _ Hc). reflexivity. }
  assert (E2 : Str.starts_with "--no-" ("-" +:+ Str.char c) = false).
  { change (Str.starts_with "--no-" ("-" +:+ Str.char c))
      with (Ascii.eqb "-" "-" && (Ascii.eqb "-" c && false)).
    rewrite (dash_eqb _ Hc). reflexivity. }
  rewrite E1, E2. cbn [andb].
  change (short ("-" +:+ Str.char c)) with (not_dash c). rewrite Hc.
  change (cluster fl (Str.drop 1 ("-" +:+ Str.char c)))
    with (@nil (string * prim), false).
  change (Str.last ("-" +:+ Str.char c)) with (Some c).
  cbv beta iota zeta.
  assert (E3 : String.eqb (Str.char c) "-" = false).
  { apply String.eqb_neq. intros [= ->]. discriminate. }
  rewrite E3. cbn [negb andb app]. reflexivity.
Qed.

Lemma alias_not_boolean_pair fl x y :
  oget x (aliases fl) = Some [y] ->
  alias_not_boolean fl x = negb (has y (bools fl)).
Proof.
  intros Hx. unfold alias_not_boolean. rewrite Hx. simpl.
  rewrite orb_false_r. reflexivity.
Qed.

Lemma flag_like_short c :
  not_dash c = true -> flag_like ("-" +:+ Str.char c) = true.
Proof.
  destruct c as [[] [] [] [] [] [] [] []]; intros H;
    try reflexivity; discriminate H.
Qed.

Lemma plain_not_flag_like v : dashed v = false -> flag_like v = false.
Proof.
  intros Hd. destruct (flag_like v) eqn:E; [|reflexivity].
  apply flag_like_dashed in E. congruence.
Qed.

(** The two spellings of a flag in an argument list, when the tokens
    [--k] and [-a] do the same with what follows them. *)
Lemma minimist_either opts k c pre post x consume :
  Flag.name k = true -> not_dash c = true ->
  Flag.pair (build_flags opts) k (Str.char c) = true ->
  ~ In "--" pre ->
  classify (build_flags opts) ("--" +:+ k) (head (before_dashes post))
  = Sets [(k, x)] consume ->
  classify (build_flags opts) ("-" +:+ Str.char c)
           (head (before_dashes post))
  = Sets [(Str.char c, x)] consume ->
  coerce (build_flags opts) k x = coerce (build_flags opts) (Str.char c) x ->
  minimist (pre ++ ("--" +:+ k) :: post) opts
  = minimist (pre ++ ("-" +:+ Str.char c) :: post) opts.
Proof.
  intros Hname Hc Hpair Hpre Hlong Hshort Hco.
  unfold minimist.
  destruct (forallb plain_key (schema_keys opts)); [|reflexivity].
  cbv zeta.
  destruct (setArgs _ _ {["_" := VArr []]}) as [argv0| |];
    [|reflexivity|reflexivity].
  cbn [mbind outcome_bind].
  assert (Hl : String.eqb ("--" +:+ k) "--" = false).
  { destruct (name_parts k Hname) as (c0 & t & -> & _). reflexivity. }
  assert (Hs : String.eqb ("-" +:+ Str.char c) "--" = false).
  { apply String.eqb_neq. intros [= ->]. discriminate. }
  rewrite !(before_dashes_app _ _ Hpre), !(after_dashes_app _ _ Hpre).
  cbn [before_dashes after_dashes]. rewrite Hl, Hs.
  rewrite (loop_app _ pre _ _ (flag_like_long k Hname)).
  rewrite (loop_app _ pre _ _ (flag_like_short c Hc)).
  destruct (loop _ pre argv0) as [a1| |]; [|reflexivity|reflexivity].
  cbn [mbind outcome_bind].
  rewrite (loop_either _ k (Str.char c) Hpair _ _ _ _ _ a1 Hlong Hshort Hco).
  reflexivity.
Qed.

(** An option that takes a value, with the value after it. *)
Lemma minimist_alias opts k c pre v post :
  Flag.name k = true -> not_dash c = true ->
  Flag.aliased (build_flags opts) k (Str.char c) = true ->
  ~ In "--" pre -> v <> "" -> dashed v = false ->
  minimist (pre ++ ("--" +:+ k) :: v :: post) opts
  = minimist (pre ++ ("-" +:+ Str.char c) :: v :: post) opts.
Proof.
  intros Hname Hc Hal Hpre Hv Hd.
  unfold Flag.aliased in Hal.
  apply andb_true_iff in Hal as [Hal Hba].
  apply andb_true_iff in Hal as [Hal Hbk].
  apply andb_true_iff in Hal as [Hal Hsa].
  apply andb_true_iff in Hal as [Hpair Hsk].
  destruct (pair_parts _ _ _ Hpair) as (Hk & Ha & Hne).
  assert (Hvd : String.eqb v "--" = false).
  { destruct (String.eqb_spec v "--") as [->|]; [discriminate|reflexivity]. }
  assert (He : Str.is_empty v = false)
    by (destruct v; [congruence|reflexivity]).
  apply (minimist_either opts k c pre (v :: post) (PStr v) true
           Hname Hc Hpair Hpre).
  - cbn [before_dashes]. rewrite Hvd. cbn [head].
    rewrite (classify_long _ k _ Hname), Hd.
    rewrite (alias_not_boolean_pair _ k _ Hk), Hbk, Hba. reflexivity.
  - cbn [before_dashes]. rewrite Hvd. cbn [head].
    rewrite (classify_short _ c _ Hc), He, (plain_not_flag_like _ Hd).
    rewrite (alias_not_boolean_pair _ _ k Ha), Hbk, Hba. reflexivity.
  - rewrite (coerce_string _ _ _ Hsk), (coerce_string _ _ _ Hsa).
    reflexivity.
Qed.

(** A boolean option, whatever follows it. *)
Lemma minimist_switch opts k c pre post :
  Flag.name k = true -> not_dash c = true ->
  Flag.switch (build_flags opts) k (Str.char c) = true ->
  ~ In "--" pre ->
  minimist (pre ++ ("--" +:+ k) :: post) opts
  = minimist (pre ++ ("-" +:+ Str.char c) :: post) opts.
Proof.
  intros Hname Hc Hsw Hpre.
  unfold Flag.switch in Hsw.
  apply andb_true_iff in Hsw as [Hsw Hsa].
  apply andb_true_iff in Hsw as [Hsw Hsk].
  apply andb_true_iff in Hsw as [Hpair Hbk].
  apply negb_true_iff in Hsa, Hsk.
  destruct (pair_parts _ _ _ Hpair) as (Hk & Ha & Hne).
  assert (Hlong : forall next,
             classify (build_flags opts) ("--" +:+ k) next
             = match next with
               | Some n =>
                   if is_bool_word n
                   then Sets [(k, PBool (String.eqb n "true"))] true
                   else Sets [(k, PBool true)] false
               | None => Sets [(k, PBool true)] false
               end).
  { intros next. rewrite (classify_long _ k _ Hname).
    unfold bare. rewrite Hsk, Hbk.
    destruct next as [n|]; [|reflexivity].
    rewrite andb_false_r. reflexivity. }
  assert (Hshort : forall next,
             classify (build_flags opts) ("-" +:+ Str.char c) next
             = match next with
               | Some n =>
                   if is_bool_word n
                   then Sets [(Str.char c, PBool (String.eqb n "true"))] true
                   else Sets [(Str.char c, PBool true)] false
               | None => Sets [(Str.char c, PBool true)] false
               end).
  { intros next. rewrite (classify_short _ c _ Hc).
    unfold bare. rewrite Hsa, (alias_not_boolean_pair _ _ k Ha), Hbk.
    destruct next as [n|]; [|reflexivity].
    rewrite andb_false_r. reflexivity. }
  destruct (head (before_dashes post)) as [n|] eqn:Eh.
  - destruct (is_bool_word n) eqn:Eb.
    + apply (minimist_either opts k c pre post
               (PBool (String.eqb n "true")) true Hname Hc Hpair Hpre).
      * rewrite Eh, Hlong, Eb. reflexivity.
      * rewrite Eh, Hshort, Eb. reflexivity.
      * reflexivity.
    + apply (minimist_either opts k c pre post (PBool true) false
               Hname Hc Hpair Hpre).
      * rewrite Eh, Hlong, Eb. reflexivity.
      * rewrite Eh, Hshort, Eb. reflexivity.
      * reflexivity.
  - apply (minimist_either opts k c pre post (PBool true) false
             Hname Hc Hpair Hpre).
    + rewrite Eh, Hlong. reflexivity.
    + rewrite Eh, Hshort. reflexivity.
    + reflexivity.
Qed.

(** A hyphenated key with a declared alias: the camelCase alias takes the
    place of the declared one in the table of minimist, and the two
    spellings set different properties. *)
Lemma hyphenated_alias_displaced :
  field "dhtPort" (minimistPrettyParse ["--dht-port"; "5"] (Some hyphenated) None)
  = Some (vstr "5")
  /\ field "d" (minimistPrettyParse ["--dht-port"; "5"] (Some hyphenated) None)
     = None
  /\ field "dhtPort" (minimistPrettyParse ["-d"; "5"] (Some hyphenated) None)
     = None
  /\ field "d" (minimistPrettyParse ["-d"; "5"] (Some hyphenated) None)
     = Some (VPrim (PNum "5")).
Proof. repeat split; vm_compute; reflexivity. Qed.

(** ** The residual positionals *)

Lemma buildOptions_step_any st entry k :
  (In k (snd st) -> In k (m_string (fst st))) ->
  In k (snd (buildOptions_step st entry)) ->
  In k (m_string (fst (buildOptions_step st entry))).
Proof.
  destruct st as [m any], entry as [key v]. unfold buildOptions_step.
  cbn [fst snd]. intros Hst.
  set (m4 := if Camel.is_multiword key then _ else _).
  assert (H4 : m_string m4 = m_string m).
  { subst m4.
    repeat match goal with
           | |- context [match ?x with _ => _ end] => destruct x
           end; reflexivity. }
  destruct (str_truthy (opt_type v) || default_truthy (opt_default v)).
  - destruct (bool_decide (declared_type v = Some "boolean")); cbn [fst snd].
    + unfold push_boolean. cbn [m_string]. rewrite H4. exact Hst.
    + unfold push_string. cbn [m_string]. rewrite H4, in_app_iff.
      destruct (bool_decide (declared_type v = Some "any")).
      * rewrite in_app_iff. intros [H|H]; [left; apply Hst, H|right; exact H].
      * intros H. left. apply Hst, H.
  - cbn [fst snd]. unfold push_boolean. cbn [m_string]. rewrite H4. exact Hst.
Qed.

(** An option of type [any] is a string flag. *)
Lemma any_of_string options k :
  In k (any_of options) -> In k (m_string (tables options)).
Proof.
  unfold any_of, tables, buildOptions.
  enough (H : forall l st,
             (In k (snd st) -> In k (m_string (fst st))) ->
             In k (snd (foldl buildOptions_step st l)) ->
             In k (m_string (fst (foldl buildOptions_step st l))))
    by (apply H; intros []).
  induction l as [|e l IH]; intros st Hst; simpl; [exact Hst|].
  apply IH. apply buildOptions_step_any. exact Hst.
Qed.

Lemma any_of_not_positional options :
  schema_ok (tables options) = true -> ~ In "_" (any_of options).
Proof.
  intros Hok H. apply any_of_string in H.
  assert (E : ok_key "_" = true).
  { apply (schema_key_ok _ Hok). unfold schema_keys. rewrite !in_app_iff. auto. }
  discriminate.
Qed.

Section Residual.

Variable opts : MinimistOpts.
Hypothesis Hok : schema_ok opts = true.

Local Abbreviation fl := (build_flags opts).
Local Abbreviation defaults := (m_default opts).

Lemma defaults_positional argv1 argv2 l :
  apply_defaults fl defaults (okeys defaults) argv1 = Return argv2 ->
  argv1 !! "_" = Some (VArr l) -> argv2 !! "_" = Some (VArr l).
Proof.
  intros H Hl. rewrite <- Hl.
  apply (apply_defaults_frame fl defaults _ _ _ _ H).
  - intros k Hk _. apply writes_not_positional, (default_writes opts Hok), Hk.
  - left. rewrite Hl. eauto.
Qed.

(** On readable arguments minimist returns an object whose [_] is an
    array. *)
Lemma minimist_array args :
  Forall (fun arg => Flag.readable fl arg = true) args ->
  exists r l, minimist args opts = Return r /\ r !! "_" = Some (VArr l).
Proof.
  intros Hk. destruct (presets_total opts Hok) as (argv0 & H0 & Ha0).
  destruct (loop_total fl (before_dashes args) (bools_not_positional opts Hok)
              (before_dashes_sub _ _ Hk) argv0) as (argv1 & H1 & Ha1);
    [eexists; exact Ha0|].
  destruct (apply_defaults_total fl defaults (okeys defaults) argv1
              (default_writes opts Hok) Ha1) as (argv2 & H2 & Ha2).
  destruct (push_all_total (after_dashes args) argv2 Ha2) as (r & H3 & l & Hl).
  exists r, l. split; [|exact Hl].
  rewrite (minimist_unfold opts Hok), H0. simpl. rewrite H1. simpl.
  rewrite H2. exact H3.
Qed.

Lemma loop_plain args : forall argv l,
  Forall (fun arg => dashed arg = false) args ->
  argv !! "_" = Some (VArr l) ->
  exists argv', loop fl args argv = Return argv'
                /\ argv' !! "_" = Some (VArr (l ++ map (positional fl) args)).
Proof.
  induction args as [|arg args IH]; intros argv l Hp Hl; simpl.
  - exists argv. rewrite app_nil_r. split; [reflexivity|exact Hl].
  - inversion Hp as [|? ? Harg Hargs]; subst.
    rewrite (classify_plain fl arg _ Harg). unfold push at 1. rewrite Hl.
    simpl.
    destruct (IH (<["_" := VArr (l ++ [positional fl arg])]> argv)
                (l ++ [positional fl arg]) Hargs (lookup_insert_eq _ _ _))
      as (argv' & H & Hl').
    exists argv'. split; [exact H|]. rewrite Hl', <- app_assoc. reflexivity.
Qed.

Lemma plain_no_dashes args :
  Forall (fun arg => dashed arg = false) args ->
  before_dashes args = args /\ after_dashes args = [].
Proof.
  induction 1 as [|a args Ha Hargs [IH1 IH2]]; [split; reflexivity|].
  simpl. destruct (String.eqb_spec a "--") as [->|_]; [discriminate|].
  rewrite IH1, IH2. split; reflexivity.
Qed.

(** Arguments that do not start with a dash are the positionals. *)
Lemma minimist_plain args :
  Forall (fun arg => dashed arg = false) args ->
  exists r, minimist args opts = Return r
            /\ r !! "_" = Some (VArr (map (positional fl) args)).
Proof.
  intros Hp. destruct (presets_total opts Hok) as (argv0 & H0 & Ha0).
  destruct (plain_no_dashes args Hp) as (Eb & Ea).
  destruct (loop_plain args argv0 [] Hp Ha0) as (argv1 & H1 & Ha1).
  destruct (apply_defaults_total fl defaults (okeys defaults) argv1
              (default_writes opts Hok)) as (argv2 & H2 & _);
    [eexists; exact Ha1|].
  exists argv2. split.
  - rewrite (minimist_unfold opts Hok), H0, Eb, Ea. simpl. rewrite H1. simpl.
    rewrite H2. reflexivity.
  - apply (defaults_positional _ _ _ H2 Ha1).
Qed.

End Residual.

(** The flags of a readable argument list are read, whatever they are, and
    leave a list of residual positionals. *)
Lemma flags_residual options args :
  schema_ok (tables options) = true -> reads_flags options args ->
  exists l, residual (minimistPrettyParse args (Some options) None) = Some l.
Proof.
  intros Hok Hk. destruct (minimist_array _ Hok args Hk) as (r & l & Hr & Hl).
  exists l. rewrite (parse_flags _ _ _ Hr). simpl.
  rewrite (normalize_frame _ _ _ (any_of_not_positional _ Hok)), Hl.
  reflexivity.
Qed.

(** An argument list without dashes is its own list of residual
    positionals, the numbers among them read as numbers. *)
Lemma plain_residual options args :
  schema_ok (tables options) = true ->
  Forall (fun arg => dashed arg = false) args ->
  residual (minimistPrettyParse args (Some options) None)
  = Some (map (positional (flags_of options)) args).
Proof.
  intros Hok Hp. destruct (minimist_plain _ Hok args Hp) as (r & Hr & Hl).
  rewrite (parse_flags _ _ _ Hr). simpl.
  rewrite (normalize_frame _ _ _ (any_of_not_positional _ Hok)), Hl.
  reflexivity.
Qed.

(** ** Templates of several tokens *)

(** When every template holds a space and no command is named
    ["[object Object]"], a parse whose flags are read ends in the
    [TypeError] of line 2580. *)
Lemma spaced_template_fault
    (argv : list string) (options : option (list (string * OptionSpec)))
    (commands : gmap string CommandSpec) (l : list prim) :
  residual (minimistPrettyParse argv options None) = Some l ->
  commands !! "[object Object]" = None ->
  (forall c spec, commands !! c = Some spec ->
     exists text, template spec = Some text
                  /\ Str.includes " " text = true) ->
  exists message,
    minimistPrettyParse argv options (Some commands)
    = Throw (TypeError message).
Proof.
  intros Hres Hobj Hsp. apply residual_Some in Hres as (r & Hr & Hl).
  rewrite parse_split, Hr.
  change (exists message, parseTemplates commands r = Throw (TypeError message)).
  unfold parseTemplates. rewrite (get_lookup _ _ _ Hl).
  cbn [js_index mbind outcome_bind].
  set (command := match _ with Some s => s | None => "*" end).
  unfold template_of.
  destruct (commands !! command) as [spec|] eqn:Espec; [|eexists; reflexivity].
  destruct (Hsp _ _ Espec) as (text & Et & Hinc).
  cbn [mbind outcome_bind]. rewrite Et. unfold str_truthy.
  rewrite (includes_nonempty " " text ltac:(discriminate) Hinc).
  change (default "" (Some text)) with text. cbn [negb].
  rewrite Hinc, Hobj. eexists; reflexivity.
Qed.

(** * The claims *)

(** C1 (fault of the code).  The claim: for every schema whose templates
    respect the token ordering and every argument list without unknown
    flags, the parse returns a result or a usage error and never raises a
    type error.  The code: when the template of a command holds a space,
    line 2580 reads [commands[commands]], the property named
    ["[object Object]"]; unless the schema has a command of that name,
    every parse ends in a [TypeError], whatever the arguments and their
    flags are. *)
Theorem spaced_template_type_error
    (argv : list string) (options : list (string * OptionSpec))
    (commands : gmap string CommandSpec) :
  schema_ok (tables options) = true ->
  reads_flags options argv ->
  commands !! "[object Object]" = None ->
  (forall c spec, commands !! c = Some spec ->
     exists text, template spec = Some text
                  /\ Str.includes " " text = true) ->
  exists message,
    minimistPrettyParse argv (Some options) (Some commands)
    = Throw (TypeError message).
Proof.
  intros Hok Hk Hobj Hsp. destruct (flags_residual _ _ Hok Hk) as [l Hres].
  apply (spaced_template_fault _ _ _ _ Hres Hobj Hsp).
Qed.

(** The default command [<source> <destination>], two required tokens in
    order, and the arguments [a b]. *)
Lemma spaced_template_type_error_witness :
  exists message,
    minimistPrettyParse ["a"; "b"] (Some options) (Some spaced)
    = Throw (TypeError message).
Proof.
  apply (spaced_template_type_error ["a"; "b"] options spaced).
  - vm_compute. reflexivity.
  - repeat constructor.
  - reflexivity.
  - intros c spec H. unfold spaced in H.
    apply lookup_singleton_Some in H as [<- <-].
    eexists. split; reflexivity.
Defined.

(** C2 as stated fails: with no positional after the command, [files] is
    not bound to the empty sequence, it is not bound at all. *)
Lemma variadic_empty_unbound :
  exists r,
    minimistPrettyParse ["cmd"] None (Some files_command) = Return r
    /\ r !! "files" = None
    /\ r !! "files" <> Some (VArr []).
Proof.
  exists {[ "_" := VArr [PStr "cmd"] ]}.
  split; [vm_compute; reflexivity|].
  split; [reflexivity|discriminate].
Qed.

(** C2 (amended).  For every command whose template is the one optional
    variadic token [[files...]]: when the residual positionals are the
    command name followed by [rest], the parse binds [files] to [rest] if
    [rest] is not empty (so [cmd a b c] gives [files = [a, b, c]]), and
    returns the result of the flags unchanged, with [files] unbound, if it
    is empty. *)
Theorem variadic_capture
    (argv : list string) (options : option (list (string * OptionSpec)))
    (commands : gmap string CommandSpec) (c : string) (rest : list prim) :
  commands !! c = Some (cmd (Some "[files...]")) ->
  residual (minimistPrettyParse argv options None) = Some (PStr c :: rest) ->
  exists r,
    minimistPrettyParse argv options None = Return r
    /\ minimistPrettyParse argv options (Some commands)
       = Return (match rest with
                 | [] => r
                 | _ :: _ => <["files" := VArr rest]> r
                 end).
Proof.
  intros Hc Hres. apply residual_Some in Hres as (r & Hr & Hl).
  exists r. split; [exact Hr|]. rewrite parse_split, Hr.
  change (parseTemplates commands r = Return (match rest with
            | [] => r
            | _ :: _ => <["files" := VArr rest]> r
            end)).
  rewrite (parseTemplates_named _ _ _ "[files...]" _ _ Hc eq_refl eq_refl eq_refl Hl).
  unfold bind_tokens, bind_token.
  replace (Template.matches "[files...]") with true by (vm_compute; reflexivity).
  replace (Template.isArray "[files...]") with true by (vm_compute; reflexivity).
  replace (Template.isRequired "[files...]") with false by (vm_compute; reflexivity).
  replace (Template.name "[files...]") with (Some "files") by (vm_compute; reflexivity).
  replace (Camel.is_multiword "files") with false by (vm_compute; reflexivity).
  cbn [andb orb negb]. rewrite (get_lookup _ _ _ Hl).
  cbn [js_slice Nat.add drop mbind outcome_bind js_length].
  destruct rest as [|p rest]; reflexivity.
Qed.

(** [cmd a b c] with the options of cmd.js. *)
Lemma variadic_capture_witness :
  exists r,
    minimistPrettyParse ["cmd"; "a"; "b"; "c"] (Some options) None = Return r
    /\ minimistPrettyParse ["cmd"; "a"; "b"; "c"] (Some options)
                           (Some files_command)
       = Return (<["files" := VArr [PStr "a"; PStr "b"; PStr "c"]]> r).
Proof.
  apply (variadic_capture ["cmd"; "a"; "b"; "c"] (Some options) files_command
           "cmd" [PStr "a"; PStr "b"; PStr "c"]).
  - reflexivity.
  - vm_compute. reflexivity.
Defined.

(** C3 (fault of the code).  The claim: a command declared with the two
    required tokens [<x> <y>] answers the three positionals [a b c] with a
    usage error for too many arguments, and the single positional [a] with
    a usage error for the missing [y].  The code: whatever follows the
    command name, the parse ends in the [TypeError] of line 2580, before
    the loop that checks the arity is entered ([arity_loop_as_intended]
    shows that loop gives the two errors). *)
Theorem two_required_type_error
    (argv : list string) (options : option (list (string * OptionSpec)))
    (commands : gmap string CommandSpec) (c : string) (rest : list prim) :
  commands !! c = Some (cmd (Some "<x> <y>")) ->
  commands !! "[object Object]" = None ->
  residual (minimistPrettyParse argv options None) = Some (PStr c :: rest) ->
  minimistPrettyParse argv options (Some commands)
  = Throw (TypeError "commands[[object Object]] is undefined").
Proof.
  intros Hc Hobj Hres. apply residual_Some in Hres as (r & Hr & Hl).
  rewrite parse_split, Hr.
  change (parseTemplates commands r
          = Throw (TypeError "commands[[object Object]] is undefined")).
  unfold parseTemplates. rewrite (get_lookup _ _ _ Hl).
  cbn [js_index lookup list_lookup mbind outcome_bind].
  rewrite (selected_command _ _ _ Hc).
  unfold template_of. rewrite Hc, Hobj. reflexivity.
Qed.

(** The command [cmd] with the positionals [a b c] and with [a] alone. *)
Lemma two_required_type_error_witness :
  minimistPrettyParse ["cmd"; "a"; "b"; "c"] None (Some two_required)
  = Throw (TypeError "commands[[object Object]] is undefined")
  /\ minimistPrettyParse ["cmd"; "a"] None (Some two_required)
     = Throw (TypeError "commands[[object Object]] is undefined").
Proof.
  split.
  - apply (two_required_type_error ["cmd"; "a"; "b"; "c"] None two_required
             "cmd" [PStr "a"; PStr "b"; PStr "c"]).
    + reflexivity.
    + reflexivity.
    + vm_compute. reflexivity.
  - apply (two_required_type_error ["cmd"; "a"] None two_required
             "cmd" [PStr "a"]).
    + reflexivity.
    + reflexivity.
    + vm_compute. reflexivity.
Defined.

(** C4 as stated fails: with the tables of cmd.js, [--out] and
    [--chromecast] as last argument give a result, not an error. *)
Lemma valueless_flag_returns :
  field "out" (minimistPrettyParse ["--out"] (Some options)
                                   (Some commands))
  = Some (vstr "")
  /\ field "chromecast"
       (minimistPrettyParse ["--chromecast"] (Some options)
                            (Some commands))
     = Some vtrue.
Proof. split; vm_compute; reflexivity. Qed.

(** C4 (amended).  For every option [k] that takes a value (the types
    string and [any]; for minimist a string flag such that neither [k] nor
    an alias of [k] is boolean and [k] is not its own alias) in a schema of
    ordinary property names (no dot, no member of [Object.prototype], not
    [_]), whose key is one that [--k] spells (not empty, without [=] or
    line terminator, starting neither with [-] nor with [no-]), when [--k]
    is the last element of the argument list the missing value is no
    error:
    - whatever arguments the model reads come before it, the parse of the
      flags returns a result;
    - when moreover the flag stands before any [--], nothing else in the
      list sets [k] (no earlier [--k], no alias of it, no [--no-k]) and no
      boolean or defaulted entry of the schema has [k] as an alias, [k] is
      in that result the empty string, or [true] if [k] is of type [any];
    - a command template that does not bind the name [k] leaves [k] as the
      flags set it. *)
Theorem valueless_flag_is_no_error
    (options : list (string * OptionSpec)) (k : string) :
  Flag.name k = true ->
  schema_ok (tables options) = true ->
  Flag.valued (flags_of options) k = true ->
  (forall pre,
      reads_flags options pre ->
      exists r,
        minimistPrettyParse (pre ++ ["--" +:+ k]) (Some options) None
        = Return r)
  /\ (Flag.private (flags_of options) (m_default (tables options)) k = true ->
      forall pre,
        ~ In "--" pre ->
        reads_flags options pre -> never_sets options k pre ->
        field k (minimistPrettyParse (pre ++ ["--" +:+ k]) (Some options)
                                     None)
        = Some (if Flag.mem k (any_of options) then vtrue else vstr ""))
  /\ (forall args commands r,
      unbound commands k ->
      minimistPrettyParse args (Some options) (Some commands) = Return r ->
      r !! k = field k (minimistPrettyParse args (Some options) None)).
Proof.
  intros Hname Hok Hval. split; [|split].
  - intros pre Hk.
    destruct (valued_last _ Hok k Hval pre Hname Hk) as (r & Hr).
    exists (normalize (snd (buildOptions options)) r).
    apply (parse_flags _ _ _ Hr).
  - intros Hpriv pre Hpre Hk Hs.
    assert (Hk' : reads_flags options (pre ++ []))
      by (rewrite app_nil_r; exact Hk).
    assert (Hs' : never_sets options k (pre ++ []))
      by (rewrite app_nil_r; exact Hs).
    destruct (given_value _ Hok k Hval Hpriv None pre [] Hname Hpre eq_refl
                Hk' Hs') as (r & Hr & Hv).
    change (pre ++ Flag.given k None []) with (pre ++ ["--" +:+ k]) in Hr.
    rewrite (parse_flags _ _ _ Hr). simpl.
    destruct (Flag.mem k (any_of options)) eqn:Em.
    + apply mem_In in Em. unfold any_of in Em.
      rewrite (normalize_lookup _ _ _ Em (inherited_proto_own _ _ _ Hv)),
        (get_lookup _ _ _ Hv).
      reflexivity.
    + apply mem_false in Em. rewrite (normalize_frame _ _ _ Em). exact Hv.
  - intros args commands r. apply parse_commands_field.
Qed.

(** The option [out] of cmd.js as last argument: after a positional, and
    after an earlier [--out]. *)
Lemma valueless_flag_is_no_error_witness :
  (exists r,
     minimistPrettyParse (["--out"; "a"] ++ ["--out"]) (Some options) None
     = Return r)
  /\ field "out" (minimistPrettyParse ["fileA"; "--out"]
                                      (Some options) None)
     = Some (vstr "").
Proof.
  destruct (valueless_flag_is_no_error options "out") as (H0 & H & _).
  - reflexivity.
  - vm_compute. reflexivity.
  - vm_compute. reflexivity.
  - split.
    + apply (H0 ["--out"; "a"]). repeat constructor.
    + apply (H ltac:(vm_compute; reflexivity) ["fileA"]).
      * intros [H'|[]]. discriminate.
      * repeat constructor.
      * repeat constructor.
Defined.

(** C5.  For every schema that declares a boolean option [foo] and the
    negated flag [no-foo]: an argument list in which nothing sets [foo],
    its other flags declared or not, yields [foo = true]; an argument list
    that holds [--no-foo] (before any [--]) and nothing else that sets
    [foo] yields [foo = false]; and a command template that does not bind
    the name [foo] leaves it as the flags set it. *)
Theorem negated_flag_default
    (options : list (string * OptionSpec)) (foo : string)
    (vf vn : OptionSpec) :
  NoDup (map fst options) ->
  In (foo, vf) options -> is_boolean vf = true ->
  In ("no-" +:+ foo, vn) options ->
  Flag.name foo = true ->
  schema_ok (tables options) = true ->
  Flag.private (flags_of options) (m_default (tables options)) foo = true ->
  (forall args,
      reads_flags options args -> never_sets options foo args ->
      field foo (minimistPrettyParse args (Some options) None) = Some vtrue)
  /\ (forall pre post,
      ~ In "--" pre ->
      reads_flags options (pre ++ post) ->
      never_sets options foo (pre ++ post) ->
      field foo (minimistPrettyParse (pre ++ ("--no-" +:+ foo) :: post)
                                     (Some options) None)
      = Some vfalse)
  /\ (forall args commands r,
      unbound commands foo ->
      minimistPrettyParse args (Some options) (Some commands) = Return r ->
      r !! foo = field foo (minimistPrettyParse args (Some options) None)).
Proof.
  intros Hnd Hf Hb Hn Hname Hok Hpriv.
  assert (Hbool : has foo (bools (flags_of options)) = true)
    by (apply (boolean_flag _ _ _ Hok Hf Hb), name_nonempty, Hname).
  assert (Hdef : oget foo (m_default (tables options)) = Some (PBool true)).
  { apply (negated_default _ _ _ _ Hnd Hf Hb Hn).
    apply ok_key_proto, (bools_ok _ Hok), Hbool. }
  split; [|split].
  - intros args Hk Hs.
    destruct (absent_true _ Hok foo Hbool Hdef Hpriv args Hk Hs)
      as (r & Hr & Hv).
    rewrite (parse_flags _ _ _ Hr). simpl. apply normalize_bool. exact Hv.
  - intros pre post Hpre Hk Hs.
    destruct (negated_false _ Hok foo Hbool Hpriv pre post Hname Hpre
                Hk Hs) as (r & Hr & Hv).
    rewrite (parse_flags _ _ _ Hr). simpl. apply normalize_bool. exact Hv.
  - intros args commands r. apply parse_commands_field.
Qed.

(** The schema [{foo, no-foo}] with the arguments [a --bar] and
    [a --no-foo b]. *)
Lemma negated_flag_default_witness :
  field "foo" (minimistPrettyParse ["a"; "--bar"] (Some negatable) None)
  = Some vtrue
  /\ field "foo" (minimistPrettyParse ["a"; "--no-foo"; "b"]
                                      (Some negatable) None)
     = Some vfalse.
Proof.
  assert (Hnd : NoDup (map fst negatable)).
  { apply NoDup_cons. split; [|apply NoDup_singleton].
    intros H. apply list_elem_of_In in H. destruct H as [H|[]]. discriminate. }
  destruct (negated_flag_default negatable "foo" (opt None None None)
              (opt None None None) Hnd)
    as (H1 & H2 & _).
  - left. reflexivity.
  - reflexivity.
  - right. left. reflexivity.
  - reflexivity.
  - vm_compute. reflexivity.
  - vm_compute. reflexivity.
  - split.
    + apply H1.
      * repeat constructor.
      * repeat constructor.
    + apply (H2 ["a"] ["b"]).
      * intros [H|[]]. discriminate.
      * repeat constructor.
      * repeat constructor.
Defined.

(** C6 as stated fails: in the schema that declares [chromecast] of type
    [any] and also [no-chromecast], the key gets the default [true] (lines
    2551-2553), and the flag absent from the argument list yields [true],
    not [false]. *)
Lemma either_absent_is_default :
  In "chromecast" (any_of negated_either)
  /\ field "chromecast"
       (minimistPrettyParse [] (Some negated_either) (Some commands))
     = Some vtrue
  /\ field "chromecast"
       (minimistPrettyParse ["fileA"] (Some negated_either) (Some commands))
     = Some vtrue.
Proof.
  split; [vm_compute; tauto|]. split; vm_compute; reflexivity.
Qed.

(** C6 (amended).  For every option [k] of type [any] (string or boolean;
    for [buildOptions] an entry declared [any] without a truthy default of
    its own) in a schema of ordinary property names (no dot, no member of
    [Object.prototype], not [_]), whose key is one that [--k] spells (not
    empty, without [=] or line terminator, starting neither with [-] nor
    with [no-]), such that neither [k] nor an alias of [k] is boolean, [k]
    is not its own alias and no boolean or defaulted entry of the schema
    has [k] as an alias, and for every argument list the model reads in
    which nothing else sets [k] (no other [--k], no alias of it, no
    [--no-k]):
    - the flag [--k] before any [--] with no value after it (nothing, or a
      token that starts with a dash) yields [k = true];
    - [--k v] before any [--] with a token [v] that does not start with a
      dash yields the string [v], and [true] when [v] is empty;
    - [--k=v] before any [--] yields the string [v], whatever it is, and
      [true] when [v] is empty;
    - an argument list in which nothing sets [k] yields [k = false] when
      the schema gives [k] no default, and otherwise that default (an
      entry [no-k] gives [k] the default [true]);
    - a command template that does not bind the name [k] leaves [k] as the
      flags set it. *)
Theorem either_option_value
    (options : list (string * OptionSpec)) (k : string) :
  In k (any_of options) ->
  Flag.name k = true ->
  schema_ok (tables options) = true ->
  Flag.valued (flags_of options) k = true ->
  Flag.private (flags_of options) (m_default (tables options)) k = true ->
  (forall pre post,
      ~ In "--" pre -> Flag.no_value post = true ->
      reads_flags options (pre ++ post) ->
      never_sets options k (pre ++ post) ->
      field k (minimistPrettyParse (pre ++ ("--" +:+ k) :: post)
                                   (Some options) None)
      = Some vtrue)
  /\ (forall pre v post,
      ~ In "--" pre -> Flag.plain v = true ->
      reads_flags options (pre ++ post) ->
      never_sets options k (pre ++ post) ->
      field k (minimistPrettyParse (pre ++ ("--" +:+ k) :: v :: post)
                                   (Some options) None)
      = Some (if Str.is_empty v then vtrue else vstr v))
  /\ (forall pre v post,
      ~ In "--" pre ->
      reads_flags options (pre ++ post) ->
      never_sets options k (pre ++ post) ->
      field k (minimistPrettyParse
                 (pre ++ ("--" +:+ k +:+ "=" +:+ v) :: post)
                 (Some options) None)
      = Some (if Str.is_empty v then vtrue else vstr v))
  /\ (forall args,
      reads_flags options args -> never_sets options k args ->
      field k (minimistPrettyParse args (Some options) None)
      = Some match oget k (m_default (tables options)) with
             | Some d => VPrim d
             | None => vfalse
             end)
  /\ (forall args commands r,
      unbound commands k ->
      minimistPrettyParse args (Some options) (Some commands) = Return r ->
      r !! k = field k (minimistPrettyParse args (Some options) None)).
Proof.
  intros Hany Hname Hok Hval Hpriv.
  assert (Hproto : k <> "__proto__")
    by (apply ok_key_proto, (valued_ok _ Hok k Hval)).
  assert (Hform : forall v, normal_form (VPrim (PStr v))
                            = if Str.is_empty v then vtrue else vstr v)
    by (intros [|c v]; reflexivity).
  unfold any_of in Hany.
  split; [|split; [|split; [|split]]].
  - intros pre post Hpre Hpost Hk Hs.
    destruct (given_value _ Hok k Hval Hpriv None pre post Hname Hpre Hpost
                Hk Hs) as (r & Hr & Hv).
    change (pre ++ Flag.given k None post)
      with (pre ++ ("--" +:+ k) :: post) in Hr.
    rewrite (parse_flags _ _ _ Hr). simpl.
    rewrite (normalize_lookup _ _ _ Hany (inherited_proto_own _ _ _ Hv)),
      (get_lookup _ _ _ Hv).
    reflexivity.
  - intros pre v post Hpre Hplain Hk Hs.
    assert (Hd : dashed v = false) by (apply negb_true_iff; exact Hplain).
    destruct (given_value _ Hok k Hval Hpriv (Some v) pre post Hname Hpre Hd
                Hk Hs) as (r & Hr & Hv).
    change (pre ++ Flag.given k (Some v) post)
      with (pre ++ ("--" +:+ k) :: v :: post) in Hr.
    rewrite (parse_flags _ _ _ Hr). simpl.
    rewrite (normalize_lookup _ _ _ Hany (inherited_proto_own _ _ _ Hv)),
      (get_lookup _ _ _ Hv).
    f_equal. apply Hform.
  - intros pre v post Hpre Hk Hs.
    destruct (given_eq _ Hok k Hval Hpriv v pre post Hname Hpre Hk Hs)
      as (r & Hr & Hv).
    change ("--" +:+ k +:+ "=" +:+ v) with ("--" +:+ (k +:+ String "=" v)).
    rewrite (parse_flags _ _ _ Hr). simpl.
    rewrite (normalize_lookup _ _ _ Hany (inherited_proto_own _ _ _ Hv)),
      (get_lookup _ _ _ Hv).
    f_equal. apply Hform.
  - intros args Hk Hs.
    destruct (valued_parts _ k Hval) as (_ & Hnb & _ & Hself).
    destruct (oget k (m_default (tables options))) as [d|] eqn:Ed.
    + destruct (absent_default _ Hok k d Hnb Hself Ed Hpriv args Hk Hs)
        as (r & Hr & Hv).
      rewrite (parse_flags _ _ _ Hr). simpl.
      rewrite (normalize_lookup _ _ _ Hany (inherited_proto_own _ _ _ Hv)),
        (get_lookup _ _ _ Hv).
      pose proof (defaults_truthy _ _ _ Ed) as Ht.
      destruct d as [b|[|c s]|lit]; try reflexivity. discriminate Ht.
    + destruct (absent_unset _ Hok k Hval Hpriv args Ed Hk Hs)
        as (r & Hr & Hv).
      rewrite (parse_flags _ _ _ Hr). simpl.
      rewrite (normalize_lookup _ _ _ Hany (not_inherited_proto _ _ Hproto)).
      unfold get. rewrite Hv. reflexivity.
  - intros args commands r. apply parse_commands_field.
Qed.

(** The option [chromecast] of cmd.js, and the one of the schema that
    also declares [no-chromecast]. *)
Lemma either_option_value_witness :
  field "chromecast"
    (minimistPrettyParse ["fileA"; "--chromecast"; "-q"]
                         (Some options) None)
  = Some vtrue
  /\ field "chromecast"
       (minimistPrettyParse ["--chromecast"; "Living Room"; "fileA"]
                            (Some options) None)
     = Some (vstr "Living Room")
  /\ field "chromecast"
       (minimistPrettyParse ["--chromecast"; ""; "fileA"]
                            (Some options) None)
     = Some vtrue
  /\ field "chromecast"
       (minimistPrettyParse ["--chromecast=-tv"; "fileA"]
                            (Some options) None)
     = Some (vstr "-tv")
  /\ field "chromecast"
       (minimistPrettyParse ["fileA"; "-q"] (Some options) None)
     = Some vfalse
  /\ field "chromecast"
       (minimistPrettyParse ["fileA"] (Some negated_either) None)
     = Some vtrue.
Proof.
  destruct (either_option_value options "chromecast")
    as (H1 & H2 & H3 & H4 & _).
  - vm_compute. tauto.
  - reflexivity.
  - vm_compute. reflexivity.
  - vm_compute. reflexivity.
  - vm_compute. reflexivity.
  - destruct (either_option_value negated_either "chromecast")
      as (_ & _ & _ & H5 & _).
    + vm_compute. tauto.
    + reflexivity.
    + vm_compute. reflexivity.
    + vm_compute. reflexivity.
    + vm_compute. reflexivity.
    + split; [|split; [|split; [|split; [|split]]]].
      * apply (H1 ["fileA"] ["-q"]).
        -- intros [H|[]]. discriminate.
        -- reflexivity.
        -- repeat constructor.
        -- repeat constructor.
      * apply (H2 [] "Living Room" ["fileA"]).
        -- intros [].
        -- reflexivity.
        -- repeat constructor.
        -- repeat constructor.
      * apply (H2 [] "" ["fileA"]).
        -- intros [].
        -- reflexivity.
        -- repeat constructor.
        -- repeat constructor.
      * apply (H3 [] "-tv" ["fileA"]).
        -- intros [].
        -- repeat constructor.
        -- repeat constructor.
      * apply H4; repeat constructor.
      * apply H5; repeat constructor.
Defined.




(** C8.  The normalisation of the option map, the post-processing of line
    2537, is idempotent: applied to its own result it changes nothing. *)
Theorem normalize_idempotent (anyTypeOptions : list string) (m : obj) :
  normalize anyTypeOptions (normalize anyTypeOptions m)
  = normalize anyTypeOptions m.
Proof.
  apply normalize_fixed. intros k Hk. apply normalize_settles. exact Hk.
Qed.




(** C10.  For every option key that holds [no-] anywhere, [buildOptions]
    gives the key without the first [no-], a different name, the default
    [true]: this holds right after the entry is read, and still of the
    finished options unless a later entry of that name brings a truthy
    default of its own. *)
Theorem buildOptions_negation_default
    (pre post : list (string * OptionSpec)) (k : string) (v : OptionSpec) :
  Str.includes "no-" k = true ->
  Str.replace_first "no-" "" k <> "__proto__" ->
  let k' := Str.replace_first "no-" "" k in
  k' <> k
  /\ oget k' (m_default (fst (buildOptions (pre ++ [(k, v)]))))
     = Some (PBool true)
  /\ ((forall e, In e post -> fst e = k' ->
         default_truthy (opt_default (snd e)) = false) ->
      oget k' (m_default (fst (buildOptions (pre ++ (k, v) :: post))))
      = Some (PBool true)).
Proof.
  intros Hin Hp k'. subst k'.
  assert (Hstep : oget (Str.replace_first "no-" "" k)
            (m_default (fst (buildOptions (pre ++ [(k, v)]))))
          = Some (PBool true)).
  { rewrite buildOptions_snoc, buildOptions_step_default.
    unfold step_default. simpl. rewrite Hin. apply oget_oset_eq. exact Hp. }
  split; [|split].
  - apply replace_first_differs; [discriminate|exact Hin].
  - exact Hstep.
  - intros Hpost.
    replace (pre ++ (k, v) :: post) with ((pre ++ [(k, v)]) ++ post)
      by (rewrite <- app_assoc; reflexivity).
    rewrite buildOptions_app.
    apply buildOptions_default_kept; [exact Hp|exact Hstep|].
    intros e He Hk. left. apply Hpost; assumption.
Qed.

(** The key [piano-mode] installs a default for [piamode]; in cmd.js,
    [no-quit] installs the default of [quit]. *)
Lemma buildOptions_negation_default_witness :
  oget "piamode"
       (m_default (fst (buildOptions [("piano-mode", opt None None None)])))
  = Some (PBool true)
  /\ oget "quit" (m_default (tables options)) = Some (PBool true).
Proof.
  split.
  - destruct (buildOptions_negation_default [] [] "piano-mode"
                (opt None None None) eq_refl ltac:(discriminate))
      as (_ & H & _).
    exact H.
  - destruct (buildOptions_negation_default (firstn 26 options)
                (skipn 27 options) "no-quit" (opt None None None) eq_refl
                ltac:(discriminate)) as (_ & _ & H).
    apply H. intros e He Hk.
    repeat (destruct He as [<-|He]; [discriminate Hk|]). destruct He.
Defined.

(** * Further properties

    Properties of the parser that the claims leave out, and of the program
    around it. *)

(** ** Templates of one token *)

Lemma parseTemplates_resolved commands (r : obj) l :
  r !! "_" = Some (VArr l) ->
  parseTemplates commands r
  = (t ← template_of commands (resolved commands l);
     if str_truthy t then
       template ←
         (if Str.includes " " (default "" t) then
            t' ← template_of commands "[object Object]";
            match t' with
            | Some text' => Return (Str.split " " text')
            | None => Throw (TypeError "commands[commands].template is undefined")
            end
          else Return [default "" t]);
       bind_tokens (resolved commands l) (preset_of commands l) template 0
                   false r
     else
       if (length_above 1 (Some (length l))
           && bool_decide (is_Some (names_command commands l)))
          || (length_above 0 (Some (length l))
              && negb (bool_decide (is_Some (names_command commands l))))
       then Throw (Error "Was not expecting arguments")
       else Return r).
Proof.
  intros Hl. unfold parseTemplates, resolved, preset_of, names_command.
  rewrite (get_lookup _ _ _ Hl).
  cbn [js_index js_length mbind outcome_bind].
  assert (E : match match l !! 0 with Some p => VPrim p | None => VUndef end with
              | VPrim (PStr s) =>
                  if bool_decide (is_Some (commands !! s)) then Some s else None
              | _ => None
              end
              = match l with
                | PStr s :: _ =>
                    if bool_decide (is_Some (commands !! s)) then Some s else None
                | _ => None
                end).
  { destruct l as [|[b|s|lit] l]; reflexivity. }
  rewrite E.
  destruct (match l with
            | PStr s :: _ =>
                if bool_decide (is_Some (commands !! s)) then Some s else None
            | _ => None
            end) as [s|]; cbn [default];
    destruct (template_of commands _) as [t| |]; cbn [mbind outcome_bind];
    try reflexivity;
    destruct (str_truthy t); try reflexivity.
Qed.

Lemma names_command_named (commands : gmap string CommandSpec) c spec l :
  commands !! c = Some spec ->
  names_command commands (PStr c :: l) = Some c.
Proof.
  intros H. unfold names_command. rewrite (selected_command _ _ _ H).
  reflexivity.
Qed.

Lemma names_command_default commands l :
  names_no_command commands l -> names_command commands l = None.
Proof.
  destruct l as [|[b|s|lit] l]; try reflexivity. simpl.
  intros H. rewrite (unselected_command _ _ H). reflexivity.
Qed.

(** The template of one token against the positionals. *)
Lemma parseTemplates_one_token commands c tok n (r : obj) l :
  one_token commands c tok n -> resolved commands l = c ->
  r !! "_" = Some (VArr l) ->
  parseTemplates commands r
  = bind_tokens c (preset_of commands l) [tok] 0 false r.
Proof.
  intros (spec & Hc & Ht & Hsp & Hm & Hn) Hres Hl.
  rewrite (parseTemplates_resolved _ _ _ Hl), Hres.
  unfold template_of. rewrite Hc. cbn [mbind outcome_bind]. rewrite Ht.
  unfold str_truthy. rewrite (matches_nonempty _ Hm).
  change (default "" (Some tok)) with tok. cbn [negb]. rewrite Hsp.
  reflexivity.
Qed.

Lemma assign_plain n v (r : obj) :
  n <> "__proto__" -> assign n v r = Return (<[n := v]> r).
Proof.
  intros H. unfold assign.
  destruct (String.eqb_spec n "__proto__"); [contradiction|reflexivity].
Qed.

Lemma mirror_returns n (r : obj) :
  (if Camel.is_multiword n
   then assign (Camel.camelCase n) (get n r) r else Return r)
  = Return (mirrored n r).
Proof.
  unfold mirrored. destruct (Camel.is_multiword n) eqn:Em; [|reflexivity].
  apply assign_plain. intros E. exact (multiword_camel_not_proto n Em E).
Qed.

Lemma mirrored_lookup n (r : obj) :
  mirrored n r !! n = r !! n \/ (Camel.camelCase n = n /\ mirrored n r !! n = Some (get n r)).
Proof.
  unfold mirrored. destruct (Camel.is_multiword n); [|left; reflexivity].
  destruct (decide (Camel.camelCase n = n)) as [E|Hne].
  - right. split; [exact E|]. rewrite E. apply lookup_insert_eq.
  - left. apply lookup_insert_ne. exact Hne.
Qed.

Lemma mirrored_own n (r : obj) v :
  r !! n = Some v -> mirrored n r !! n = Some v.
Proof.
  intros H. destruct (mirrored_lookup n r) as [E|[_ E]]; rewrite E.
  - exact H.
  - rewrite (get_lookup _ _ _ H). reflexivity.
Qed.



(** X1.  A command whose template is one required token that is not
    variadic: no positional after the command name, or one that is falsy
    (the number zero, the empty string), gives the error for a missing
    argument; one truthy positional is bound to the name; two or more give
    the error for too many arguments. *)
Theorem single_token_arity
    (argv : list string) (options : option (list (string * OptionSpec)))
    (commands : gmap string CommandSpec) (c tok n : string) (l : list prim) :
  one_token commands c tok n ->
  Template.isArray tok = false -> Template.isRequired tok = true ->
  n <> "__proto__" ->
  residual (minimistPrettyParse argv options None) = Some (PStr c :: l) ->
  match l with
  | [] =>
      minimistPrettyParse argv options (Some commands)
      = Throw (Error (required_argument n c))
  | [x] =>
      if prim_truthy x
      then field n (minimistPrettyParse argv options (Some commands))
           = Some (VPrim x)
      else minimistPrettyParse argv options (Some commands)
           = Throw (Error (required_argument n c))
  | _ :: _ :: _ =>
      minimistPrettyParse argv options (Some commands)
      = Throw (Error (too_many c))
  end.
Proof.
  intros Hone Ha Hreq Hp Hres.
  pose proof Hone as (spec & Hc & Ht & Hsp & Hm & Hn).
  apply residual_Some in Hres as (r & Hr & Hl).
  rewrite parse_split, Hr.
  assert (Hsel : names_command commands (PStr c :: l) = Some c)
    by (apply (names_command_named _ _ _ _ Hc)).
  assert (E : parseTemplates commands r = bind_tokens c 1 [tok] 0 false r).
  { rewrite (parseTemplates_one_token _ c tok n r (PStr c :: l) Hone);
      [|unfold resolved; rewrite Hsel; reflexivity|exact Hl].
    unfold preset_of. rewrite Hsel. reflexivity. }
  change (Return r ≫= parseTemplates commands) with (parseTemplates commands r).
  rewrite E. unfold bind_tokens, bind_token. rewrite Hm, Hn, Ha, Hreq.
  rewrite (get_lookup _ _ _ Hl).
  cbn [andb orb negb js_length js_index Nat.add mbind outcome_bind length].
  destruct l as [|x [|y l]].
  - reflexivity.
  - cbn [length_above length Nat.ltb Nat.leb lookup list_lookup truthy].
    destruct (prim_truthy x); [|reflexivity].
    rewrite (assign_plain _ _ _ Hp). cbn [mbind outcome_bind].
    rewrite mirror_returns. cbn [mbind outcome_bind field].
    apply mirrored_own, lookup_insert_eq.
  - reflexivity.
Qed.

(** X2.  A command whose template is one required variadic token: with no
    positional after the command name the parse throws the error of line
    2596; otherwise the name is bound to all of them, in order. *)
Theorem required_variadic_token
    (argv : list string) (options : option (list (string * OptionSpec)))
    (commands : gmap string CommandSpec) (c tok n : string) (l : list prim) :
  one_token commands c tok n ->
  Template.isArray tok = true -> Template.isRequired tok = true ->
  n <> "__proto__" ->
  residual (minimistPrettyParse argv options None) = Some (PStr c :: l) ->
  match l with
  | [] =>
      minimistPrettyParse argv options (Some commands)
      = Throw (Error (required_variadic n c))
  | _ :: _ =>
      field n (minimistPrettyParse argv options (Some commands))
      = Some (VArr l)
  end.
Proof.
  intros Hone Ha Hreq Hp Hres.
  pose proof Hone as (spec & Hc & Ht & Hsp & Hm & Hn).
  apply residual_Some in Hres as (r & Hr & Hl).
  rewrite parse_split, Hr.
  assert (Hsel : names_command commands (PStr c :: l) = Some c)
    by (apply (names_command_named _ _ _ _ Hc)).
  assert (E : parseTemplates commands r = bind_tokens c 1 [tok] 0 false r).
  { rewrite (parseTemplates_one_token _ c tok n r (PStr c :: l) Hone);
      [|unfold resolved; rewrite Hsel; reflexivity|exact Hl].
    unfold preset_of. rewrite Hsel. reflexivity. }
  change (Return r ≫= parseTemplates commands) with (parseTemplates commands r).
  rewrite E. unfold bind_tokens, bind_token. rewrite Hm, Hn, Ha, Hreq.
  rewrite (get_lookup _ _ _ Hl).
  cbn [andb orb negb js_slice js_length Nat.add drop mbind outcome_bind].
  destruct l as [|x l]; [reflexivity|].
  change (drop 0 (x :: l)) with (x :: l).
  cbn [length length_above Nat.ltb Nat.leb].
  rewrite (assign_plain _ _ _ Hp). cbn [mbind outcome_bind].
  rewrite mirror_returns. cbn [mbind outcome_bind field].
  apply mirrored_own, lookup_insert_eq.
Qed.

(** X3.  A command without template takes no positional: alone, the parse
    returns what the flags gave; followed by a positional, it throws
    [Was not expecting arguments]. *)
Theorem untemplated_command
    (argv : list string) (options : option (list (string * OptionSpec)))
    (commands : gmap string CommandSpec) (c : string) (l : list prim) :
  untemplated commands c ->
  residual (minimistPrettyParse argv options None) = Some (PStr c :: l) ->
  minimistPrettyParse argv options (Some commands)
  = match l with
    | [] => minimistPrettyParse argv options None
    | _ :: _ => Throw (Error "Was not expecting arguments")
    end.
Proof.
  intros (spec & Hc & Ht) Hres.
  apply residual_Some in Hres as (r & Hr & Hl).
  rewrite parse_split, Hr.
  change (Return r ≫= parseTemplates commands) with (parseTemplates commands r).
  rewrite (parseTemplates_resolved _ _ _ Hl).
  assert (Hres : resolved commands (PStr c :: l) = c)
    by (unfold resolved; rewrite (names_command_named _ _ _ _ Hc); reflexivity).
  rewrite Hres, (names_command_named _ _ _ _ Hc).
  unfold template_of. rewrite Hc. cbn [mbind outcome_bind]. rewrite Ht.
  destruct l as [|x l]; reflexivity.
Qed.

(** X4.  Whatever a template of one token does with the positionals, when
    the parse returns and the name it binds is a hyphenated word, the
    camelCase spelling of the name is a property of the result and holds
    what the name holds, [undefined] included. *)
Theorem template_name_mirrored
    (argv : list string) (options : option (list (string * OptionSpec)))
    (commands : gmap string CommandSpec) (tok n : string) (l : list prim)
    (r : obj) :
  one_token commands (resolved commands l) tok n ->
  Camel.is_multiword n = true ->
  residual (minimistPrettyParse argv options None) = Some l ->
  minimistPrettyParse argv options (Some commands) = Return r ->
  r !! Camel.camelCase n = Some (get n r).
Proof.
  intros Hone Hmw Hres Hret.
  pose proof Hone as (spec & Hc & Ht & Hsp & Hm & Hn).
  apply residual_Some in Hres as (r0 & Hr & Hl).
  rewrite parse_split, Hr in Hret.
  change (Return r0 ≫= parseTemplates commands)
    with (parseTemplates commands r0) in Hret.
  rewrite (parseTemplates_one_token _ _ tok n r0 l Hone eq_refl Hl) in Hret.
  unfold bind_tokens, bind_token in Hret. rewrite Hm, Hn in Hret.
  apply bind_return in Hret as ([r2 prev] & H & Hret). injection Hret as <-.
  apply bind_return in H as (r1 & H1 & H).
  rewrite mirror_returns in H. cbn [mbind outcome_bind] in H.
  injection H as <- _. unfold mirrored. rewrite Hmw.
  rewrite lookup_insert_eq. f_equal. unfold get at 2.
  destruct (decide (Camel.camelCase n = n)) as [E|Hne].
  - rewrite E, lookup_insert_eq. reflexivity.
  - rewrite lookup_insert_ne by exact Hne. reflexivity.
Qed.

Lemma bind_throw {A B} (m : outcome A) (f : A -> outcome B) e :
  (m ≫= f) = Throw e ->
  m = Throw e \/ exists a, m = Return a /\ f a = Throw e.
Proof.
  destruct m as [a|e'|]; simpl; intros H; try discriminate.
  - right. eauto.
  - left. injection H as ->. reflexivity.
Qed.

Lemma js_slice_fault n v e : js_slice n v = Throw e -> exists m, e = TypeError m.
Proof. destruct v as [|[]|]; simpl; intros [= <-]; eauto. Qed.

Lemma js_length_fault v e : js_length v = Throw e -> exists m, e = TypeError m.
Proof. destruct v as [|[]|]; simpl; intros [= <-]; eauto. Qed.

Lemma js_index_fault n v e : js_index n v = Throw e -> exists m, e = TypeError m.
Proof. destruct v as [|[]|]; simpl; intros [= <-]; eauto. Qed.

Lemma assign_no_throw n v r e : assign n v r <> Throw e.
Proof. unfold assign. destruct (String.eqb n "__proto__"); discriminate. Qed.

Lemma bind_token_in_order command preset tok index r message :
  bind_token command preset tok index true false r = Throw (Error message) ->
  Str.starts_with "Invalid argument template" message = false.
Proof.
  unfold bind_token.
  destruct (Template.matches tok); [|intros [= <-]; reflexivity].
  destruct (Template.name tok) as [n|]; [|discriminate].
  cbn [andb orb negb]. rewrite andb_false_r. cbn [orb].
  intros H. apply bind_throw in H as [H|(r1 & _ & H)].
  2:{ rewrite mirror_returns in H. discriminate. }
  destruct (Template.isArray tok).
  - apply bind_throw in H as [H|(rest & _ & H)].
    { apply js_slice_fault in H as [m H]. discriminate. }
    apply bind_throw in H as [H|(len & _ & H)].
    { apply js_length_fault in H as [m H]. discriminate. }
    destruct (length_above 0 len); [exfalso; exact (assign_no_throw _ _ _ _ H)|].
    destruct (Template.isRequired tok); [|discriminate].
    injection H as <-. reflexivity.
  - apply bind_throw in H as [H|(len & _ & H)].
    { apply js_length_fault in H as [m H]. discriminate. }
    destruct (length_above (index + preset + 1) len).
    { injection H as <-. reflexivity. }
    apply bind_throw in H as [H|(v & _ & H)].
    { apply js_index_fault in H as [m H]. discriminate. }
    destruct (truthy v); [exfalso; exact (assign_no_throw _ _ _ _ H)|].
    destruct (Template.isRequired tok); [|discriminate].
    injection H as <-. reflexivity.
Qed.

(** minimist throws no error of its own making: what it throws is a fault
    of the runtime. *)
Lemma setKeys_no_throw fl keys val : forall argv e,
  setKeys fl keys val argv <> Throw e.
Proof.
  induction keys as [|x keys IH]; intros argv e; simpl; [discriminate|].
  unfold setKey. destruct (plain_key x); simpl; [apply IH|discriminate].
Qed.

Lemma setArg_no_throw fl key val argv e : setArg fl key val argv <> Throw e.
Proof.
  unfold setArg, setKey. destruct (plain_key key); simpl; [|discriminate].
  apply setKeys_no_throw.
Qed.

Lemma setArgs_no_throw fl sets : forall argv e,
  setArgs fl sets argv <> Throw e.
Proof.
  induction sets as [|[k v] sets IH]; intros argv e; simpl; [discriminate|].
  intros H. apply bind_throw in H as [H|(a & _ & H)].
  - exact (setArg_no_throw _ _ _ _ _ H).
  - exact (IH _ _ H).
Qed.

Lemma push_fault x argv e : push x argv = Throw e -> exists m, e = TypeError m.
Proof.
  unfold push. destruct (argv !! "_") as [[| |]|]; intros [= <-]; eauto.
Qed.

Lemma loop_fault fl args : forall argv e,
  loop fl args argv = Throw e -> exists m, e = TypeError m.
Proof.
  induction args as [|arg rest IH1 IH2] using loop_ind; intros argv e H;
    simpl in H; [discriminate|].
  destruct (classify fl arg (head rest)) as [sets c| |m].
  - apply bind_throw in H as [H|(a & _ & H)].
    { exfalso. exact (setArgs_no_throw _ _ _ _ H). }
    destruct c; [|exact (IH1 _ _ H)].
    destruct rest as [|n rest']; [discriminate|].
    exact (IH2 n rest' eq_refl _ _ H).
  - apply bind_throw in H as [H|(a & _ & H)].
    + exact (push_fault _ _ _ H).
    + exact (IH1 _ _ H).
  - injection H as <-. eauto.
Qed.

Lemma apply_defaults_no_throw fl defaults keys : forall argv e,
  apply_defaults fl defaults keys argv <> Throw e.
Proof.
  induction keys as [|key keys IH]; intros argv e; simpl; [discriminate|].
  destruct (oget key defaults) as [d|]; [|apply IH].
  destruct (plain_key key) eqn:Ep; [|discriminate].
  destruct (argv !! key); [apply IH|].
  unfold setKey. rewrite Ep. cbn [mbind outcome_bind].
  intros H. apply bind_throw in H as [H|(a & _ & H)].
  - exact (setKeys_no_throw _ _ _ _ _ H).
  - exact (IH _ _ H).
Qed.

Lemma push_all_fault xs : forall argv e,
  push_all xs argv = Throw e -> exists m, e = TypeError m.
Proof.
  induction xs as [|x xs IH]; intros argv e H; simpl in H; [discriminate|].
  apply bind_throw in H as [H|(a & _ & H)].
  - exact (push_fault _ _ _ H).
  - exact (IH _ _ H).
Qed.

Lemma minimist_fault args opts e :
  minimist args opts = Throw e -> exists m, e = TypeError m.
Proof.
  unfold minimist. destruct (forallb plain_key (schema_keys opts)); [|discriminate].
  intros H. apply bind_throw in H as [H|(a0 & _ & H)].
  { exfalso. exact (setArgs_no_throw _ _ _ _ H). }
  apply bind_throw in H as [H|(a1 & _ & H)].
  { exact (loop_fault _ _ _ _ H). }
  apply bind_throw in H as [H|(a2 & _ & H)].
  { exfalso. exact (apply_defaults_no_throw _ _ _ _ _ H). }
  exact (push_all_fault _ _ _ H).
Qed.

Lemma parse_flags_fault args options e :
  minimistPrettyParse args options None = Throw e -> exists m, e = TypeError m.
Proof.
  unfold minimistPrettyParse. destruct (minimist_options options) as [m any].
  intros H. apply bind_throw in H as [H|(a & _ & H)]; [|discriminate].
  exact (minimist_fault _ _ _ H).
Qed.

(** X5.  The checks on the order of the tokens (a variadic token before
    the last, a required token after an optional one; line 2590) are never
    what a parse reports: unless a command is named ["[object Object]"], no
    parse throws the error [Invalid argument template]. *)
Theorem template_order_never_reported
    (argv : list string) (options : option (list (string * OptionSpec)))
    (commands : gmap string CommandSpec) (message : string) :
  commands !! "[object Object]" = None ->
  minimistPrettyParse argv options (Some commands) = Throw (Error message) ->
  Str.starts_with "Invalid argument template" message = false.
Proof.
  intros Hobj H.
  destruct (minimistPrettyParse argv options None) as [r|e|] eqn:Hr.
  - rewrite parse_split, Hr in H.
    change (parseTemplates commands r = Throw (Error message)) in H.
    unfold parseTemplates in H.
    apply bind_throw in H as [H|(first & _ & H)].
    { apply js_index_fault in H as [m H]. discriminate. }
    set (selected := match first with
                     | VPrim (PStr s) =>
                         if bool_decide (is_Some (commands !! s))
                         then Some s else None
                     | _ => None
                     end) in H.
    apply bind_throw in H as [H|(t & _ & H)].
    { unfold template_of in H.
      match type of H with
      | context [commands !! ?k] => destruct (commands !! k)
      end; discriminate. }
    destruct (str_truthy t).
    + apply bind_throw in H as [H|(toks & Ht & H)].
      { destruct (Str.includes " " (default "" t)); [|discriminate].
        unfold template_of in H. rewrite Hobj in H. discriminate. }
      destruct (Str.includes " " (default "" t)).
      { unfold template_of in Ht. rewrite Hobj in Ht. discriminate. }
      injection Ht as <-. cbn [bind_tokens] in H.
      apply bind_throw in H as [H|([r' prev] & _ & H)]; [|discriminate].
      apply (bind_token_in_order _ _ _ _ _ _ H).
    + apply bind_throw in H as [H|(len & _ & H)].
      { apply js_length_fault in H as [m H]. discriminate. }
      destruct (_ || _); [injection H as <-; reflexivity|discriminate].
  - rewrite parse_split, Hr in H. injection H as ->.
    apply parse_flags_fault in Hr as [m Hm]. discriminate.
  - rewrite parse_split, Hr in H. discriminate.
Qed.

Lemma info_token : one_token commands "info" "<torrent-id>" "torrent-id".
Proof. exists (cmd (Some "<torrent-id>")). repeat split; reflexivity. Qed.

Lemma seed_token : one_token commands "seed" "<inputs...>" "inputs".
Proof. exists (cmd (Some "<inputs...>")). repeat split; reflexivity. Qed.

Lemma default_token : one_token commands "*" "[torrent-ids...]" "torrent-ids".
Proof. exists (cmd (Some "[torrent-ids...]")). repeat split; reflexivity. Qed.

(** [info] of cmd.js: alone, with [0], with one torrent id, with two. *)
Lemma single_token_arity_witness :
  minimistPrettyParse ["info"] (Some options) (Some commands)
  = Throw (Error "'torrent-id' argument is required for 'info' command")
  /\ minimistPrettyParse ["info"; "0"] (Some options) (Some commands)
     = Throw (Error "'torrent-id' argument is required for 'info' command")
  /\ field "torrent-id"
       (minimistPrettyParse ["info"; "a.torrent"] (Some options)
                            (Some commands))
     = Some (vstr "a.torrent")
  /\ minimistPrettyParse ["info"; "a"; "b"] (Some options) (Some commands)
     = Throw (Error "Too many arguments were given to 'info' command").
Proof.
  assert (H : forall argv l,
             residual (minimistPrettyParse argv (Some options) None)
             = Some (PStr "info" :: l) ->
             match l with
             | [] =>
                 minimistPrettyParse argv (Some options) (Some commands)
                 = Throw (Error (required_argument "torrent-id" "info"))
             | [x] =>
                 if prim_truthy x
                 then field "torrent-id"
                        (minimistPrettyParse argv (Some options)
                                             (Some commands))
                      = Some (VPrim x)
                 else minimistPrettyParse argv (Some options) (Some commands)
                      = Throw (Error (required_argument "torrent-id" "info"))
             | _ :: _ :: _ =>
                 minimistPrettyParse argv (Some options) (Some commands)
                 = Throw (Error (too_many "info"))
             end).
  { intros argv l. apply (single_token_arity argv (Some options) commands
                            "info" "<torrent-id>" "torrent-id" l info_token);
      [reflexivity|reflexivity|discriminate]. }
  split; [|split; [|split]].
  - apply (H ["info"] []). vm_compute. reflexivity.
  - apply (H ["info"; "0"] [PNum "0"]). vm_compute. reflexivity.
  - apply (H ["info"; "a.torrent"] [PStr "a.torrent"]). vm_compute. reflexivity.
  - apply (H ["info"; "a"; "b"] [PStr "a"; PStr "b"]). vm_compute. reflexivity.
Defined.

(** [seed] of cmd.js, alone and with two inputs. *)
Lemma required_variadic_token_witness :
  minimistPrettyParse ["seed"; "-q"] (Some options) (Some commands)
  = Throw (Error "'inputs' is required for 'seed' command")
  /\ field "inputs"
       (minimistPrettyParse ["seed"; "a"; "-q"; "b"] (Some options)
                            (Some commands))
     = Some (VArr [PStr "a"; PStr "b"]).
Proof.
  split.
  - apply (required_variadic_token ["seed"; "-q"] (Some options) commands
             "seed" "<inputs...>" "inputs" [] seed_token);
      [reflexivity|reflexivity|discriminate|vm_compute; reflexivity].
  - apply (required_variadic_token ["seed"; "a"; "-q"; "b"] (Some options)
             commands "seed" "<inputs...>" "inputs" [PStr "a"; PStr "b"]
             seed_token);
      [reflexivity|reflexivity|discriminate|vm_compute; reflexivity].
Defined.

(** [version] of cmd.js, alone and followed by a positional. *)
Lemma untemplated_command_witness :
  minimistPrettyParse ["version"] (Some options) (Some commands)
  = minimistPrettyParse ["version"] (Some options) None
  /\ minimistPrettyParse ["version"; "x"] (Some options) (Some commands)
     = Throw (Error "Was not expecting arguments").
Proof.
  assert (Hu : untemplated commands "version")
    by (exists (cmd None); split; reflexivity).
  split.
  - apply (untemplated_command ["version"] (Some options) commands
             "version" [] Hu). vm_compute. reflexivity.
  - apply (untemplated_command ["version"; "x"] (Some options) commands
             "version" [PStr "x"] Hu). vm_compute. reflexivity.
Defined.

Lemma field_Some k o v :
  field k o = Some v -> exists r, o = Return r /\ r !! k = Some v.
Proof. destruct o as [r| |]; simpl; try discriminate. eauto. Qed.

(** With no argument at all, [torrentIds] is a property of the result and
    holds [undefined], as [torrent-ids] does. *)
Lemma template_name_mirrored_witness :
  exists r,
    minimistPrettyParse [] (Some options) (Some commands) = Return r
    /\ r !! "torrentIds" = Some VUndef.
Proof.
  assert (F : field "_" (minimistPrettyParse [] (Some options) (Some commands))
              = Some (VArr [])) by (vm_compute; reflexivity).
  apply field_Some in F as (r & Hr & Hl).
  exists r. split; [exact Hr|].
  assert (G : field "torrent-ids"
                (minimistPrettyParse [] (Some options) (Some commands))
              = None) by (vm_compute; reflexivity).
  rewrite Hr in G. simpl in G.
  change "torrentIds" with (Camel.camelCase "torrent-ids").
  rewrite (template_name_mirrored [] (Some options) commands
             "[torrent-ids...]" "torrent-ids" [] r default_token eq_refl
             ltac:(vm_compute; reflexivity) Hr
           : r !! Camel.camelCase "torrent-ids" = _).
  unfold get. rewrite G. reflexivity.
Defined.

(** The error [seed] throws without inputs is none about the template. *)
Lemma template_order_never_reported_witness :
  minimistPrettyParse ["seed"] (Some options) (Some commands)
  = Throw (Error "'inputs' is required for 'seed' command")
  /\ Str.starts_with "Invalid argument template"
       "'inputs' is required for 'seed' command" = false.
Proof.
  assert (E : minimistPrettyParse ["seed"] (Some options) (Some commands)
              = Throw (Error "'inputs' is required for 'seed' command"))
    by (vm_compute; reflexivity).
  split; [exact E|].
  apply (template_order_never_reported ["seed"] (Some options) commands _
           eq_refl E).
Defined.

(** ** The arguments after [--] *)

Lemma push_all_spec xs : forall (argv : obj) l,
  argv !! "_" = Some (VArr l) ->
  push_all xs argv = Return (<["_" := VArr (l ++ map PStr xs)]> argv).
Proof.
  induction xs as [|x xs IH]; intros argv l Hl; simpl.
  - rewrite app_nil_r, insert_id by exact Hl. reflexivity.
  - unfold push. rewrite Hl. cbn [mbind outcome_bind].
    rewrite (IH _ (l ++ [PStr x]) (lookup_insert_eq _ _ _)).
    rewrite insert_insert_eq, <- app_assoc. reflexivity.
Qed.

Lemma normalize_key_insert (r : obj) k K X :
  k <> K ->
  normalize_key (<[K := X]> r) k = <[K := X]> (normalize_key r k).
Proof.
  intros Hne. unfold normalize_key.
  rewrite (inherited_proto_frame K k X r) by congruence.
  destruct (inherited_proto k r); [reflexivity|].
  unfold get. rewrite lookup_insert_ne by congruence.
  apply insert_insert_ne. exact Hne.
Qed.

Lemma normalize_insert ks : forall (r : obj) K X,
  ~ In K ks -> normalize ks (<[K := X]> r) = <[K := X]> (normalize ks r).
Proof.
  induction ks as [|k ks IH]; intros r K X HK; simpl; [reflexivity|].
  rewrite normalize_key_insert by (intros ->; apply HK; left; reflexivity).
  apply IH. intros Hin. apply HK. right. exact Hin.
Qed.

Lemma after_dashes_none pre : ~ In "--" pre -> after_dashes pre = [].
Proof.
  intros H. rewrite <- (app_nil_r pre), (after_dashes_app _ _ H). reflexivity.
Qed.

Lemma before_dashes_none pre : ~ In "--" pre -> before_dashes pre = pre.
Proof.
  intros H. rewrite <- (app_nil_r pre) at 1.
  rewrite (before_dashes_app _ _ H). apply app_nil_r.
Qed.

(** X6.  Everything after the first [--] is appended to the positionals
    as it stands: no flag is read there and no number is made of a token;
    the arguments before it are read as if they stood alone. *)
Theorem after_dashes_verbatim
    (options : list (string * OptionSpec)) (pre post : list string) :
  schema_ok (tables options) = true ->
  reads_flags options pre -> ~ In "--" pre ->
  exists r l,
    minimistPrettyParse pre (Some options) None = Return r
    /\ r !! "_" = Some (VArr l)
    /\ minimistPrettyParse (pre ++ "--" :: post) (Some options) None
       = Return (<["_" := VArr (l ++ map PStr post)]> r).
Proof.
  intros Hok Hk Hpre.
  destruct (presets_total _ Hok) as (argv0 & H0 & Ha0).
  destruct (loop_total _ pre (bools_not_positional _ Hok) Hk argv0)
    as (argv1 & H1 & Ha1); [eexists; exact Ha0|].
  destruct (apply_defaults_total _ (m_default (tables options))
              (okeys (m_default (tables options)))
              argv1 (default_writes _ Hok) Ha1) as (argv2 & H2 & l & Hl).
  assert (Hm1 : minimist pre (tables options) = Return argv2).
  { rewrite (minimist_unfold _ Hok), H0. cbn [mbind outcome_bind].
    rewrite (before_dashes_none _ Hpre), (after_dashes_none _ Hpre), H1.
    cbn [mbind outcome_bind]. rewrite H2. reflexivity. }
  assert (Hm2 : minimist (pre ++ "--" :: post) (tables options)
                = Return (<["_" := VArr (l ++ map PStr post)]> argv2)).
  { rewrite (minimist_unfold _ Hok), H0. cbn [mbind outcome_bind].
    rewrite (before_dashes_app _ _ Hpre), (after_dashes_app _ _ Hpre).
    cbn [before_dashes after_dashes String.eqb Ascii.eqb Bool.eqb].
    rewrite app_nil_r, H1. cbn [mbind outcome_bind]. rewrite H2.
    cbn [mbind outcome_bind]. apply (push_all_spec _ _ _ Hl). }
  exists (normalize (any_of options) argv2), l.
  pose proof (any_of_not_positional _ Hok) as Hany.
  split; [apply (parse_flags _ _ _ Hm1)|]. split.
  - rewrite (normalize_frame _ _ _ Hany). exact Hl.
  - rewrite (parse_flags _ _ _ Hm2). f_equal.
    apply (normalize_insert _ _ _ _ Hany).
Qed.

Lemma after_dashes_verbatim_witness :
  exists r,
    minimistPrettyParse ["a"; "-q"] (Some options) None = Return r
    /\ minimistPrettyParse ["a"; "-q"; "--"; "-o"; "5"] (Some options) None
       = Return (<["_" := VArr [PStr "a"; PStr "-o"; PStr "5"]]> r).
Proof.
  destruct (after_dashes_verbatim options ["a"; "-q"] ["-o"; "5"])
    as (r & l & Hr & Hl & H).
  - vm_compute. reflexivity.
  - repeat constructor.
  - intros [E|[E|[]]]; discriminate.
  - exists r. split; [exact Hr|].
    change ["a"; "-q"; "--"; "-o"; "5"] with (["a"; "-q"] ++ "--" :: ["-o"; "5"]).
    rewrite H.
    assert (El : residual (minimistPrettyParse ["a"; "-q"] (Some options) None)
                 = Some [PStr "a"]) by (vm_compute; reflexivity).
    rewrite Hr in El. simpl in El. rewrite Hl in El. injection El as ->.
    reflexivity.
Defined.


(** ** String options *)

Lemma cluster_textual fl body : forall sets broken,
  cluster fl body = (sets, broken) ->
  Forall (fun kv : string * prim => prim_textual (snd kv) = true) sets.
Proof.
  induction body as [|c body IH]; intros sets broken H; simpl in H.
  - injection H as <- _. constructor.
  - destruct body as [|d rest]; [injection H as <- _; constructor|].
    destruct (String.eqb (String d rest) "-").
    { destruct (cluster fl (String d rest)) as [s b] eqn:E.
      injection H as <- _. constructor; [reflexivity|]. apply (IH _ _ eq_refl). }
    destruct (Str.is_alpha c && Str.any is_eq (String d rest)).
    { injection H as <- _. repeat constructor. }
    destruct (Str.is_alpha c && numeric_tail (String d rest)).
    { injection H as <- _. repeat constructor. }
    destruct (negb (Str.is_empty rest) && negb (Str.is_word d)).
    { injection H as <- _. repeat constructor. }
    destruct (cluster fl (String d rest)) as [s b] eqn:E.
    injection H as <- _. constructor; [|apply (IH _ _ eq_refl)].
    unfold bare. simpl. destruct (has _ _); reflexivity.
Qed.

Lemma bare_textual fl key : prim_textual (bare fl key) = true.
Proof. unfold bare. destruct (has key (strings fl)); reflexivity. Qed.

(** What an argument sets is a string or a boolean. *)
Lemma classify_textual fl arg next sets c :
  classify fl arg next = Sets sets c ->
  Forall (fun kv : string * prim => prim_textual (snd kv) = true) sets.
Proof.
  unfold classify.
  destruct (long_eq arg).
  { destruct (Str.is_empty _); [discriminate|].
    destruct (has _ _); intros [= <- _]; repeat constructor. }
  destruct (long_after "--no-" arg); [intros [= <- _]; repeat constructor|].
  destruct (long_after "--" arg).
  { destruct next as [n|].
    - destruct (_ && _); [intros [= <- _]; repeat constructor|].
      destruct (is_bool_word n); intros [= <- _]; repeat constructor.
      apply bare_textual.
    - intros [= <- _]. repeat constructor. apply bare_textual. }
  destruct (short arg); [|discriminate].
  destruct (cluster fl (Str.drop 1 arg)) as [s b] eqn:E.
  pose proof (cluster_textual _ _ _ _ E) as Hs.
  destruct (negb b && _); [|intros [= <- _]; exact Hs].
  assert (Hend : forall v, prim_textual v = true ->
            Forall (fun kv : string * prim => prim_textual (snd kv) = true)
                   (s ++ [(match Str.last arg with
                           | Some c0 => Str.char c0
                           | None => ""
                           end, v)])).
  { intros v Hv. apply Forall_app. split; [exact Hs|]. repeat constructor.
    exact Hv. }
  destruct next as [n|].
  - destruct (_ && _); [intros [= <- _]; apply Hend; reflexivity|].
    destruct (is_bool_word n); intros [= <- _]; apply Hend;
      [reflexivity|apply bare_textual].
  - intros [= <- _]. apply Hend, bare_textual.
Qed.

Lemma stored_textual fl key val old :
  prim_textual val = true -> no_number (default VUndef old) = true ->
  no_number (stored fl key val old) = true.
Proof.
  intros Hv Ho. unfold stored.
  destruct old as [[|[b|s|lit]|l]|]; simpl in *; try exact Hv;
    try discriminate;
    destruct (has key (bools fl)); simpl; try exact Hv.
  - rewrite Hv. reflexivity.
  - rewrite forallb_app, Ho. simpl. rewrite Hv. reflexivity.
Qed.

Section Textual.

Variable fl : flags.
Variable K : string.

Local Abbreviation holds_text argv := (no_number (get K argv) = true).

Lemma setKey_textual key val argv argv' :
  prim_textual val = true ->
  setKey fl key val argv = Return argv' -> holds_text argv -> holds_text argv'.
Proof.
  intros Hv H HP. unfold setKey in H. destruct (plain_key key); [|discriminate].
  injection H as <-. unfold get.
  destruct (decide (key = K)) as [->|Hne].
  - rewrite lookup_insert_eq. apply stored_textual; assumption.
  - rewrite lookup_insert_ne by exact Hne. exact HP.
Qed.

Lemma setKeys_textual keys val : forall argv argv',
  prim_textual val = true ->
  setKeys fl keys val argv = Return argv' -> holds_text argv -> holds_text argv'.
Proof.
  induction keys as [|x keys IH]; intros argv argv' Hv H HP; simpl in H.
  - injection H as <-. exact HP.
  - apply bind_return in H as (a & H1 & H2).
    apply (IH _ _ Hv H2). apply (setKey_textual _ _ _ _ Hv H1 HP).
Qed.

(** [setArg] keeps numbers out of [K] when it writes elsewhere, or writes
    what a string flag was given. *)
Lemma setArg_textual key val argv argv' :
  (In K (Flag.writes fl key) ->
   prim_textual val = true /\ has key (strings fl) = true) ->
  setArg fl key val argv = Return argv' -> holds_text argv -> holds_text argv'.
Proof.
  intros Hw H HP.
  destruct (in_dec string_dec K (Flag.writes fl key)) as [Hin|Hnin].
  - destruct (Hw Hin) as [Hv Hs].
    unfold setArg in H. apply bind_return in H as (a & H1 & H2).
    assert (Hc : prim_textual (coerce fl key val) = true).
    { unfold coerce. destruct val as [b|s|lit]; try exact Hv.
      rewrite Hs. reflexivity. }
    apply (setKeys_textual _ _ _ _ Hc H2).
    apply (setKey_textual _ _ _ _ Hc H1 HP).
  - unfold get. rewrite (setArg_frame fl _ _ _ _ _ H Hnin). exact HP.
Qed.

Lemma setArgs_textual sets : forall argv argv',
  Forall (fun kv : string * prim =>
            In K (Flag.writes fl (fst kv)) ->
            prim_textual (snd kv) = true /\ has (fst kv) (strings fl) = true)
         sets ->
  setArgs fl sets argv = Return argv' -> holds_text argv -> holds_text argv'.
Proof.
  induction sets as [|[k v] sets IH]; intros argv argv' Hv H HP; simpl in H.
  - injection H as <-. exact HP.
  - inversion Hv as [|? ? Hv1 Hvs]; subst.
    apply bind_return in H as (a & H1 & H2).
    apply (IH _ _ Hvs H2).
    apply (setArg_textual _ _ _ _ Hv1 H1 HP).
Qed.

Lemma apply_defaults_textual defaults keys : forall argv argv',
  (forall key d, oget key defaults = Some d -> In K (Flag.writes fl key) ->
                 prim_textual d = true) ->
  apply_defaults fl defaults keys argv = Return argv' ->
  holds_text argv -> holds_text argv'.
Proof.
  induction keys as [|key keys IH]; intros argv argv' Hd H HP; simpl in H.
  - injection H as <-. exact HP.
  - destruct (oget key defaults) as [d|] eqn:Ed; [|apply (IH _ _ Hd H HP)].
    destruct (plain_key key); [|discriminate].
    destruct (argv !! key); [apply (IH _ _ Hd H HP)|].
    apply bind_return in H as (a1 & H1 & H).
    apply bind_return in H as (a2 & H2 & H).
    apply (IH _ _ Hd H).
    destruct (in_dec string_dec K (Flag.writes fl key)) as [Hin|Hnin].
    + pose proof (Hd _ _ Ed Hin) as Ht.
      apply (setKeys_textual _ _ _ _ Ht H2).
      apply (setKey_textual _ _ _ _ Ht H1 HP).
    + unfold get.
      rewrite (setKeys_frame fl _ _ _ _ _ H2)
        by (intros Hin; apply Hnin; right; exact Hin).
      rewrite (setKey_frame fl _ _ _ _ _ H1)
        by (intros ->; apply Hnin; left; reflexivity).
      exact HP.
Qed.

End Textual.

Lemma writers_listed fl key k :
  In key (Flag.writes fl k) -> In k (key :: okeys (aliases fl)).
Proof.
  unfold Flag.writes. intros [->|H]; [left; reflexivity|right].
  apply okeys_In. destruct (oget k (aliases fl)) as [l|] eqn:E; [|destruct H].
  apply (oget_In _ _ _ E).
Qed.

Lemma textual_spec fl defaults key k :
  textual fl defaults key = true -> In key (Flag.writes fl k) ->
  has k (strings fl) = true
  /\ forall d, oget k defaults = Some d -> prim_textual d = true.
Proof.
  unfold textual. rewrite forallb_forall. intros H Hin.
  specialize (H k (writers_listed _ _ _ Hin)).
  apply orb_true_iff in H as [H|H].
  - apply negb_true_iff, mem_false in H. contradiction.
  - apply andb_true_iff in H as [H1 H2]. split; [exact H1|].
    intros d Hd. rewrite Hd in H2. exact H2.
Qed.

Lemma normal_form_textual v :
  no_number v = true -> no_number (normal_form v) = true.
Proof. destruct v as [|[b|[|c s]|lit]|l]; simpl; auto. Qed.

Lemma normalize_textual ks : forall (r : obj) K,
  no_number (get K r) = true -> no_number (get K (normalize ks r)) = true.
Proof.
  induction ks as [|k ks IH]; intros r K H; simpl; [exact H|].
  apply IH. unfold normalize_key.
  destruct (inherited_proto k r); [exact H|].
  unfold get at 1. destruct (decide (k = K)) as [->|Hne].
  - rewrite lookup_insert_eq. apply normal_form_textual, H.
  - rewrite lookup_insert_ne by exact Hne. exact H.
Qed.

(** A string option whose every spelling is a string flag never comes out
    of the flags as a number. *)
Lemma minimist_textual opts K args r :
  schema_ok opts = true ->
  textual (build_flags opts) (m_default opts) K = true ->
  minimist args opts = Return r -> no_number (get K r) = true.
Proof.
  intros Hok Ht H.
  assert (Hw : forall key, In K (Flag.writes (build_flags opts) key) ->
                 has key (strings (build_flags opts)) = true)
    by (intros key Hin; apply (textual_spec _ _ _ _ Ht Hin)).
  assert (HK : K <> "_").
  { apply ok_key_positional, (strings_ok opts Hok), Hw. left. reflexivity. }
  rewrite (minimist_unfold opts Hok) in H.
  apply bind_return in H as (argv0 & H0 & H).
  apply bind_return in H as (argv1 & H1 & H).
  apply bind_return in H as (argv2 & H2 & H).
  unfold get. rewrite (push_all_frame _ _ _ _ H HK).
  apply (apply_defaults_textual (build_flags opts) K _ _ _ _
           (fun key d Hd Hin => proj2 (textual_spec _ _ _ _ Ht Hin) d Hd) H2).
  apply (loop_preserves (build_flags opts)
           (fun a => no_number (get K a) = true)
           (fun _ => True)) with (before_dashes args) argv0;
    [| |apply Forall_forall; intros; exact I| |exact H1].
  - intros arg next sets c a a' _ Hc Ha Hs.
    apply (setArgs_textual (build_flags opts) K sets a a') with (2 := Hs); [|exact Ha].
    pose proof (classify_textual _ _ _ _ _ Hc) as Hv.
    rewrite Forall_forall in *. intros kv Hkv Hin.
    split; [apply Hv, Hkv|apply Hw, Hin].
  - intros x a a' Ha Hp. unfold get. rewrite (push_frame _ _ _ _ Hp HK).
    exact Ha.
  - apply (setArgs_textual (build_flags opts) K (presets opts) _ argv0) with (2 := H0).
    + apply Forall_forall. intros [k v] Hin Hk. apply list_elem_of_In in Hin.
      unfold presets in Hin.
      apply in_map_iff in Hin as (key & E & Hkey). unfold preset in E.
      injection E as <- <-. simpl in *. split; [|apply Hw, Hk].
      destruct (oget key (m_default opts)) as [d|] eqn:Ed; [|reflexivity].
      apply (proj2 (textual_spec _ _ _ _ Ht Hk) d Ed).
    + unfold get. rewrite lookup_singleton_ne by congruence. reflexivity.
Qed.

Lemma binds_unbound cs key :
  binds cs key = false -> unbound (list_to_map cs) key.
Proof.
  intros H c spec text tok Hc Ht Htok Hin.
  apply elem_of_list_to_map_2, list_elem_of_In in Hc.
  assert (E : binds cs key = true); [|congruence].
  unfold binds. apply existsb_exists. exists (c, spec). split; [exact Hc|].
  simpl. rewrite Ht. apply existsb_exists. exists tok. split; [exact Htok|].
  apply mem_In. exact Hin.
Qed.

(** X7.  A string option never comes out of a parse as a number: when
    every flag that writes the property [k] is a string flag whose default,
    if any, is no number, and no template binds [k], then in every result
    [k] is [undefined], a boolean, a string or an array of these, whatever
    the arguments.  So the value of [--select 2] is the string, and a test
    [typeof argv.select === 'number'] never succeeds. *)
Theorem string_option_never_number
    (options : list (string * OptionSpec))
    (commands : gmap string CommandSpec) (k : string)
    (args : list string) (r : obj) :
  schema_ok (tables options) = true ->
  textual (flags_of options) (m_default (tables options)) k = true ->
  unbound commands k ->
  minimistPrettyParse args (Some options) (Some commands) = Return r ->
  no_number (get k r) = true.
Proof.
  intros Hok Ht Hu H.
  unfold get. rewrite (parse_commands_field _ _ _ _ _ Hu H).
  rewrite parse_split in H. apply bind_return in H as (r0 & H0 & _).
  rewrite H0. cbn [field].
  revert H0. unfold minimistPrettyParse, minimist_options.
  destruct (buildOptions options) as [m any] eqn:Eb.
  intros H0. apply bind_return in H0 as (r1 & H1 & H0). injection H0 as <-.
  apply normalize_textual.
  apply (minimist_textual m k args r1); [| |exact H1].
  - unfold tables in Hok. rewrite Eb in Hok. exact Hok.
  - unfold flags_of, tables in Ht. rewrite Eb in Ht. exact Ht.
Qed.


Lemma string_option_never_number_witness :
  exists r,
    minimistPrettyParse ["x"; "--select"; "2"; "-s5"] (Some options)
                        (Some commands) = Return r
    /\ r !! "select" = Some (VArr [PStr "2"; PStr "5"])
    /\ no_number (get "select" r) = true.
Proof.
  assert (F : field "select"
                (minimistPrettyParse ["x"; "--select"; "2"; "-s5"]
                                     (Some options) (Some commands))
              = Some (VArr [PStr "2"; PStr "5"]))
    by (vm_compute; reflexivity).
  apply field_Some in F as (r & Hr & Hv).
  exists r. split; [exact Hr|]. split; [exact Hv|].
  apply (string_option_never_number options commands "select"
           ["x"; "--select"; "2"; "-s5"] r).
  - vm_compute. reflexivity.
  - vm_compute. reflexivity.
  - apply (binds_unbound
             [ ("*", cmd (Some "[torrent-ids...]"));
               ("download", cmd (Some "<torrent-ids...>"));
               ("downloadmeta", cmd (Some "<torrent-ids...>"));
               ("seed", cmd (Some "<inputs...>"));
               ("create", cmd (Some "<input>"));
               ("info", cmd (Some "<torrent-id>"));
               ("version", cmd None);
               ("help", cmd None) ]).
    vm_compute. reflexivity.
  - exact Hr.
Defined.

(** ** Defaults *)

Lemma buildOptions_step_keys st entry k :
  (In k (snd st) -> True) ->
  In k (snd (buildOptions_step st entry)) ->
  In k (snd st) \/ k = fst entry.
Proof.
  destruct st as [m any], entry as [key v]. unfold buildOptions_step.
  cbn [fst snd]. intros _.
  destruct (str_truthy (opt_type v) || default_truthy (opt_default v));
    [|cbn [snd]; auto].
  destruct (bool_decide (declared_type v = Some "boolean")); cbn [snd]; [auto|].
  destruct (bool_decide (declared_type v = Some "any")); [|auto].
  rewrite in_app_iff. intros [H|[<-|[]]]; auto.
Qed.

(** An option of type [any] is a key of the schema. *)
Lemma any_of_key options k :
  In k (any_of options) -> In k (map fst options).
Proof.
  unfold any_of, buildOptions.
  enough (H : forall l st,
             In k (snd (foldl buildOptions_step st l)) ->
             In k (snd st) \/ In k (map fst l))
    by (intros Hin; destruct (H _ _ Hin) as [[]|Hk]; exact Hk).
  induction l as [|e l IH]; intros st Hin; simpl in *; [left; exact Hin|].
  destruct (IH _ Hin) as [H|H]; [|right; right; exact H].
  destruct (buildOptions_step_keys st e k (fun _ => I) H) as [H'|H'];
    [left; exact H'|right; left; symmetry; exact H'].
Qed.

Lemma undeclared_parts fl foo :
  Flag.declared fl foo = false ->
  has foo (bools fl) = false /\ ~ In foo (default [] (oget foo (aliases fl))).
Proof.
  unfold Flag.declared. intros Hun.
  apply orb_false_iff in Hun as [H H3]. apply orb_false_iff in H as [H1 H2].
  split; [exact H2|]. unfold has in H3.
  destruct (oget foo (aliases fl)); [discriminate|intros []].
Qed.

(** A key that holds [no-] gives the key without it the default [true],
    provided no later entry of that name sets another; here for a name
    that is no key of the schema at all. *)
Lemma negation_default_unnamed options foo vn :
  In ("no-" +:+ foo, vn) options -> ~ In foo (map fst options) ->
  foo <> "__proto__" ->
  oget foo (m_default (tables options)) = Some (PBool true).
Proof.
  intros Hn Hfoo Hp.
  destruct (in_split _ _ Hn) as (pre & post & E). unfold tables. rewrite E.
  replace (pre ++ ("no-" +:+ foo, vn) :: post)
    with ((pre ++ [("no-" +:+ foo, vn)]) ++ post)
    by (rewrite <- app_assoc; reflexivity).
  rewrite buildOptions_app. apply buildOptions_default_kept.
  - exact Hp.
  - apply (negation_step_default pre ("no-" +:+ foo) vn eq_refl Hp).
  - intros [k v] He Hk. simpl in Hk. subst k. exfalso. apply Hfoo.
    rewrite E, map_app. apply in_app_iff. right. right.
    change foo with (fst (foo, v)). apply in_map. exact He.
Qed.

(** X8.  A schema that declares [no-foo] but no option [foo] (as cmd.js
    does with [no-quit]): [buildOptions] makes [foo] a property that is
    [true] when the arguments do not set it and [false] after [--no-foo],
    and the templates leave it as the flags gave it. *)
Theorem negation_without_option
    (options : list (string * OptionSpec)) (foo : string) (vn : OptionSpec) :
  In ("no-" +:+ foo, vn) options -> ~ In foo (map fst options) ->
  Flag.name foo = true -> foo <> "__proto__" ->
  schema_ok (tables options) = true ->
  Flag.declared (flags_of options) foo = false ->
  Flag.private (flags_of options) (m_default (tables options)) foo = true ->
  (forall args,
      reads_flags options args -> never_sets options foo args ->
      field foo (minimistPrettyParse args (Some options) None) = Some vtrue)
  /\ (forall pre post,
      ~ In "--" pre ->
      reads_flags options (pre ++ post) ->
      never_sets options foo (pre ++ post) ->
      field foo (minimistPrettyParse (pre ++ ("--no-" +:+ foo) :: post)
                                     (Some options) None)
      = Some vfalse)
  /\ (forall args commands r,
      unbound commands foo ->
      minimistPrettyParse args (Some options) (Some commands) = Return r ->
      r !! foo = field foo (minimistPrettyParse args (Some options) None)).
Proof.
  intros Hn Hfoo Hname Hp Hok Hun Hpriv.
  pose proof (negation_default_unnamed _ _ _ Hn Hfoo Hp) as Hdef.
  assert (Hany : ~ In foo (any_of options))
    by (intros H; apply Hfoo, any_of_key, H).
  destruct (undeclared_parts _ _ Hun) as (Hnb & Hself).
  split; [|split].
  - intros args Hk Hs.
    destruct (absent_default _ Hok foo _ Hnb Hself Hdef Hpriv args Hk Hs)
      as (r & Hr & Hv).
    rewrite (parse_flags _ _ _ Hr). simpl.
    rewrite (normalize_frame _ _ _ Hany). exact Hv.
  - intros pre post Hpre Hk Hs.
    destruct (negated_defaulted _ Hok foo _ Hnb Hself Hdef Hpriv pre post
                Hname Hpre Hk Hs) as (r & Hr & Hv).
    rewrite (parse_flags _ _ _ Hr). simpl.
    rewrite (normalize_frame _ _ _ Hany). exact Hv.
  - intros args commands r. apply parse_commands_field.
Qed.

(** [no-quit] of cmd.js: [quit] is [true] unless [--no-quit] is given. *)
Lemma negation_without_option_witness :
  field "quit" (minimistPrettyParse ["magnet:x"; "--vlc"] (Some options) None)
  = Some vtrue
  /\ field "quit" (minimistPrettyParse ["magnet:x"; "--no-quit"; "--vlc"]
                                       (Some options) None)
     = Some vfalse.
Proof.
  destruct (negation_without_option options "quit" (opt None None None))
    as (H1 & H2 & _).
  - vm_compute. tauto.
  - vm_compute. intuition discriminate.
  - reflexivity.
  - discriminate.
  - vm_compute. reflexivity.
  - vm_compute. reflexivity.
  - vm_compute. reflexivity.
  - split.
    + apply H1; repeat constructor.
    + apply (H2 ["magnet:x"] ["--vlc"]).
      * intros [H|[]]. discriminate.
      * repeat constructor.
      * repeat constructor.
Defined.

Lemma valued_self opts k :
  Flag.valued (build_flags opts) k = true ->
  has k (bools (build_flags opts)) = false
  /\ ~ In k (default [] (oget k (aliases (build_flags opts)))).
Proof.
  intros H. destruct (valued_parts _ _ H) as (_ & Hnb & _ & Hself).
  split; assumption.
Qed.

(** X9.  An option that takes a value and has a default (as [port] with
    8000 in cmd.js): when the arguments do not set it, the property is the
    default, of the type the schema wrote it with; when they give
    [--k v], it is the string [v], whatever the type of the default. *)
Theorem default_and_given_value
    (options : list (string * OptionSpec)) (k : string) (d : prim) :
  Flag.name k = true ->
  schema_ok (tables options) = true ->
  Flag.valued (flags_of options) k = true ->
  Flag.private (flags_of options) (m_default (tables options)) k = true ->
  oget k (m_default (tables options)) = Some d ->
  ~ In k (any_of options) ->
  (forall args,
      reads_flags options args -> never_sets options k args ->
      field k (minimistPrettyParse args (Some options) None)
      = Some (VPrim d))
  /\ (forall pre v post,
      ~ In "--" pre -> Flag.plain v = true ->
      reads_flags options (pre ++ post) ->
      never_sets options k (pre ++ post) ->
      field k (minimistPrettyParse (pre ++ ("--" +:+ k) :: v :: post)
                                   (Some options) None)
      = Some (vstr v)).
Proof.
  intros Hname Hok Hval Hpriv Hdef Hany.
  destruct (valued_self _ _ Hval) as (Hnb & Hself).
  split.
  - intros args Hk Hs.
    destruct (absent_default _ Hok k _ Hnb Hself Hdef Hpriv args Hk Hs)
      as (r & Hr & Hv).
    rewrite (parse_flags _ _ _ Hr). simpl.
    rewrite (normalize_frame _ _ _ Hany). exact Hv.
  - intros pre v post Hpre Hplain Hk Hs.
    assert (Hd : dashed v = false) by (apply negb_true_iff; exact Hplain).
    destruct (given_value _ Hok k Hval Hpriv (Some v) pre post Hname Hpre Hd
                Hk Hs) as (r & Hr & Hv).
    change (pre ++ Flag.given k (Some v) post)
      with (pre ++ ("--" +:+ k) :: v :: post) in Hr.
    rewrite (parse_flags _ _ _ Hr). simpl.
    rewrite (normalize_frame _ _ _ Hany). exact Hv.
Qed.

(** [port] of cmd.js: the number 8000 when absent, a string when given. *)
Lemma default_and_given_value_witness :
  field "port" (minimistPrettyParse ["magnet:x"] (Some options) None)
  = Some (VPrim (PNum "8000"))
  /\ field "port" (minimistPrettyParse ["magnet:x"; "--port"; "9000"]
                                       (Some options) None)
     = Some (vstr "9000").
Proof.
  destruct (default_and_given_value options "port" (PNum "8000"))
    as (H1 & H2).
  - reflexivity.
  - vm_compute. reflexivity.
  - vm_compute. reflexivity.
  - vm_compute. reflexivity.
  - vm_compute. reflexivity.
  - vm_compute. intuition discriminate.
  - split.
    + apply H1; repeat constructor.
    + apply (H2 ["magnet:x"] "9000" []).
      * intros [H|[]]. discriminate.
      * reflexivity.
      * repeat constructor.
      * repeat constructor.
Defined.


(** ** The lists of [buildOptions] *)

Lemma buildOptions_step_lists st k v :
  m_boolean (fst (buildOptions_step st (k, v)))
  = m_boolean (fst st) ++ (if is_boolean v then [k] else [])
  /\ m_string (fst (buildOptions_step st (k, v)))
     = m_string (fst st) ++ (if is_boolean v then [] else [k])
  /\ snd (buildOptions_step st (k, v))
     = snd st ++ (if is_any v then [k] else []).
Proof.
  split; [apply buildOptions_step_boolean|].
  destruct st as [m any]. unfold buildOptions_step, is_boolean, is_any.
  cbn [fst snd].
  set (m4 := if Camel.is_multiword k then _ else _).
  assert (H4 : m_string m4 = m_string m).
  { subst m4.
    repeat match goal with
           | |- context [match ?x with _ => _ end] => destruct x
           end; reflexivity. }
  destruct (str_truthy (opt_type v) || default_truthy (opt_default v));
    cbn [andb].
  - destruct (bool_decide (declared_type v = Some "boolean")) eqn:Eb;
      cbn [fst snd].
    + unfold push_boolean. cbn [m_string]. rewrite H4, !app_nil_r.
      apply bool_decide_eq_true in Eb. rewrite Eb.
      rewrite bool_decide_eq_false_2 by discriminate.
      rewrite app_nil_r. split; reflexivity.
    + unfold push_string. cbn [m_string]. rewrite H4.
      destruct (bool_decide (declared_type v = Some "any"));
        [|rewrite app_nil_r]; split; reflexivity.
  - cbn [fst snd]. unfold push_boolean. cbn [m_string].
    rewrite H4, !app_nil_r. split; reflexivity.
Qed.

Lemma buildOptions_fold_lists l : forall st,
  m_boolean (fst (foldl buildOptions_step st l))
  = m_boolean (fst st) ++ keys_where is_boolean l
  /\ m_string (fst (foldl buildOptions_step st l))
     = m_string (fst st) ++ keys_where (fun v => negb (is_boolean v)) l
  /\ snd (foldl buildOptions_step st l) = snd st ++ keys_where is_any l.
Proof.
  unfold keys_where.
  induction l as [|[k v] l IH]; intros st; simpl.
  - rewrite !app_nil_r. repeat split.
  - destruct (IH (buildOptions_step st (k, v))) as (Hb & Hs & Ha).
    destruct (buildOptions_step_lists st k v) as (Eb & Es & Ea).
    rewrite Hb, Hs, Ha, Eb, Es, Ea, <- !app_assoc.
    destruct (is_boolean v), (is_any v); repeat split.
Qed.

Lemma partition_permutation {A} (p : A -> bool) (l : list A) :
  Permutation (List.filter p l ++ List.filter (fun x => negb (p x)) l) l.
Proof.
  induction l as [|x l IH]; simpl; [constructor|].
  destruct (p x); simpl.
  - constructor. exact IH.
  - apply Permutation_sym, Permutation_cons_app, Permutation_sym, IH.
Qed.

(** X10.  The lists [buildOptions] hands to minimist: [boolean] holds the
    keys of the entries whose type is boolean (that of a truthy default
    first) and of those that have neither a type nor a truthy default,
    [string] all the other keys, both in the order of the schema, so that
    every key is in exactly one of the two; [anyTypeOptions] holds the keys
    of the entries whose type is [any]. *)
Theorem buildOptions_lists (options : list (string * OptionSpec)) :
  m_boolean (tables options) = keys_where is_boolean options
  /\ m_string (tables options)
     = keys_where (fun v => negb (is_boolean v)) options
  /\ any_of options = keys_where is_any options
  /\ Permutation (m_boolean (tables options) ++ m_string (tables options))
                 (map fst options).
Proof.
  destruct (buildOptions_fold_lists options (no_opts, [])) as (Hb & Hs & Ha).
  unfold tables, any_of, buildOptions. rewrite Hb, Hs, Ha.
  repeat split. cbn [fst m_boolean m_string no_opts app].
  unfold keys_where. rewrite <- map_app. apply Permutation_map.
  apply (partition_permutation (fun e => is_boolean (snd e))).
Qed.

(** ** Properties that are always there *)

Section Present.

Variable fl : flags.
Variable K : string.

Local Abbreviation there argv := (is_Some ((argv : obj) !! K)).

Lemma setKey_there key val argv argv' :
  setKey fl key val argv = Return argv' -> there argv -> there argv'.
Proof.
  unfold setKey. destruct (plain_key key); [|discriminate].
  intros [= <-] H. destruct (decide (key = K)) as [->|Hne].
  - rewrite lookup_insert_eq. eauto.
  - rewrite lookup_insert_ne by exact Hne. exact H.
Qed.

Lemma setKey_sets val argv argv' :
  setKey fl K val argv = Return argv' -> there argv'.
Proof.
  unfold setKey. destruct (plain_key K); [|discriminate].
  intros [= <-]. rewrite lookup_insert_eq. eauto.
Qed.

Lemma setKeys_there keys val : forall argv argv',
  setKeys fl keys val argv = Return argv' -> there argv -> there argv'.
Proof.
  induction keys as [|x keys IH]; intros argv argv' H HP; simpl in H.
  - injection H as <-. exact HP.
  - apply bind_return in H as (a & H1 & H2).
    apply (IH _ _ H2), (setKey_there _ _ _ _ H1 HP).
Qed.

Lemma setArg_there key val argv argv' :
  setArg fl key val argv = Return argv' -> there argv -> there argv'.
Proof.
  unfold setArg. intros H HP. apply bind_return in H as (a & H1 & H2).
  apply (setKeys_there _ _ _ _ H2), (setKey_there _ _ _ _ H1 HP).
Qed.

Lemma setArg_sets val argv argv' :
  setArg fl K val argv = Return argv' -> there argv'.
Proof.
  unfold setArg. intros H. apply bind_return in H as (a & H1 & H2).
  apply (setKeys_there _ _ _ _ H2), (setKey_sets _ _ _ H1).
Qed.

Lemma setArgs_there sets : forall argv argv',
  setArgs fl sets argv = Return argv' -> there argv -> there argv'.
Proof.
  induction sets as [|[k v] sets IH]; intros argv argv' H HP; simpl in H.
  - injection H as <-. exact HP.
  - apply bind_return in H as (a & H1 & H2).
    apply (IH _ _ H2), (setArg_there _ _ _ _ H1 HP).
Qed.

Lemma setArgs_sets sets : forall argv argv',
  In K (map fst sets) -> setArgs fl sets argv = Return argv' -> there argv'.
Proof.
  induction sets as [|[k v] sets IH]; intros argv argv' Hin H; [destruct Hin|].
  simpl in H. apply bind_return in H as (a & H1 & H2).
  destruct Hin as [E|Hin].
  - simpl in E. subst k.
    apply (setArgs_there _ _ _ H2), (setArg_sets _ _ _ H1).
  - apply (IH _ _ Hin H2).
Qed.

Lemma push_there x argv argv' :
  push x argv = Return argv' -> there argv -> there argv'.
Proof.
  unfold push. destruct (argv !! "_") as [[| |l]|]; try discriminate.
  intros [= <-] H. destruct (decide ("_" = K)) as [<-|Hne].
  - rewrite lookup_insert_eq. eauto.
  - rewrite lookup_insert_ne by exact Hne. exact H.
Qed.

Lemma loop_there args argv argv' :
  loop fl args argv = Return argv' -> there argv -> there argv'.
Proof.
  intros H HP.
  apply (loop_preserves fl (fun a => is_Some (a !! K)) (fun _ => True))
    with args argv; [| |apply Forall_forall; intros; exact I|exact HP|exact H].
  - intros arg next sets c a a' _ _ Ha Hs. apply (setArgs_there _ _ _ Hs Ha).
  - intros x a a' Ha Hp. apply (push_there _ _ _ Hp Ha).
Qed.

Lemma apply_defaults_there defaults keys : forall argv argv',
  apply_defaults fl defaults keys argv = Return argv' ->
  there argv -> there argv'.
Proof.
  induction keys as [|key keys IH]; intros argv argv' H HP; simpl in H.
  - injection H as <-. exact HP.
  - destruct (oget key defaults) as [d|]; [|apply (IH _ _ H HP)].
    destruct (plain_key key); [|discriminate].
    destruct (argv !! key); [apply (IH _ _ H HP)|].
    apply bind_return in H as (a1 & H1 & H).
    apply bind_return in H as (a2 & H2 & H).
    apply (IH _ _ H), (setKeys_there _ _ _ _ H2), (setKey_there _ _ _ _ H1 HP).
Qed.

Lemma push_all_there xs : forall argv argv',
  push_all xs argv = Return argv' -> there argv -> there argv'.
Proof.
  induction xs as [|x xs IH]; intros argv argv' H HP; simpl in H.
  - injection H as <-. exact HP.
  - apply bind_return in H as (a & H1 & H2).
    apply (IH _ _ H2), (push_there _ _ _ H1 HP).
Qed.

End Present.

(** Every boolean flag is a property of what minimist returns. *)
Lemma minimist_boolean_there opts args r k :
  has k (bools (build_flags opts)) = true ->
  minimist args opts = Return r -> is_Some (r !! k).
Proof.
  intros Hk H. unfold minimist in H.
  destruct (forallb plain_key (schema_keys opts)); [|discriminate].
  apply bind_return in H as (argv0 & H0 & H).
  apply bind_return in H as (argv1 & H1 & H).
  apply bind_return in H as (argv2 & H2 & H).
  assert (Hin : In k (map fst (map (preset (build_flags opts) (m_default opts))
                                  (okeys (bools (build_flags opts)))))).
  { rewrite map_map. simpl. rewrite map_id. apply okeys_In.
    apply has_true in Hk as [v Hv]. apply (oget_In _ _ _ Hv). }
  apply (push_all_there _ _ _ _ H), (apply_defaults_there _ _ _ _ _ _ H2),
    (loop_there _ _ _ _ _ H1), (setArgs_sets _ _ _ _ _ Hin H0).
Qed.

Lemma normalize_key_there (r : obj) k K :
  is_Some (r !! K) -> is_Some (normalize_key r k !! K).
Proof.
  intros H. unfold normalize_key. destruct (inherited_proto k r); [exact H|].
  destruct (decide (k = K)) as [->|Hne].
  - rewrite lookup_insert_eq. eauto.
  - rewrite lookup_insert_ne by exact Hne. exact H.
Qed.

Lemma normalize_there ks : forall (r : obj) K,
  is_Some (r !! K) -> is_Some (normalize ks r !! K).
Proof.
  induction ks as [|k ks IH]; intros r K H; simpl; [exact H|].
  apply IH, normalize_key_there, H.
Qed.

Lemma normalize_any_there ks : forall (r : obj) K,
  In K ks -> K <> "__proto__" -> is_Some (normalize ks r !! K).
Proof.
  induction ks as [|k ks IH]; intros r K Hin Hp; [destruct Hin|]. simpl.
  destruct Hin as [->|Hin]; [|apply (IH _ _ Hin Hp)].
  apply normalize_there. unfold normalize_key.
  rewrite (not_inherited_proto _ _ Hp), lookup_insert_eq. eauto.
Qed.

Lemma assign_there k v (r r' : obj) K :
  assign k v r = Return r' -> is_Some (r !! K) -> is_Some (r' !! K).
Proof.
  unfold assign. destruct (String.eqb k "__proto__"); [discriminate|].
  intros [= <-] H. destruct (decide (k = K)) as [->|Hne].
  - rewrite lookup_insert_eq. eauto.
  - rewrite lookup_insert_ne by exact Hne. exact H.
Qed.

Lemma bind_token_there command preset tok index last prev (r r' : obj) prev' K :
  bind_token command preset tok index last prev r = Return (r', prev') ->
  is_Some (r !! K) -> is_Some (r' !! K).
Proof.
  unfold bind_token. intros H HP.
  destruct (Template.matches tok); [|discriminate].
  destruct (Template.name tok) as [n|]; [|discriminate].
  apply bind_return in H as (r1 & H1 & H).
  apply bind_return in H as (r2 & H2 & H). injection H as <- _.
  assert (HP1 : is_Some (r1 !! K)).
  { destruct (_ || _); [discriminate|].
    destruct (Template.isArray tok).
    - apply bind_return in H1 as (rest & _ & H1).
      apply bind_return in H1 as (len & _ & H1).
      destruct (length_above 0 len); [apply (assign_there _ _ _ _ _ H1 HP)|].
      destruct (Template.isRequired tok); [discriminate|].
      injection H1 as <-. exact HP.
    - apply bind_return in H1 as (len & _ & H1).
      destruct (_ && _); [discriminate|].
      apply bind_return in H1 as (v & _ & H1).
      destruct (truthy v); [apply (assign_there _ _ _ _ _ H1 HP)|].
      destruct (Template.isRequired tok); [discriminate|].
      injection H1 as <-. exact HP. }
  destruct (Camel.is_multiword n); [apply (assign_there _ _ _ _ _ H2 HP1)|].
  injection H2 as <-. exact HP1.
Qed.

Lemma bind_tokens_there command preset toks : forall index prev (r r' : obj) K,
  bind_tokens command preset toks index prev r = Return r' ->
  is_Some (r !! K) -> is_Some (r' !! K).
Proof.
  induction toks as [|tok toks IH]; intros index prev r r' K H HP; simpl in H.
  - injection H as <-. exact HP.
  - apply bind_return in H as ([r1 p1] & H1 & H).
    apply (IH _ _ _ _ _ H), (bind_token_there _ _ _ _ _ _ _ _ _ _ H1 HP).
Qed.

Lemma parseTemplates_there commands (r r' : obj) K :
  parseTemplates commands r = Return r' ->
  is_Some (r !! K) -> is_Some (r' !! K).
Proof.
  unfold parseTemplates. intros H HP.
  apply bind_return in H as (first & _ & H).
  apply bind_return in H as (t & _ & H).
  destruct (str_truthy t).
  - apply bind_return in H as (toks & _ & H).
    apply (bind_tokens_there _ _ _ _ _ _ _ _ H HP).
  - apply bind_return in H as (len & _ & H).
    destruct (_ || _); [discriminate|]. injection H as <-. exact HP.
Qed.

Lemma flags_there
    (options : list (string * OptionSpec))
    (commands : option (gmap string CommandSpec))
    (args : list string) (r : obj) (k : string) :
  has k (bools (flags_of options)) = true
  \/ (In k (any_of options) /\ k <> "__proto__") ->
  minimistPrettyParse args (Some options) commands = Return r ->
  is_Some (r !! k).
Proof.
  intros Hk H.
  assert (H0 : forall r0,
             minimistPrettyParse args (Some options) None = Return r0 ->
             is_Some (r0 !! k)).
  { intros r0. unfold minimistPrettyParse, minimist_options.
    unfold flags_of, tables, any_of in Hk.
    destruct (buildOptions options) as [m any]. cbn [fst snd] in Hk.
    intros Hr. apply bind_return in Hr as (r1 & H1 & Hr). injection Hr as <-.
    destruct Hk as [Hk|[Hk Hp]].
    - apply normalize_there, (minimist_boolean_there _ _ _ _ Hk H1).
    - apply (normalize_any_there _ _ _ Hk Hp). }
  destruct commands as [c|]; [|apply (H0 _ H)].
  rewrite parse_split in H. apply bind_return in H as (r0 & Hr & H).
  apply (parseTemplates_there _ _ _ _ H), H0, Hr.
Qed.

(** X11.  Every boolean flag of the schema, and every option of type
    [any], is a property of every result the parse returns, with or without
    commands, whatever the arguments: [Object.keys] of the result lists it
    even when the command line does not mention it. *)
Theorem declared_flags_always_present
    (options : list (string * OptionSpec))
    (commands : option (gmap string CommandSpec))
    (args : list string) (r : obj) (k : string) :
  has k (bools (flags_of options)) = true
  \/ (In k (any_of options) /\ k <> "__proto__") ->
  minimistPrettyParse args (Some options) commands = Return r ->
  is_Some (r !! k).
Proof. apply flags_there. Qed.

Lemma declared_flags_always_present_witness :
  exists r,
    minimistPrettyParse ["magnet:x"] (Some options) (Some commands)
    = Return r
    /\ r !! "vlc" = Some vfalse /\ is_Some (r !! "chromecast").
Proof.
  assert (F : field "vlc"
                (minimistPrettyParse ["magnet:x"] (Some options)
                                     (Some commands))
              = Some vfalse) by (vm_compute; reflexivity).
  apply field_Some in F as (r & Hr & Hv).
  exists r. split; [exact Hr|]. split; [exact Hv|].
  apply (declared_flags_always_present options (Some commands) ["magnet:x"]
           r "chromecast"); [|exact Hr].
  right. split; [vm_compute; tauto|discriminate].
Defined.

(** ** Arguments without dashes *)

Lemma loop_plain_insert fl args : forall (argv : obj) l,
  Forall (fun arg => dashed arg = false) args ->
  argv !! "_" = Some (VArr l) ->
  loop fl args argv
  = Return (<["_" := VArr (l ++ map (positional fl) args)]> argv).
Proof.
  induction args as [|arg args IH]; intros argv l Hp Hl; simpl.
  - rewrite app_nil_r, insert_id by exact Hl. reflexivity.
  - inversion Hp as [|? ? Harg Hargs]; subst.
    rewrite (classify_plain fl arg _ Harg). unfold push at 1. rewrite Hl.
    cbn [mbind outcome_bind].
    rewrite (IH _ (l ++ [positional fl arg]) Hargs (lookup_insert_eq _ _ _)).
    rewrite insert_insert_eq, <- app_assoc. reflexivity.
Qed.

Lemma setKey_insert fl key val (argv : obj) K X :
  key <> K ->
  setKey fl key val (<[K := X]> argv)
  = (a ← setKey fl key val argv; Return (<[K := X]> a)).
Proof.
  intros Hne. unfold setKey. destruct (plain_key key); [|reflexivity].
  cbn [mbind outcome_bind]. rewrite lookup_insert_ne by congruence.
  rewrite insert_insert_ne by exact Hne. reflexivity.
Qed.

Lemma setKeys_insert fl keys val K X : forall (argv : obj),
  ~ In K keys ->
  setKeys fl keys val (<[K := X]> argv)
  = (a ← setKeys fl keys val argv; Return (<[K := X]> a)).
Proof.
  induction keys as [|x keys IH]; intros argv HK; simpl; [reflexivity|].
  rewrite setKey_insert by (intros ->; apply HK; left; reflexivity).
  destruct (setKey fl x val argv) as [a| |]; cbn [mbind outcome_bind];
    try reflexivity.
  apply IH. intros Hin. apply HK. right. exact Hin.
Qed.

(** The defaults do not look at a property they do not write. *)
Lemma apply_defaults_insert fl defaults keys K X : forall (argv : obj),
  (forall key, In key keys -> ~ In K (Flag.writes fl key)) ->
  apply_defaults fl defaults keys (<[K := X]> argv)
  = (a ← apply_defaults fl defaults keys argv; Return (<[K := X]> a)).
Proof.
  induction keys as [|key keys IH]; intros argv Hw; simpl; [reflexivity|].
  assert (Hw' : forall k, In k keys -> ~ In K (Flag.writes fl k))
    by (intros k Hk; apply Hw; right; exact Hk).
  destruct (oget key defaults) as [d|]; [|apply (IH _ Hw')].
  destruct (plain_key key); [|reflexivity].
  assert (Hkey : key <> K).
  { intros ->. apply (Hw K); left; reflexivity. }
  rewrite lookup_insert_ne by congruence.
  destruct (argv !! key); [apply (IH _ Hw')|].
  rewrite setKey_insert by exact Hkey.
  destruct (setKey fl key d argv) as [a1| |]; cbn [mbind outcome_bind];
    try reflexivity.
  rewrite setKeys_insert
    by (intros Hin; apply (Hw key); [left; reflexivity|right; exact Hin]).
  destruct (setKeys fl _ d a1) as [a2| |]; cbn [mbind outcome_bind];
    try reflexivity.
  apply (IH _ Hw').
Qed.

(** minimist on arguments without dashes: what it gives for no argument,
    with the arguments as positionals. *)
Lemma minimist_plain_insert opts args base :
  schema_ok opts = true ->
  Forall (fun arg => dashed arg = false) args ->
  minimist [] opts = Return base ->
  minimist args opts
  = Return (<["_" := VArr (map (positional (build_flags opts)) args)]> base).
Proof.
  intros Hok Hp Hbase.
  destruct (plain_no_dashes args Hp) as (Eb & Ea).
  rewrite (minimist_unfold opts Hok) in Hbase |- *.
  destruct (presets_total opts Hok) as (argv0 & H0 & Ha0).
  rewrite H0 in Hbase |- *. cbn [mbind outcome_bind] in Hbase |- *.
  rewrite Eb, Ea. cbn [before_dashes after_dashes loop push_all] in Hbase.
  cbn [mbind outcome_bind] in Hbase.
  rewrite (loop_plain_insert _ _ _ [] Hp Ha0). cbn [mbind outcome_bind app].
  rewrite apply_defaults_insert.
  - destruct (apply_defaults _ _ _ argv0) as [a| |];
      cbn [mbind outcome_bind push_all] in Hbase |- *; try discriminate.
    injection Hbase as <-. reflexivity.
  - intros key Hkey.
    apply writes_not_positional, (default_writes opts Hok), Hkey.
Qed.

Lemma plain_parse options args base :
  schema_ok (tables options) = true ->
  Forall (fun arg => dashed arg = false) args ->
  minimistPrettyParse [] (Some options) None = Return base ->
  minimistPrettyParse args (Some options) None
  = Return (<["_" := VArr (map (positional (flags_of options)) args)]> base).
Proof.
  intros Hok Hp Hbase. pose proof (any_of_not_positional _ Hok) as Hany.
  revert Hbase. unfold minimistPrettyParse, minimist_options, flags_of.
  unfold tables, any_of in *.
  destruct (buildOptions options) as [m any]. cbn [fst snd] in *.
  intros Hbase. apply bind_return in Hbase as (b0 & Hb0 & Hbase).
  injection Hbase as <-.
  rewrite (minimist_plain_insert m args b0 Hok Hp Hb0).
  cbn [mbind outcome_bind]. f_equal. apply (normalize_insert _ _ _ _ Hany).
Qed.

(** X12.  Arguments none of which starts with a dash change nothing but
    the positionals: the result is the one of the empty command line, with
    the arguments in order as [_], those that read as numbers being
    numbers. *)
Theorem dashless_arguments_are_positionals
    (options : list (string * OptionSpec)) (args : list string)
    (base : obj) :
  schema_ok (tables options) = true ->
  Forall (fun arg => dashed arg = false) args ->
  minimistPrettyParse [] (Some options) None = Return base ->
  minimistPrettyParse args (Some options) None
  = Return (<["_" := VArr (map (positional (flags_of options)) args)]> base).
Proof. apply plain_parse. Qed.

Lemma dashless_arguments_are_positionals_witness :
  exists base,
    minimistPrettyParse [] (Some options) None = Return base
    /\ minimistPrettyParse ["file"; "10"] (Some options) None
       = Return (<["_" := VArr [PStr "file"; PNum "10"]]> base).
Proof.
  assert (F : field "_" (minimistPrettyParse [] (Some options) None)
              = Some (VArr [])) by (vm_compute; reflexivity).
  apply field_Some in F as (base & Hbase & _). exists base.
  split; [exact Hbase|].
  apply (dashless_arguments_are_positionals options ["file"; "10"] base).
  - vm_compute. reflexivity.
  - repeat constructor.
  - exact Hbase.
Defined.

(** ** The program *)

Import Cli.

Lemma triple_ret {A} (P : state -> Prop) (a : A) (Q : A -> state -> Prop) H :
  (forall s, P s -> Q a s) -> triple P (mret a) Q H.
Proof. intros HQ s HP. apply HQ, HP. Qed.

Lemma triple_bind {A B} P (m : M A) (f : A -> M B) R Q H :
  triple P m R H -> (forall a, triple (R a) (f a) Q H) ->
  triple P (m ≫= f) Q H.
Proof.
  intros Hm Hf s HP. specialize (Hm s HP). unfold mbind, M_bind.
  destruct (m s) as [s' [a|code|err|]]; try exact Hm.
  apply (Hf a s' Hm).
Qed.

Lemma triple_weaken {A} (P P' : state -> Prop) (m : M A)
    (Q Q' : A -> state -> Prop) H :
  triple P' m Q' H -> (forall s, P s -> P' s) ->
  (forall a s, Q' a s -> Q a s) -> triple P m Q H.
Proof.
  intros Hm HP HQ s Hs. specialize (Hm s (HP s Hs)).
  destruct (m s) as [s' [a|code|err|]]; try exact Hm. apply HQ, Hm.
Qed.

Lemma keeps_ret {A} I (a : A) : keeps I (mret a).
Proof. apply triple_ret. auto. Qed.

Lemma keeps_bind {A B} I (m : M A) (f : A -> M B) :
  keeps I m -> (forall a, keeps I (f a)) -> keeps I (m ≫= f).
Proof. intros Hm Hf. apply (triple_bind _ _ _ (fun _ => I)); assumption. Qed.

Lemma keeps_when I c m : keeps I m -> keeps I (when c m).
Proof. intros Hm. destruct c; [exact Hm|apply keeps_ret]. Qed.

Lemma keeps_for_each {A} I (xs : list A) f :
  (forall x, keeps I (f x)) -> keeps I (for_each xs f).
Proof.
  intros Hf. induction xs as [|x xs IH]; simpl; [apply keeps_ret|].
  apply keeps_bind; [apply Hf|intros _; exact IH].
Qed.

Lemma keeps_lift {A} I (o : outcome A) : keeps I (lift o).
Proof. intros s HI. unfold lift. destruct o; exact HI. Qed.

Lemma keeps_throw {A} I err : keeps I (@throw A err).
Proof. intros s HI. exact HI. Qed.

Lemma keeps_exit {A} I code : keeps I (@exit A code).
Proof. intros s HI. exact HI. Qed.

Lemma keeps_read I k : keeps I (read k).
Proof. intros s HI. exact HI. Qed.

Lemma unchosen_emit ev : keeps unchosen (emit ev).
Proof. intros s HI. exact HI. Qed.

Lemma unchosen_write k v : keeps unchosen (write k v).
Proof.
  intros s [Hn Hk]. split; [exact Hn|]. simpl.
  rewrite Forall_forall in *. intros x Hx.
  destruct (decide (k = x)) as [->|Hne].
  - rewrite lookup_insert_eq. eauto.
  - rewrite lookup_insert_ne by exact Hne. apply Hk, Hx.
Qed.

Lemma unchosen_push_args p xs : keeps unchosen (push_args p xs).
Proof.
  intros s HI. unfold push_args. destruct (oget p (playerArgs s)); exact HI.
Qed.

Lemma unchosen_set_subtitlesServer root :
  keeps unchosen (set_subtitlesServer root).
Proof. intros s HI. exact HI. Qed.

Lemma unchosen_set_torrentCount n : keeps unchosen (set_torrentCount n).
Proof. intros s HI. exact HI. Qed.

Lemma unchosen_set_expectedError : keeps unchosen set_expectedError.
Proof. intros s HI. exact HI. Qed.

Lemma unchosen_errorAndExit {A} text : keeps unchosen (@errorAndExit A text).
Proof.
  unfold errorAndExit.
  apply keeps_bind; [apply unchosen_emit|intros _].
  apply keeps_bind; [apply unchosen_set_expectedError|intros _].
  apply keeps_exit.
Qed.

Lemma unchosen_enableQuiet : keeps unchosen enableQuiet.
Proof.
  unfold enableQuiet.
  apply keeps_bind; [apply unchosen_write|intros _; apply unchosen_write].
Qed.

Lemma unchosen_checkPermission e v : keeps unchosen (checkPermission e v).
Proof.
  unfold checkPermission.
  destruct (executable_sync e v) as [[]|]; try apply keeps_ret;
    destruct (text_of v); try apply unchosen_errorAndExit;
    intros s HI; exact HI.
Qed.

Lemma unchosen_processInputs inputs fn :
  keeps unchosen (processInputs inputs fn).
Proof.
  unfold processInputs. destruct inputs as [|p|l]; try apply keeps_ret.
  destruct (Nat.ltb 1 (length l)); [|apply unchosen_emit].
  apply keeps_bind.
  - apply keeps_for_each. intros arg.
    apply keeps_bind; [apply keeps_read|intros v].
    apply keeps_when, unchosen_errorAndExit.
  - intros _. apply keeps_bind; [apply unchosen_set_torrentCount|intros _].
    apply unchosen_enableQuiet.
Qed.

Lemma unchosen_cb c : keeps unchosen (cb c).
Proof.
  unfold cb.
  destruct (oget c callbacks) as [f|] eqn:E; [|apply keeps_throw].
  unfold callbacks in E. simpl in E.
  repeat match type of E with
         | (if ?b then _ else _) = _ => destruct b
         end;
    try discriminate; injection E as <-;
    repeat first
      [ apply unchosen_emit
      | apply unchosen_processInputs
      | apply keeps_bind; [apply keeps_read|intros ?]
      | match goal with |- keeps _ (if ?b then _ else _) => destruct b end ].
Qed.

Lemma selected_all (r : obj) :
  Forall (fun k => is_Some (r !! k)) streaming ->
  selectedPlayers r = streaming.
Proof.
  intros H. unfold selectedPlayers.
  induction H as [|k l Hk Hl IH]; [reflexivity|].
  simpl. rewrite bool_decide_eq_true_2 by exact Hk. f_equal. exact IH.
Qed.

Lemma unchosen_main e : keeps unchosen (main e).
Proof.
  unfold main.
  apply keeps_bind; [apply keeps_read|intros help].
  apply keeps_bind; [apply keeps_read|intros version].
  destruct (truthy help || truthy version); [apply unchosen_emit|].
  apply keeps_bind; [apply keeps_read|intros omx].
  apply keeps_bind; [apply unchosen_push_args|intros _].
  apply keeps_bind; [apply keeps_when, unchosen_push_args|intros _].
  apply keeps_bind; [apply keeps_read|intros stdout].
  apply keeps_bind; [apply keeps_when, unchosen_enableQuiet|intros _].
  apply keeps_bind; [apply keeps_read|intros positionals].
  apply keeps_bind; [apply keeps_lift|intros command].
  (* the choice of the player *)
  apply (triple_bind _ _ _ (fun a s => unchosen s /\ a = argv s)).
  { intros s HI. split; [exact HI|reflexivity]. }
  intros args.
  apply (triple_bind _ _ _ (fun _ => unchosen)).
  { intros s [[Hn Hk] ->]. rewrite (selected_all _ Hk).
    split; [reflexivity|exact Hk]. }
  intros _.
  apply keeps_bind; [apply keeps_read|intros subtitles].
  apply keeps_bind.
  { apply keeps_when.
    repeat (apply keeps_bind; [apply unchosen_push_args|intros _]).
    destruct subtitles as [|[b|path|lit]|l];
      try apply keeps_throw; apply unchosen_set_subtitlesServer. }
  intros _.
  apply keeps_bind; [apply keeps_read|intros pip].
  apply keeps_bind; [apply keeps_when, unchosen_push_args|intros _].
  apply keeps_bind; [apply keeps_read|intros notOnTop].
  apply keeps_bind.
  { apply keeps_when.
    repeat (apply keeps_bind; [apply unchosen_push_args|intros _]).
    apply unchosen_push_args. }
  intros _.
  apply keeps_bind; [apply keeps_read|intros onDone].
  apply keeps_bind.
  { apply keeps_when.
    apply keeps_bind; [apply unchosen_checkPermission|intros _].
    destruct (realpathSync e onDone); [apply keeps_throw|].
    apply keeps_bind; [apply unchosen_write|intros _; apply unchosen_write]. }
  intros _.
  apply keeps_bind; [apply keeps_read|intros onExit].
  apply keeps_bind.
  { apply keeps_when.
    apply keeps_bind; [apply unchosen_checkPermission|intros _].
    destruct (realpathSync e onExit); [apply keeps_throw|].
    apply keeps_bind; [apply unchosen_write|intros _; apply unchosen_write]. }
  intros _.
  apply keeps_bind; [intros s HI; exact HI|intros name].
  apply keeps_bind; [apply keeps_read|intros given].
  apply keeps_bind.
  { destruct name as [player|]; [|apply keeps_ret].
    apply keeps_when.
    destruct given as [|[b|text|lit]|l];
      try apply keeps_throw; apply unchosen_push_args. }
  intros _.
  destruct command as [|[b|c|lit]|l]; try apply unchosen_cb.
  destruct (bool_decide _); apply unchosen_cb.
Qed.

Lemma parsed_unchosen args r s :
  minimistPrettyParse args (Some options) (Some commands) = Return r ->
  playerName s = None ->
  unchosen (fst (set_argv r s)).
Proof.
  intros Hr Hn. split; [exact Hn|]. simpl.
  apply Forall_forall. intros k Hk. apply list_elem_of_In in Hk.
  apply (flags_there options (Some commands) args r k); [|exact Hr].
  unfold streaming in Hk. simpl in Hk.
  repeat (destruct Hk as [<-|Hk];
          [first [left; vm_compute; reflexivity
                 |right; split; [vm_compute; tauto|discriminate]]|]).
  destruct Hk.
Qed.

(** X13.  [main] never chooses a player: the ten keys of
    [options.streaming] are properties of every result of the parse, so
    [selectedPlayers] (line 1804) never has exactly one element, and
    [playerName] names no player when the module has run, whatever the
    arguments and the environment. *)
Theorem player_name_never_chosen (e : env) (args : list string) :
  playerName (fst (webtorrent e args)) = None.
Proof.
  unfold webtorrent, parse_argv.
  destruct (minimistPrettyParse args (Some options) (Some commands))
    as [r|err|] eqn:Hr; [|reflexivity|reflexivity].
  unfold mbind, M_bind.
  change (set_argv r loaded)
    with (fst (set_argv r loaded), @Go unit tt).
  pose proof (parsed_unchosen args r loaded Hr eq_refl) as HI.
  pose proof (keeps_when unchosen (is_main e) (main e) (unchosen_main e)
                _ HI) as H.
  destruct (when (is_main e) (main e) (fst (set_argv r loaded)))
    as [s' [a|code|err|]]; apply H.
Qed.

(** X14.  An error of the parse ends the program at once: [main] is not
    entered, the only line written is the error in red, the exit status is
    1, and since the error is marked as expected the listener of the [exit]
    event adds nothing. *)
Theorem usage_error_exits
    (e : env) (info : string) (args : list string) (err : js_error) :
  minimistPrettyParse args (Some options) (Some commands) = Throw err ->
  finish info (webtorrent e args)
  = ({| argv := ∅; playerArgs := playerArgs loaded; playerName := None;
        subtitlesServer := None; torrentCount := 1; expectedError := true;
        trace := [Line ("{red:Error:} " +:+ error_text err)] |}, Exit 1).
Proof.
  intros H. unfold webtorrent, parse_argv. rewrite H. reflexivity.
Qed.

Lemma usage_error_exits_witness :
  finish "info" (webtorrent plain_env ["seed"; "--quiet"])
  = ({| argv := ∅; playerArgs := playerArgs loaded; playerName := None;
        subtitlesServer := None; torrentCount := 1; expectedError := true;
        trace := [Line "{red:Error:} 'inputs' is required for 'seed' command"]
     |}, Exit 1).
Proof.
  apply (usage_error_exits plain_env "info" ["seed"; "--quiet"]
           (Error "'inputs' is required for 'seed' command")).
  vm_compute. reflexivity.
Defined.

(** ** [main] on a result without options that make it stop *)

Lemma steps_then {A B} I (m : M A) (f : A -> M B) Q R H :
  steps I m Q -> (forall a, Q a -> triple I (f a) R H) ->
  triple I (m ≫= f) R H.
Proof.
  intros Hm Hf s HI. specialize (Hm s HI). unfold mbind, M_bind.
  destruct (m s) as [s' [a|code|err|]]; try contradiction.
  destruct Hm as [HI' HQ]. apply (Hf a HQ s' HI').
Qed.

Section Prepared.

Variable r : obj.
Variable t : list event.
Variable n : nat.

Local Abbreviation Inv := (prepared r t n).

Lemma prepared_read k :
  k <> "q" -> k <> "quiet" -> steps Inv (read k) (fun v => v = get k r).
Proof.
  intros Hq Hquiet s HI. split; [exact HI|].
  destruct HI as (_ & _ & Hk & _). unfold get. rewrite (Hk k Hq Hquiet).
  reflexivity.
Qed.

Lemma prepared_push_args p xs :
  In p players -> steps Inv (push_args p xs) (fun _ => True).
Proof.
  intros Hp s (Ht & Hn & Hk & Hpl & Hex). unfold push_args.
  pose proof Hpl as Hpl'. rewrite Forall_forall in Hpl'.
  destruct (Hpl' p (proj2 (list_elem_of_In _ _) Hp)) as [l Hl]. rewrite Hl.
  split; [|exact I]. repeat split; try assumption. simpl.
  apply Forall_forall. intros q Hq.
  specialize (Hpl' q Hq). destruct Hpl' as [lq Hlq].
  destruct (decide (q = p)) as [->|Hne].
  - rewrite oget_oput_eq. eauto.
  - rewrite oget_oput_ne by congruence. eauto.
Qed.

Lemma prepared_quiet_write k v :
  k = "q" \/ k = "quiet" -> steps Inv (write k v) (fun _ => True).
Proof.
  intros Hk s (Ht & Hn & Hr & Hpl & Hex). split; [|exact I].
  repeat split; try assumption. simpl. intros k' Hq Hquiet.
  rewrite lookup_insert_ne by (destruct Hk; congruence). apply Hr; assumption.
Qed.

Lemma prepared_enableQuiet : steps Inv enableQuiet (fun _ => True).
Proof.
  unfold enableQuiet.
  apply (steps_then _ _ _ (fun _ => True));
    [apply prepared_quiet_write; left; reflexivity|intros _ _].
  apply prepared_quiet_write. right. reflexivity.
Qed.

Lemma steps_when c m :
  steps Inv m (fun _ => True) -> steps Inv (when c m) (fun _ => True).
Proof.
  intros Hm. destruct c; [exact Hm|]. intros s HI. split; [exact HI|exact I].
Qed.

Lemma steps_skip m : steps Inv (when false m) (fun _ => True).
Proof. intros s HI. split; [exact HI|exact I]. Qed.

End Prepared.

Section Prepared2.

Variable r : obj.
Variable t : list event.
Variable n : nat.

Local Abbreviation Inv := (prepared r t n).

Lemma prepared_peek {A} (f : state -> A) :
  steps Inv (fun s => (s, Go (f s))) (fun _ => True).
Proof. intros s HI. split; [exact HI|exact I]. Qed.

Lemma prepared_set_playerName p : steps Inv (set_playerName p) (fun _ => True).
Proof.
  intros s (Ht & Hn & Hk & Hpl & Hex). split; [|exact I].
  repeat split; assumption.
Qed.

Lemma prepared_lift {A} (o : outcome A) a :
  o = Return a -> steps Inv (lift o) (fun x => x = a).
Proof. intros -> s HI. split; [exact HI|reflexivity]. Qed.

Lemma steps_seq {A} (m : M A) Q (Q' : A -> Prop) :
  steps Inv m Q -> (forall a, Q a -> Q' a) -> steps Inv m Q'.
Proof.
  intros Hm HQ s HI. specialize (Hm s HI).
  destruct (m s) as [s' [a|code|err|]]; try contradiction.
  destruct Hm as [HI' Ha]. split; [exact HI'|apply HQ, Ha].
Qed.

Lemma steps_unit_then {B} (m : M unit) (k : M B) R H :
  steps Inv m (fun _ => True) -> triple Inv k R H ->
  triple Inv (m ≫= fun _ => k) R H.
Proof.
  intros Hm Hk. apply (steps_then _ _ _ (fun _ => True)); [exact Hm|].
  intros _ _. exact Hk.
Qed.

Lemma steps_read_then {B} k (f : value -> M B) R H :
  k <> "q" -> k <> "quiet" ->
  triple Inv (f (get k r)) R H -> triple Inv (read k ≫= f) R H.
Proof.
  intros Hq Hquiet Hf.
  apply (steps_then _ _ _ (fun v => v = get k r));
    [apply prepared_read; assumption|].
  intros v ->. exact Hf.
Qed.

(** [main] on a result in which nothing asks for help, a version,
    subtitles, a script or arguments of a player: it reaches the function
    of the command. *)
Lemma main_dispatches e l Q H :
  r !! "_" = Some (VArr l) ->
  truthy (get "help" r) = false -> truthy (get "version" r) = false ->
  truthy (get "subtitles" r) = false ->
  truthy (get "onDone" r) = false -> truthy (get "onExit" r) = false ->
  truthy (get "playerArgs" r) = false ->
  triple Inv (cb (resolved commands l)) Q H ->
  triple Inv (main e) Q H.
Proof.
  intros Hl Hhelp Hversion Hsub Hdone Hexit Hgiven Hcb. unfold main.
  apply steps_read_then; [discriminate..|].
  apply steps_read_then; [discriminate..|].
  rewrite Hhelp, Hversion. cbn [orb].
  apply steps_read_then; [discriminate..|].
  apply steps_unit_then.
  { apply prepared_push_args. unfold players. simpl. tauto. }
  apply steps_unit_then.
  { apply steps_when, prepared_push_args. unfold players. simpl. tauto. }
  apply steps_read_then; [discriminate..|].
  apply steps_unit_then; [apply steps_when, prepared_enableQuiet|].
  apply steps_read_then; [discriminate..|].
  rewrite (get_lookup _ _ _ Hl).
  apply (steps_then _ _ _ (fun v => v = match l !! 0 with
                                        | Some p => VPrim p
                                        | None => VUndef
                                        end));
    [apply prepared_lift; reflexivity|intros command ->].
  apply (steps_then _ _ _ (fun _ => True)); [apply prepared_peek|intros args _].
  apply steps_unit_then; [apply prepared_set_playerName|].
  apply steps_read_then; [discriminate..|].
  rewrite Hsub. apply steps_unit_then; [apply steps_skip|].
  apply steps_read_then; [discriminate..|].
  apply steps_unit_then.
  { apply steps_when, prepared_push_args. unfold players. simpl. tauto. }
  apply steps_read_then; [discriminate..|].
  apply steps_unit_then.
  { apply steps_when.
    apply steps_unit_then;
      [apply prepared_push_args; unfold players; simpl; tauto|].
    apply steps_unit_then;
      [apply prepared_push_args; unfold players; simpl; tauto|].
    apply prepared_push_args; unfold players; simpl; tauto. }
  apply steps_read_then; [discriminate..|].
  rewrite Hdone. apply steps_unit_then; [apply steps_skip|].
  apply steps_read_then; [discriminate..|].
  rewrite Hexit. apply steps_unit_then; [apply steps_skip|].
  apply (steps_then _ _ _ (fun _ => True)); [apply prepared_peek|intros name _].
  apply steps_read_then; [discriminate..|].
  rewrite Hgiven. apply steps_unit_then.
  { destruct name; [apply steps_skip|]. intros s HI. split; [exact HI|exact I]. }
  revert Hcb. unfold resolved, names_command.
  destruct l as [|[b|c|lit] l']; cbn [lookup list_lookup default]; try (intros X; exact X).
  destruct (bool_decide (is_Some (commands !! c))); intros X; exact X.
Qed.

End Prepared2.

(** ** The functions of the commands *)

(** The scan of [processInputs] for an argument it refuses. *)
Lemma refused_scan (text : string -> string) (xs : list string) s :
  for_each xs (fun arg =>
                 v ← read arg; when (truthy v) (errorAndExit (text arg))) s
  = match List.find (fun arg => truthy (get arg (argv s))) xs with
    | Some arg => errorAndExit (text arg) s
    | None => (s, Go tt)
    end.
Proof.
  induction xs as [|x xs IH]; [reflexivity|].
  cbn [for_each List.find]. unfold mbind, M_bind, read. cbv beta iota.
  destruct (truthy (get x (argv s))) eqn:E; cbn [when].
  - unfold errorAndExit, mbind, M_bind, emit, set_expectedError, exit.
    reflexivity.
  - unfold mret, M_ret. exact IH.
Qed.

Section Prepared3.

Variable r : obj.
Variable t : list event.
Variable n : nat.

Lemma prepared_for_each {A} (xs : list A) (f : A -> M unit) :
  (forall x, In x xs -> steps (prepared r t n) (f x) (fun _ => True)) ->
  steps (prepared r t n) (for_each xs f) (fun _ => True).
Proof.
  induction xs as [|x xs IH]; intros Hf.
  - intros s HI. split; [exact HI|exact I].
  - cbn [for_each]. apply steps_unit_then; [apply Hf; left; reflexivity|].
    apply IH. intros y Hy. apply Hf. right. exact Hy.
Qed.

(** [processInputs] when [argv] holds none of the arguments it refuses:
    one input is handed to [fn], several are counted. *)
Lemma prepared_processInputs l fn :
  Forall (fun k => truthy (get k r) = false) invalidArguments ->
  triple (prepared r t n) (processInputs (VArr l) fn)
    (fun _ s =>
       if Nat.ltb 1 (length l)
       then prepared r t (length l) s /\ get "quiet" (argv s) = vtrue
       else prepared r (t ++ [Call fn (match l !! 0 with
                                       | Some p => VPrim p
                                       | None => VUndef
                                       end)]) n s)
    (fun _ _ => False).
Proof.
  intros Hinv. unfold processInputs.
  destruct (Nat.ltb 1 (length l)) eqn:El.
  - eapply triple_bind with (R := fun _ => prepared r t n).
    + eapply triple_weaken; [apply prepared_for_each| |].
      * intros arg Harg. apply steps_read_then.
        -- intros ->. revert Harg. unfold invalidArguments. simpl.
           intuition discriminate.
        -- intros ->. revert Harg. unfold invalidArguments. simpl.
           intuition discriminate.
        -- rewrite Forall_forall in Hinv.
           rewrite (Hinv arg (proj2 (list_elem_of_In _ _) Harg)).
           apply steps_skip.
      * auto.
      * intros _ s [HI _]. exact HI.
    + intros _ s (Ht & Hn & Hk & Hpl & Hex). unfold mbind, M_bind. simpl.
      split; [|unfold get; rewrite lookup_insert_eq; reflexivity].
      repeat split; try assumption. simpl. intros k Hq Hquiet.
      rewrite !lookup_insert_ne by congruence. apply Hk; assumption.
  - intros s (Ht & Hn & Hk & Hpl & Hex). simpl.
    repeat split; try assumption. simpl. rewrite Ht. reflexivity.
Qed.

End Prepared3.

(** The parse of no argument at all: the options that stop [main] or
    [processInputs] are off, and no command argument is bound. *)
Lemma base_parse :
  exists base, minimistPrettyParse [] (Some options) None = Return base
    /\ Forall (fun k => truthy (get k base) = false) idle_keys.
Proof.
  assert (F : forallb (fun k =>
                match field k (minimistPrettyParse [] (Some options) None) with
                | Some v => negb (truthy v)
                | None => true
                end) idle_keys = true) by (vm_compute; reflexivity).
  assert (G : field "_" (minimistPrettyParse [] (Some options) None)
              = Some (VArr [])) by (vm_compute; reflexivity).
  destruct (minimistPrettyParse [] (Some options) None) as [base| |];
    try discriminate G.
  exists base. split; [reflexivity|].
  rewrite forallb_forall in F. apply Forall_forall. intros k Hk.
  specialize (F k (proj1 (list_elem_of_In _ _) Hk)). unfold field in F.
  unfold get. destruct (base !! k) as [v|]; [|reflexivity].
  change (truthy v = false). destruct (truthy v); [discriminate F|reflexivity].
Qed.

(** ** From the arguments to the function of the command *)

Lemma bind_variadic c preset tok n (r : obj) l :
  Template.matches tok = true -> Template.name tok = Some n ->
  Template.isArray tok = true -> n <> "__proto__" ->
  r !! "_" = Some (VArr l) ->
  bind_tokens c preset [tok] 0 false r
  = match drop preset l with
    | [] => if Template.isRequired tok
            then Throw (Error (required_variadic n c))
            else Return (mirrored n r)
    | rest => Return (mirrored n (<[n := VArr rest]> r))
    end.
Proof.
  intros Hm Hn Ha Hp Hl. unfold bind_tokens, bind_token.
  rewrite Hm, Hn, Ha. rewrite (get_lookup _ _ _ Hl).
  cbn [andb orb negb js_slice js_length Nat.add mbind outcome_bind].
  destruct (drop preset l) as [|x rest] eqn:Ed.
  - cbn [length length_above Nat.ltb Nat.leb].
    destruct (Template.isRequired tok); [reflexivity|].
    cbn [mbind outcome_bind]. rewrite mirror_returns. reflexivity.
  - cbn [length length_above Nat.ltb Nat.leb].
    rewrite (assign_plain _ _ _ Hp). cbn [mbind outcome_bind].
    rewrite mirror_returns. destruct (Template.isRequired tok); reflexivity.
Qed.

Lemma bind_single c preset tok n (r : obj) l :
  Template.matches tok = true -> Template.name tok = Some n ->
  Template.isArray tok = false -> Template.isRequired tok = true ->
  n <> "__proto__" -> r !! "_" = Some (VArr l) ->
  bind_tokens c preset [tok] 0 false r
  = if Nat.ltb (S preset) (length l) then Throw (Error (too_many c))
    else match l !! preset with
         | Some x => if prim_truthy x
                     then Return (mirrored n (<[n := VPrim x]> r))
                     else Throw (Error (required_argument n c))
         | None => Throw (Error (required_argument n c))
         end.
Proof.
  intros Hm Hn Ha Hreq Hp Hl. unfold bind_tokens, bind_token.
  rewrite Hm, Hn, Ha, Hreq. rewrite (get_lookup _ _ _ Hl).
  cbn [andb orb negb js_length js_index Nat.add mbind outcome_bind
       length_above].
  replace (preset + 1) with (S preset) by lia.
  destruct (Nat.ltb (S preset) (length l)); [reflexivity|].
  destruct (l !! preset) as [x|]; cbn [truthy]; [|reflexivity].
  destruct (prim_truthy x); [|reflexivity].
  rewrite (assign_plain _ _ _ Hp). cbn [mbind outcome_bind].
  rewrite mirror_returns. reflexivity.
Qed.

Lemma mirrored_other n (r : obj) k :
  k <> Camel.camelCase n -> mirrored n r !! k = r !! k.
Proof.
  intros H. unfold mirrored. destruct (Camel.is_multiword n); [|reflexivity].
  apply lookup_insert_ne. congruence.
Qed.

(** What a template of one token leaves of the result it is given. *)
Lemma bound_other n v (r : obj) k :
  String.eqb k n = false -> String.eqb k (Camel.camelCase n) = false ->
  get k (mirrored n (<[n := v]> r)) = get k r.
Proof.
  intros H1 H2. apply String.eqb_neq in H1, H2. unfold get.
  rewrite mirrored_other by exact H2.
  rewrite lookup_insert_ne by congruence. reflexivity.
Qed.

Lemma bound_camel n v (r : obj) :
  Camel.is_multiword n = true ->
  get (Camel.camelCase n) (mirrored n (<[n := v]> r)) = v.
Proof.
  intros Em. unfold get, mirrored. rewrite Em.
  rewrite lookup_insert_eq. unfold get. rewrite lookup_insert_eq.
  reflexivity.
Qed.

Lemma bound_own n v (r : obj) : get n (mirrored n (<[n := v]> r)) = v.
Proof.
  unfold get at 1. rewrite (mirrored_own n _ v); [reflexivity|].
  apply lookup_insert_eq.
Qed.

Lemma positional_text fl a s : positional fl a = PStr s -> s = a.
Proof.
  unfold positional. destruct (_ || _); [|discriminate].
  intros E. injection E as <-. reflexivity.
Qed.

(** The first argument names no command. *)
Lemma plain_default fl args :
  (forall a, head args = Some a -> commands !! a = None) ->
  names_command commands (map (positional fl) args) = None.
Proof.
  intros H. destruct args as [|a args]; [reflexivity|].
  cbn [map names_command]. destruct (positional fl a) as [b|s|lit] eqn:E;
    try reflexivity.
  apply positional_text in E as ->.
  rewrite (H a eq_refl). reflexivity.
Qed.

(** The run of the module on arguments without dashes: the parse without
    the templates is the one of no argument with its positionals; when the
    templates return a result with the options that stop [main] still off,
    [main] hands over to the function of the command. *)
Lemma plain_run e args (f : obj -> obj) (Q : state -> Prop) :
  is_main e = true ->
  Forall (fun arg => dashed arg = false) args ->
  (forall base,
     minimistPrettyParse [] (Some options) None = Return base ->
     Forall (fun k => truthy (get k base) = false) idle_keys ->
     parseTemplates commands
       (<["_" := VArr (map (positional (flags_of options)) args)]> base)
     = Return (f base)
     /\ f base !! "_"
        = Some (VArr (map (positional (flags_of options)) args))
     /\ Forall (fun k => truthy (get k (f base)) = false)
               ["help"; "version"; "subtitles"; "onDone"; "onExit";
                "playerArgs"]
     /\ triple (prepared (f base) [] 1)
          (cb (resolved commands (map (positional (flags_of options)) args)))
          (fun _ => Q) (fun _ _ => False)) ->
  exists s, webtorrent e args = (s, Go tt) /\ Q s.
Proof.
  intros He Hp Hr. destruct base_parse as (base & Hbase & Hidle).
  destruct (Hr base Hbase Hidle) as (Ht & Hl & Hoff & Hcb).
  assert (Hparse : minimistPrettyParse args (Some options) (Some commands)
                   = Return (f base)).
  { rewrite parse_split.
    rewrite (plain_parse options args base eq_refl Hp Hbase). exact Ht. }
  unfold webtorrent, parse_argv. rewrite Hparse, He. cbn [when].
  unfold mbind at 1, M_bind at 1. cbn [set_argv].
  rewrite Forall_forall in Hoff.
  assert (Hmain : triple (prepared (f base) [] 1) (main e) (fun _ => Q)
                    (fun _ _ => False)).
  { apply (main_dispatches (f base) [] 1 e _ _ _ Hl); try exact Hcb;
      apply Hoff, list_elem_of_In; simpl; tauto. }
  match goal with
  | |- exists s, main e ?s0 = _ /\ _ => specialize (Hmain s0)
  end.
  match type of Hmain with
  | ?P -> _ => assert (HP : P)
  end.
  { repeat split; try reflexivity.
    apply Forall_forall. intros p Hp'. apply list_elem_of_In in Hp'.
    unfold players in Hp'. simpl in Hp'.
    repeat (destruct Hp' as [<-|Hp']; [eexists; reflexivity|]).
    destruct Hp'. }
  specialize (Hmain HP).
  destruct (main e _) as [s' [[]|code|err|]]; try contradiction.
  exists s'. split; [reflexivity|exact Hmain].
Qed.

Lemma idle_key k (r : obj) :
  Forall (fun k => truthy (get k r) = false) idle_keys ->
  In k idle_keys -> truthy (get k r) = false.
Proof.
  intros H Hk. rewrite Forall_forall in H.
  apply H, list_elem_of_In, Hk.
Qed.

(** The options that are off without arguments are off in a result that
    differs from that parse in the positionals and in what a template
    binds. *)
Lemma off_after n (r base : obj) keys :
  (forall k, String.eqb k n = false ->
             String.eqb k (Camel.camelCase n) = false ->
             String.eqb k "_" = false -> get k r = get k base) ->
  Forall (fun k => truthy (get k base) = false) idle_keys ->
  forallb (fun k => existsb (String.eqb k) idle_keys
                    && negb (String.eqb k n)
                    && negb (String.eqb k (Camel.camelCase n))
                    && negb (String.eqb k "_")) keys = true ->
  Forall (fun k => truthy (get k r) = false) keys.
Proof.
  intros Hr Hidle Hk. apply Forall_forall. intros k Hin.
  rewrite forallb_forall in Hk.
  specialize (Hk k (proj1 (list_elem_of_In _ _) Hin)).
  apply andb_prop in Hk as [Hk H3]. apply andb_prop in Hk as [Hk H2].
  apply andb_prop in Hk as [Hk H1].
  apply negb_true_iff in H1, H2, H3. rewrite (Hr k H1 H2 H3).
  rewrite Forall_forall in Hidle. apply Hidle, list_elem_of_In.
  apply existsb_exists in Hk as (k' & Hk' & E).
  apply String.eqb_eq in E as ->. exact Hk'.
Qed.

Lemma bound_agrees n v x (base : obj) k :
  String.eqb k n = false -> String.eqb k (Camel.camelCase n) = false ->
  String.eqb k "_" = false ->
  get k (mirrored n (<[n := v]> (<["_" := x]> base))) = get k base.
Proof.
  intros H1 H2 H3. rewrite (bound_other _ _ _ _ H1 H2).
  apply String.eqb_neq in H3. unfold get.
  rewrite lookup_insert_ne by congruence. reflexivity.
Qed.

Lemma unbound_agrees n x (base : obj) k :
  String.eqb k n = false -> String.eqb k (Camel.camelCase n) = false ->
  String.eqb k "_" = false ->
  get k (mirrored n (<["_" := x]> base)) = get k base.
Proof.
  intros H1 H2 H3. apply String.eqb_neq in H2, H3. unfold get.
  rewrite mirrored_other by exact H2.
  rewrite lookup_insert_ne by congruence. reflexivity.
Qed.

Lemma bound_positionals n v x (base : obj) :
  String.eqb "_" n = false -> String.eqb "_" (Camel.camelCase n) = false ->
  mirrored n (<[n := v]> (<["_" := x]> base)) !! "_" = Some x.
Proof.
  intros H1 H2. apply String.eqb_neq in H1, H2.
  rewrite mirrored_other by exact H2.
  rewrite lookup_insert_ne by congruence. apply lookup_insert_eq.
Qed.

Lemma unbound_positionals n x (base : obj) :
  String.eqb "_" (Camel.camelCase n) = false ->
  mirrored n (<["_" := x]> base) !! "_" = Some x.
Proof.
  intros H2. apply String.eqb_neq in H2.
  rewrite mirrored_other by exact H2. apply lookup_insert_eq.
Qed.

Ltac each_input H :=
  unfold input_commands in H; simpl in H;
  repeat (destruct H as [H|H]; [injection H as <- <- <- <- <-|]);
  [| | | |destruct H].

Lemma templates_of_inputs c tok n key fn (r : obj) l :
  In (c, tok, n, key, fn) input_commands ->
  r !! "_" = Some (VArr l) -> resolved commands l = c ->
  parseTemplates commands r
  = match drop (preset_of commands l) l with
    | [] => if Template.isRequired tok
            then Throw (Error (required_variadic n c))
            else Return (mirrored n r)
    | rest => Return (mirrored n (<[n := VArr rest]> r))
    end.
Proof.
  intros Hin Hl Hres.
  assert (Hone : one_token commands c tok n
                 /\ Template.isArray tok = true /\ n <> "__proto__").
  { each_input Hin;
      (split; [eexists; repeat split; vm_compute; reflexivity|];
       split; [vm_compute; reflexivity|discriminate]). }
  destruct Hone as (Hone & Ha & Hp).
  rewrite (parseTemplates_one_token _ c tok n r l Hone Hres Hl).
  destruct Hone as (spec & _ & _ & _ & Hm & Hn).
  apply (bind_variadic _ _ _ _ _ _ Hm Hn Ha Hp Hl).
Qed.

Lemma cb_default :
  cb "*" = (ids ← read "torrentIds";
            if truthy ids then processInputs ids runDownload
            else emit (Call runHelp VUndef)).
Proof. reflexivity. Qed.

Lemma cb_inputs c tok n key fn (r : obj) t k Q H :
  In (c, tok, n, key, fn) input_commands ->
  truthy (get key r) = true ->
  triple (prepared r t k) (processInputs (get key r) fn) Q H ->
  triple (prepared r t k) (cb c) Q H.
Proof.
  intros Hin Htrue Hp. each_input Hin.
  - rewrite cb_default. apply steps_read_then; [discriminate..|].
    rewrite Htrue. exact Hp.
  - change (cb "download")
      with (ids ← read "torrentIds"; processInputs ids runDownload).
    apply steps_read_then; [discriminate..|]. exact Hp.
  - change (cb "downloadmeta")
      with (ids ← read "torrentIds"; processInputs ids runDownloadMeta).
    apply steps_read_then; [discriminate..|]. exact Hp.
  - change (cb "seed")
      with (inputs ← read "inputs"; processInputs inputs runSeed).
    apply steps_read_then; [discriminate..|]. exact Hp.
Qed.

Lemma key_bound c tok n key fn v (r : obj) :
  In (c, tok, n, key, fn) input_commands ->
  get key (mirrored n (<[n := v]> r)) = v.
Proof.
  intros Hin. each_input Hin;
    first [apply (bound_camel "torrent-ids"); reflexivity|apply bound_own].
Qed.

(** A command that takes inputs, on arguments without dashes of which
    [inputs], not empty, are the ones after the name of the command. *)
Lemma inputs_run e c tok n key fn args inputs :
  is_main e = true ->
  In (c, tok, n, key, fn) input_commands ->
  Forall (fun arg => dashed arg = false) args ->
  resolved commands (map (positional (flags_of options)) args) = c ->
  drop (preset_of commands (map (positional (flags_of options)) args))
       (map (positional (flags_of options)) args) = inputs ->
  inputs <> [] ->
  exists s, webtorrent e args = (s, Go tt)
    /\ match inputs with
       | [x] => trace s = [Call fn (VPrim x)] /\ torrentCount s = 1
       | _ => trace s = [] /\ torrentCount s = length inputs
              /\ get "quiet" (argv s) = vtrue
       end.
Proof.
  intros He Hin Hp Hres Hdrop Hne.
  apply (plain_run e args
           (fun base =>
              mirrored n
                (<[n := VArr inputs]>
                   (<["_" := VArr (map (positional (flags_of options)) args)]>
                      base))));
    [exact He|exact Hp|]. intros base Hbase Hidle.
  split; [|split; [|split]].
  - rewrite (templates_of_inputs c tok n key fn _ _ Hin
               (lookup_insert_eq _ _ _) Hres).
    rewrite Hdrop. destruct inputs; [contradiction|reflexivity].
  - apply bound_positionals; each_input Hin; reflexivity.
  - apply (off_after n _ base); [|exact Hidle|each_input Hin; reflexivity].
    intros k. apply bound_agrees.
  - rewrite Hres. apply (cb_inputs c tok n key fn _ _ _ _ _ Hin);
      rewrite (key_bound c tok n key fn _ _ Hin); [reflexivity|].
    assert (Hoff : Forall (fun k =>
                truthy (get k (mirrored n
                  (<[n := VArr inputs]>
                     (<["_" := VArr (map (positional (flags_of options)) args)]>
                        base)))) = false) invalidArguments).
    { apply (off_after n _ base);
        [|exact Hidle|each_input Hin; reflexivity].
      intros k. apply bound_agrees. }
    eapply triple_weaken;
      [exact (prepared_processInputs _ [] 1 inputs fn Hoff)|auto|].
    intros [] s. cbv beta.
    destruct inputs as [|x [|y inputs]]; [contradiction| |].
    + cbn [length Nat.ltb Nat.leb lookup list_lookup].
      intros (Ht & Hn & _). rewrite Ht. split; [reflexivity|exact Hn].
    + cbn [length Nat.ltb Nat.leb].
      intros [(Ht & Hn & _) Hq]. repeat split; assumption.
Qed.

Lemma drop_head {A} (x : A) l : drop 1 (x :: l) = l.
Proof. reflexivity. Qed.

(** X15.  Without a command and without options, the program shows the
    help when it has no argument, downloads the torrent when it has one,
    and with several only counts them and turns [quiet] on: the trace is
    empty, no torrent is handed to [runDownload]. *)
Theorem default_command_dispatch (e : env) (args : list string) :
  is_main e = true ->
  Forall (fun arg => dashed arg = false) args ->
  (forall a, head args = Some a -> commands !! a = None) ->
  exists s, webtorrent e args = (s, Go tt)
    /\ match args with
       | [] => trace s = [Call runHelp VUndef] /\ torrentCount s = 1
       | [a] =>
           trace s
           = [Call runDownload (VPrim (positional (flags_of options) a))]
           /\ torrentCount s = 1
       | _ :: _ :: _ =>
           trace s = [] /\ torrentCount s = length args
           /\ get "quiet" (argv s) = vtrue
       end.
Proof.
  intros He Hp Hhead.
  pose proof (plain_default (flags_of options) args Hhead) as Hnone.
  assert (Hres : resolved commands (map (positional (flags_of options)) args)
                 = "*") by (unfold resolved; rewrite Hnone; reflexivity).
  assert (Hpre : preset_of commands (map (positional (flags_of options)) args)
                 = 0) by (unfold preset_of; rewrite Hnone; reflexivity).
  destruct args as [|a rest].
  - apply (plain_run e [] (fun base => mirrored "torrent-ids"
                                         (<["_" := VArr []]> base)));
      [exact He|exact Hp|]. intros base Hbase Hidle.
    split; [|split; [|split]].
    + rewrite (templates_of_inputs "*" "[torrent-ids...]" "torrent-ids"
                 "torrentIds" runDownload _ []);
        [reflexivity|unfold input_commands; simpl; tauto
        |apply lookup_insert_eq|exact Hres].
    + apply unbound_positionals. reflexivity.
    + apply (off_after "torrent-ids" _ base); [|exact Hidle|reflexivity].
      intros k. apply unbound_agrees.
    + rewrite Hres, cb_default. apply steps_read_then; [discriminate..|].
      assert (E : truthy (get "torrentIds"
                    (mirrored "torrent-ids" (<["_" := VArr []]> base)))
                  = false).
      { unfold mirrored.
        change (Camel.is_multiword "torrent-ids") with true. cbv iota.
        change (Camel.camelCase "torrent-ids") with "torrentIds".
        unfold get at 1. rewrite lookup_insert_eq.
        change (truthy (get "torrent-ids" (<["_" := VArr []]> base)) = false).
        unfold get. rewrite lookup_insert_ne by discriminate.
        apply (idle_key "torrent-ids" base Hidle).
        unfold idle_keys. simpl. tauto. }
      rewrite E.
      intros s (Ht & Hn & _). simpl. rewrite Ht. split; [reflexivity|exact Hn].
  - destruct (inputs_run e "*" "[torrent-ids...]" "torrent-ids" "torrentIds"
                runDownload (a :: rest)
                (map (positional (flags_of options)) (a :: rest)) He
                ltac:(unfold input_commands; simpl; tauto) Hp Hres
                ltac:(rewrite Hpre; reflexivity) ltac:(discriminate))
      as (s & Hs & Hend).
    exists s. split; [exact Hs|].
    destruct rest as [|b rest]; [exact Hend|].
    cbn [map length] in Hend |- *. rewrite length_map in Hend. exact Hend.
Qed.

(** X16.  [download], [downloadmeta] and [seed] without options: without
    an input the program exits with status 1 and the error of usage; one
    input is handed to the function of the command; several are only
    counted, none is handed over. *)
Theorem input_command_dispatch
    (e : env) (c n : string) (fn : handler) (args : list string) :
  is_main e = true ->
  In (c, n, fn) [("download", "torrent-ids", runDownload);
                 ("downloadmeta", "torrent-ids", runDownloadMeta);
                 ("seed", "inputs", runSeed)] ->
  Forall (fun arg => dashed arg = false) args ->
  exists s,
    match args with
    | [] =>
        webtorrent e (c :: args) = (s, Exit 1)
        /\ trace s = [Line ("{red:Error:} " +:+ required_variadic n c)]
        /\ expectedError s = true
    | [a] =>
        webtorrent e (c :: args) = (s, Go tt)
        /\ trace s = [Call fn (VPrim (positional (flags_of options) a))]
        /\ torrentCount s = 1
    | _ :: _ :: _ =>
        webtorrent e (c :: args) = (s, Go tt)
        /\ trace s = [] /\ torrentCount s = length args
        /\ get "quiet" (argv s) = vtrue
    end.
Proof.
  intros He Hin Hp.
  assert (Hc : exists tok key,
             In (c, tok, n, key, fn) input_commands
             /\ Template.isRequired tok = true
             /\ dashed c = false
             /\ positional (flags_of options) c = PStr c
             /\ is_Some (commands !! c)).
  { simpl in Hin.
    repeat (destruct Hin as [Hin|Hin]; [injection Hin as <- <- <-|]);
      [| | |destruct Hin].
    - exists "<torrent-ids...>", "torrentIds".
      repeat split; try (vm_compute; reflexivity);
        [unfold input_commands; simpl; tauto|eexists; vm_compute; reflexivity].
    - exists "<torrent-ids...>", "torrentIds".
      repeat split; try (vm_compute; reflexivity);
        [unfold input_commands; simpl; tauto|eexists; vm_compute; reflexivity].
    - exists "<inputs...>", "inputs".
      repeat split; try (vm_compute; reflexivity);
        [unfold input_commands; simpl; tauto|eexists; vm_compute; reflexivity]. }
  destruct Hc as (tok & key & Htab & Hreq & Hdash & Hpos & spec & Hspec).
  assert (Hsel : forall l, names_command commands (PStr c :: l) = Some c)
    by (intros l; apply (names_command_named _ _ _ _ Hspec)).
  assert (Hres : resolved commands
                   (map (positional (flags_of options)) (c :: args)) = c).
  { cbn [map]. rewrite Hpos. unfold resolved. rewrite Hsel. reflexivity. }
  assert (Hpre : preset_of commands
                   (map (positional (flags_of options)) (c :: args)) = 1).
  { cbn [map]. rewrite Hpos. unfold preset_of. rewrite Hsel. reflexivity. }
  assert (Hall : Forall (fun arg => dashed arg = false) (c :: args))
    by (constructor; assumption).
  destruct args as [|a rest].
  - destruct base_parse as (base & Hbase & _).
    assert (Hparse : minimistPrettyParse [c] (Some options) (Some commands)
                     = Throw (Error (required_variadic n c))).
    { rewrite parse_split.
      rewrite (plain_parse options [c] base eq_refl Hall Hbase).
      change (Return ?r ≫= parseTemplates commands)
        with (parseTemplates commands r).
      rewrite (templates_of_inputs c tok n key fn _ _ Htab
                 (lookup_insert_eq _ _ _) Hres).
      rewrite Hpre. cbn [map]. rewrite drop_head, Hreq. reflexivity. }
    unfold webtorrent, parse_argv. rewrite Hparse.
    eexists. split; [reflexivity|]. split; reflexivity.
  - destruct (inputs_run e c tok n key fn (c :: a :: rest)
                (map (positional (flags_of options)) (a :: rest)) He
                Htab Hall Hres
                ltac:(rewrite Hpre; reflexivity) ltac:(discriminate))
      as (s & Hs & Hend).
    exists s. destruct rest as [|b rest]; [split; [exact Hs|exact Hend]|].
    split; [exact Hs|].
    cbn [map length] in Hend |- *. rewrite length_map in Hend. exact Hend.
Qed.

Lemma usage_error e args text :
  minimistPrettyParse args (Some options) (Some commands)
  = Throw (Error text) ->
  Str.is_empty text = false ->
  exists s, webtorrent e args = (s, Exit 1)
    /\ trace s = [Line ("{red:Error:} " +:+ text)]
    /\ expectedError s = true.
Proof.
  intros H Ht. unfold webtorrent, parse_argv. rewrite H.
  unfold error_text. rewrite Ht.
  eexists. split; [reflexivity|]. split; reflexivity.
Qed.

(** A name of the table of commands in first place, followed by arguments
    without dashes. *)
Lemma named_plain c args :
  is_Some (commands !! c) -> dashed c = false ->
  positional (flags_of options) c = PStr c ->
  Forall (fun arg => dashed arg = false) args ->
  Forall (fun arg => dashed arg = false) (c :: args)
  /\ resolved commands (map (positional (flags_of options)) (c :: args)) = c
  /\ preset_of commands (map (positional (flags_of options)) (c :: args)) = 1
  /\ names_command commands (map (positional (flags_of options)) (c :: args))
     = Some c.
Proof.
  intros [spec Hspec] Hdash Hpos Hp.
  assert (Hsel : names_command commands
                   (map (positional (flags_of options)) (c :: args)) = Some c).
  { cbn [map]. rewrite Hpos. apply (names_command_named _ _ _ _ Hspec). }
  split; [constructor; assumption|]. unfold resolved, preset_of.
  rewrite Hsel. repeat split; reflexivity.
Qed.

Lemma plain_positionals_parse args base :
  Forall (fun arg => dashed arg = false) args ->
  minimistPrettyParse [] (Some options) None = Return base ->
  minimistPrettyParse args (Some options) (Some commands)
  = parseTemplates commands
      (<["_" := VArr (map (positional (flags_of options)) args)]> base).
Proof.
  intros Hp Hbase. rewrite parse_split.
  rewrite (plain_parse options args base eq_refl Hp Hbase). reflexivity.
Qed.

(** X17.  [create] and [info] without options take one argument, which is
    handed to the function of the command; none, or one that is the number
    zero or the empty string, and more than one end the program with
    status 1 and the error of usage. *)
Theorem single_command_dispatch
    (e : env) (c n : string) (fn : handler) (args : list string) :
  is_main e = true ->
  In (c, n, fn) [("create", "input", runCreate);
                 ("info", "torrent-id", runInfo)] ->
  Forall (fun arg => dashed arg = false) args ->
  exists s,
    match args with
    | [] =>
        webtorrent e (c :: args) = (s, Exit 1)
        /\ trace s = [Line ("{red:Error:} " +:+ required_argument n c)]
    | [a] =>
        if prim_truthy (positional (flags_of options) a)
        then webtorrent e (c :: args) = (s, Go tt)
             /\ trace s
                = [Call fn (VPrim (positional (flags_of options) a))]
        else webtorrent e (c :: args) = (s, Exit 1)
             /\ trace s = [Line ("{red:Error:} " +:+ required_argument n c)]
    | _ :: _ :: _ =>
        webtorrent e (c :: args) = (s, Exit 1)
        /\ trace s = [Line ("{red:Error:} " +:+ too_many c)]
    end.
Proof.
  intros He Hin Hp.
  assert (Hc : exists tok key,
             one_token commands c tok n
             /\ Template.isArray tok = false
             /\ Template.isRequired tok = true
             /\ dashed c = false
             /\ positional (flags_of options) c = PStr c
             /\ is_Some (commands !! c)
             /\ cb c = (v ← read key; emit (Call fn v))
             /\ (forall v (r : obj), get key (mirrored n (<[n := v]> r)) = v)
             /\ String.eqb "_" n = false
             /\ String.eqb "_" (Camel.camelCase n) = false
             /\ forallb (fun k => existsb (String.eqb k) idle_keys
                                  && negb (String.eqb k n)
                                  && negb (String.eqb k (Camel.camelCase n))
                                  && negb (String.eqb k "_"))
                        ["help"; "version"; "subtitles"; "onDone"; "onExit";
                         "playerArgs"] = true
             /\ key <> "q" /\ key <> "quiet").
  { simpl in Hin.
    repeat (destruct Hin as [Hin|Hin]; [injection Hin as <- <- <-|]);
      [| |destruct Hin].
    - exists "<input>", "input".
      split; [eexists; repeat split; vm_compute; reflexivity|].
      repeat split; try (vm_compute; reflexivity); try discriminate;
        [eexists; vm_compute; reflexivity|intros; apply bound_own].
    - exists "<torrent-id>", "torrentId".
      split; [eexists; repeat split; vm_compute; reflexivity|].
      repeat split; try (vm_compute; reflexivity); try discriminate;
        [eexists; vm_compute; reflexivity
        |intros; apply (bound_camel "torrent-id"); reflexivity]. }
  destruct Hc as (tok & key & Hone & Ha & Hreq & Hdash & Hpos & Hsome & Hcb
                  & Hkey & Hu1 & Hu2 & Hkeys & Hq1 & Hq2).
  destruct (named_plain c args Hsome Hdash Hpos Hp)
    as (Hall & Hres & Hpre & Hsel).
  destruct base_parse as (base & Hbase & Hidle0).
  pose proof Hone as (spec & _ & _ & _ & Hm & Hn).
  assert (Hnp : n <> "__proto__").
  { simpl in Hin. intros ->.
    repeat (destruct Hin as [Hin|Hin]; [discriminate Hin|]). destruct Hin. }
  assert (Hparse : minimistPrettyParse (c :: args) (Some options)
                     (Some commands)
                   = bind_tokens c 1 [tok] 0 false
                       (<["_" := VArr (map (positional (flags_of options))
                                          (c :: args))]> base)).
  { rewrite (plain_positionals_parse _ base Hall Hbase).
    rewrite (parseTemplates_one_token _ c tok n _ _ Hone Hres
               (lookup_insert_eq _ _ _)).
    rewrite Hpre. reflexivity. }
  rewrite (bind_single c 1 tok n _ _ Hm Hn Ha Hreq Hnp
             (lookup_insert_eq _ _ _)) in Hparse.
  cbn [map length] in Hparse. rewrite Hpos in Hparse.
  destruct args as [|a [|b rest]].
  - destruct (usage_error e [c] (required_argument n c)) as (s & Hs & Ht & _);
      [exact Hparse|reflexivity|].
    exists s. split; assumption.
  - cbn [map length Nat.ltb Nat.leb lookup list_lookup] in Hparse.
    destruct (prim_truthy (positional (flags_of options) a)) eqn:Et.
    + apply (plain_run e [c; a]
               (fun base =>
                  mirrored n
                    (<[n := VPrim (positional (flags_of options) a)]>
                       (<["_" := VArr (map (positional (flags_of options))
                                          [c; a])]> base))));
        [exact He|exact Hall|]. intros base' Hbase' Hidle.
      assert (base' = base) as -> by congruence.
      split; [|split; [|split]].
      * rewrite <- (plain_positionals_parse _ base Hall Hbase).
        rewrite Hparse. cbn [map]. rewrite Hpos. reflexivity.
      * apply bound_positionals; assumption.
      * apply (off_after n _ base); [|exact Hidle|exact Hkeys].
        intros k. apply bound_agrees.
      * rewrite Hres, Hcb. apply steps_read_then; [assumption..|].
        rewrite Hkey. intros s (Ht & _). simpl. rewrite Ht. reflexivity.
    + destruct (usage_error e [c; a] (required_argument n c))
        as (s & Hs & Ht & _); [exact Hparse|reflexivity|].
      exists s. split; assumption.
  - cbn [map length Nat.ltb Nat.leb] in Hparse.
    destruct (usage_error e (c :: a :: b :: rest) (too_many c))
      as (s & Hs & Ht & _); [exact Hparse|reflexivity|].
    exists s. split; assumption.
Qed.

(** X18.  [version] and [help] as commands, without options: alone, the
    function of the command is called; followed by an argument, the
    program ends with status 1 and the error [Was not expecting
    arguments]. *)
Theorem bare_command_dispatch
    (e : env) (c : string) (fn : handler) (args : list string) :
  is_main e = true ->
  In (c, fn) [("version", runVersion); ("help", runHelp)] ->
  Forall (fun arg => dashed arg = false) args ->
  exists s,
    match args with
    | [] =>
        webtorrent e (c :: args) = (s, Go tt)
        /\ trace s = [Call fn VUndef]
    | _ :: _ =>
        webtorrent e (c :: args) = (s, Exit 1)
        /\ trace s = [Line "{red:Error:} Was not expecting arguments"]
    end.
Proof.
  intros He Hin Hp.
  assert (Hc : untemplated commands c
               /\ dashed c = false
               /\ positional (flags_of options) c = PStr c
               /\ is_Some (commands !! c)
               /\ cb c = emit (Call fn VUndef)).
  { simpl in Hin.
    repeat (destruct Hin as [Hin|Hin]; [injection Hin as <- <-|]);
      [| |destruct Hin];
      (split; [eexists; split; vm_compute; reflexivity|]);
      repeat split; try (vm_compute; reflexivity);
      eexists; vm_compute; reflexivity. }
  destruct Hc as ((spec & Hspec & Ht) & Hdash & Hpos & Hsome & Hcb).
  destruct (named_plain c args Hsome Hdash Hpos Hp)
    as (Hall & Hres & Hpre & Hsel).
  assert (Htem : forall base,
             parseTemplates commands
               (<["_" := VArr (map (positional (flags_of options))
                                  (c :: args))]> base)
             = match args with
               | [] => Return (<["_" := VArr [PStr c]]> base)
               | _ :: _ => Throw (Error "Was not expecting arguments")
               end).
  { intros base.
    rewrite (parseTemplates_resolved _ _ _ (lookup_insert_eq _ _ _)).
    rewrite Hres, Hsel. unfold template_of. rewrite Hspec.
    cbn [mbind outcome_bind]. rewrite Ht. cbn [map]. rewrite Hpos.
    destruct args as [|a rest]; reflexivity. }
  destruct args as [|a rest].
  - apply (plain_run e [c] (fun base => <["_" := VArr [PStr c]]> base));
      [exact He|exact Hall|]. intros base Hbase Hidle.
    split; [|split; [|split]].
    + apply (Htem base).
    + cbn [map]. rewrite Hpos. apply lookup_insert_eq.
    + apply (off_after "_" _ base); [|exact Hidle|reflexivity].
      intros k _ _ Hk. apply String.eqb_neq in Hk. unfold get.
      rewrite lookup_insert_ne by congruence. reflexivity.
    + rewrite Hres, Hcb. intros s (Htr & _). simpl. rewrite Htr. reflexivity.
  - destruct base_parse as (base & Hbase & _).
    destruct (usage_error e (c :: a :: rest) "Was not expecting arguments")
      as (s & Hs & Htr & _); [|reflexivity|].
    + rewrite (plain_positionals_parse _ base Hall Hbase). apply (Htem base).
    + exists s. split; assumption.
Qed.

(** ** [processInputs] with several inputs *)

(** X19.  With more than one input, [processInputs] never calls the
    function it is given: it ends the program with the error that names the
    first of the arguments it refuses that [argv] holds, or else only
    records the number of inputs and turns [quiet] on. *)
Theorem several_inputs_never_handled
    (l : list prim) (fn : handler) (s : state) :
  1 < length l ->
  processInputs (VArr l) fn s
  = match List.find (fun arg => truthy (get arg (argv s)))
                    invalidArguments with
    | Some arg =>
        ({| argv := argv s; playerArgs := playerArgs s;
            playerName := playerName s;
            subtitlesServer := subtitlesServer s;
            torrentCount := torrentCount s; expectedError := true;
            trace := trace s
                     ++ [Line ("{red:Error:} The --" +:+ arg +:+
                           " argument cannot be used with multiple files/folders.")]
         |}, Exit 1)
    | None =>
        ({| argv := <["quiet" := vtrue]> (<["q" := vtrue]> (argv s));
            playerArgs := playerArgs s; playerName := playerName s;
            subtitlesServer := subtitlesServer s;
            torrentCount := length l; expectedError := expectedError s;
            trace := trace s |}, Go tt)
    end.
Proof.
  intros Hl. unfold processInputs.
  apply Nat.ltb_lt in Hl. rewrite Hl.
  unfold mbind at 1, M_bind at 1.
  rewrite (refused_scan (fun arg => "The --" +:+ arg +:+
             " argument cannot be used with multiple files/folders.")).
  destruct (List.find _ invalidArguments) as [arg|]; reflexivity.
Qed.

(** ** The options [--help] and [--version] *)

(** X20.  When the parse returns a result in which [help] or [version] is
    truthy, the program calls [runHelp], or [runVersion] when [help] is
    not, and does nothing else: the arguments of the players and the other
    variables are as the module loaded them, whatever the command and the
    other options. *)
Theorem help_or_version_first (e : env) (args : list string) (r : obj) :
  is_main e = true ->
  minimistPrettyParse args (Some options) (Some commands) = Return r ->
  truthy (get "help" r) || truthy (get "version" r) = true ->
  webtorrent e args
  = ({| argv := r; playerArgs := playerArgs loaded; playerName := None;
        subtitlesServer := None; torrentCount := 1; expectedError := false;
        trace := [Call (if truthy (get "help" r) then runHelp else runVersion)
                       VUndef] |}, Go tt).
Proof.
  intros He Hr H. unfold webtorrent, parse_argv. rewrite Hr, He.
  cbn [when]. unfold main, mbind, M_bind, set_argv, read. cbn [argv].
  rewrite H. reflexivity.
Qed.

(** ** The scripts of [--on-done] and [--on-exit] *)

Ltac player_step :=
  apply steps_unit_then;
  [first [ apply steps_when, prepared_push_args
         | apply prepared_push_args ]; unfold players; simpl; tauto|].

(** X21.  A script given with [--on-done] that is missing or not
    executable ends the program with status 1 and an error that is
    expected, before the function of any command is called. *)
Theorem script_refused_before_command
    (e : env) (args : list string) (r : obj) (l : list prim)
    (path : string) :
  is_main e = true ->
  minimistPrettyParse args (Some options) (Some commands) = Return r ->
  r !! "_" = Some (VArr l) ->
  truthy (get "help" r) = false -> truthy (get "version" r) = false ->
  truthy (get "subtitles" r) = false ->
  get "onDone" r = vstr path -> Str.is_empty path = false ->
  executable_sync e (vstr path) <> Some true ->
  exists s, webtorrent e args = (s, Exit 1)
    /\ trace s
       = [Line ("{red:Error:} Script " +:+ quote +:+ path +:+ quote +:+
                match executable_sync e (vstr path) with
                | Some _ => " is not executable"
                | None => " does not exist"
                end)]
    /\ expectedError s = true.
Proof.
  intros He Hr Hl Hhelp Hversion Hsub Hdone Hpath Hexec.
  unfold vstr in *. unfold webtorrent, parse_argv. rewrite Hr, He. cbn [when].
  unfold mbind at 1, M_bind at 1. cbn [set_argv].
  assert (Hmain : triple (prepared r [] 1) (main e) (fun _ _ => False)
            (fun h s =>
               h = Exited 1
               /\ trace s
                  = [Line ("{red:Error:} Script " +:+ quote +:+ path +:+ quote
                           +:+ match executable_sync e (VPrim (PStr path)) with
                               | Some _ => " is not executable"
                               | None => " does not exist"
                               end)]
               /\ expectedError s = true)).
  { unfold main.
    apply steps_read_then; [discriminate..|].
    apply steps_read_then; [discriminate..|].
    rewrite Hhelp, Hversion. cbn [orb].
    apply steps_read_then; [discriminate..|].
    player_step. player_step.
    apply steps_read_then; [discriminate..|].
    apply steps_unit_then; [apply steps_when, prepared_enableQuiet|].
    apply steps_read_then; [discriminate..|].
    rewrite (get_lookup _ _ _ Hl).
    apply (steps_then _ _ _ (fun v => v = match l !! 0 with
                                          | Some p => VPrim p
                                          | None => VUndef
                                          end));
      [apply prepared_lift; reflexivity|intros command ->].
    apply (steps_then _ _ _ (fun _ => True));
      [apply prepared_peek|intros ? _].
    apply steps_unit_then; [apply prepared_set_playerName|].
    apply steps_read_then; [discriminate..|].
    rewrite Hsub. apply steps_unit_then; [apply steps_skip|].
    apply steps_read_then; [discriminate..|].
    player_step.
    apply steps_read_then; [discriminate..|].
    apply steps_unit_then.
    { apply steps_when. player_step. player_step.
      apply prepared_push_args; unfold players; simpl; tauto. }
    apply steps_read_then; [discriminate..|].
    rewrite Hdone. cbn [truthy prim_truthy]. rewrite Hpath. cbn [negb when].
    intros s (Ht & _). unfold mbind, M_bind, checkPermission.
    cbn [text_of prim_text].
    destruct (executable_sync e (VPrim (PStr path))) as [[]|];
      [contradiction Hexec; reflexivity| |];
      unfold errorAndExit, mbind, M_bind, emit, set_expectedError, exit;
      cbn [trace expectedError]; rewrite Ht; repeat split; reflexivity. }
  match goal with
  | |- exists s, main e ?s0 = _ /\ _ => specialize (Hmain s0)
  end.
  match type of Hmain with
  | ?P -> _ => assert (HP : P)
  end.
  { repeat split; try reflexivity.
    apply Forall_forall. intros p Hp'. apply list_elem_of_In in Hp'.
    unfold players in Hp'. simpl in Hp'.
    repeat (destruct Hp' as [<-|Hp']; [eexists; reflexivity|]).
    destruct Hp'. }
  specialize (Hmain HP).
  destruct (main e _) as [s' [[]|code|err|]]; try contradiction;
    destruct Hmain as (Hh & Ht & Hexp); try discriminate Hh.
  injection Hh as ->. exists s'. repeat split; assumption.
Qed.

Lemma default_command_dispatch_witness :
  exists s, webtorrent plain_env ["magnet:a"; "magnet:b"] = (s, Go tt)
    /\ trace s = [] /\ torrentCount s = 2
    /\ get "quiet" (argv s) = vtrue.
Proof.
  apply (default_command_dispatch plain_env ["magnet:a"; "magnet:b"]).
  - reflexivity.
  - repeat constructor.
  - intros a Ha. injection Ha as <-. vm_compute. reflexivity.
Defined.

Lemma input_command_dispatch_witness :
  exists s, webtorrent plain_env ["seed"; "film.mkv"] = (s, Go tt)
    /\ trace s = [Call runSeed (vstr "film.mkv")] /\ torrentCount s = 1.
Proof.
  apply (input_command_dispatch plain_env "seed" "inputs" runSeed
           ["film.mkv"]).
  - reflexivity.
  - simpl. tauto.
  - repeat constructor.
Defined.

Lemma single_command_dispatch_witness :
  exists s, webtorrent plain_env ["info"; "0"] = (s, Exit 1)
    /\ trace s
       = [Line "{red:Error:} 'torrent-id' argument is required for 'info' command"].
Proof.
  apply (single_command_dispatch plain_env "info" "torrent-id" runInfo ["0"]).
  - reflexivity.
  - simpl. tauto.
  - repeat constructor.
Defined.

Lemma bare_command_dispatch_witness :
  exists s, webtorrent plain_env ["version"; "now"] = (s, Exit 1)
    /\ trace s = [Line "{red:Error:} Was not expecting arguments"].
Proof.
  apply (bare_command_dispatch plain_env "version" runVersion ["now"]).
  - reflexivity.
  - simpl. tauto.
  - repeat constructor.
Defined.

Lemma several_inputs_never_handled_witness :
  processInputs (VArr [PStr "a"; PStr "b"]) runDownload
    {| argv := {[ "vlc" := vtrue ]}; playerArgs := []; playerName := None;
       subtitlesServer := None; torrentCount := 1; expectedError := false;
       trace := [] |}
  = ({| argv := {[ "vlc" := vtrue ]}; playerArgs := []; playerName := None;
        subtitlesServer := None; torrentCount := 1; expectedError := true;
        trace := [Line "{red:Error:} The --vlc argument cannot be used with multiple files/folders."]
     |}, Exit 1).
Proof.
  rewrite (several_inputs_never_handled [PStr "a"; PStr "b"] runDownload
             {| argv := {[ "vlc" := vtrue ]}; playerArgs := [];
                playerName := None; subtitlesServer := None;
                torrentCount := 1; expectedError := false; trace := [] |})
    by (simpl; lia).
  vm_compute. reflexivity.
Defined.

Lemma help_or_version_first_witness :
  exists r, webtorrent plain_env ["--version"; "--help"]
  = ({| argv := r; playerArgs := playerArgs loaded; playerName := None;
        subtitlesServer := None; torrentCount := 1; expectedError := false;
        trace := [Call runHelp VUndef] |}, Go tt).
Proof.
  assert (F : field "help" (minimistPrettyParse ["--version"; "--help"]
                              (Some options) (Some commands))
              = Some vtrue) by (vm_compute; reflexivity).
  apply field_Some in F as (r & Hr & Hhelp).
  exists r.
  rewrite (help_or_version_first plain_env ["--version"; "--help"] r
             eq_refl Hr);
    rewrite (get_lookup _ _ _ Hhelp); reflexivity.
Defined.

Lemma script_refused_before_command_witness :
  exists s,
    webtorrent {| DEBUG := None; is_main := true;
                  executable_sync := fun _ => Some false;
                  realpathSync := realpathSync plain_env;
                  dirname := dirname plain_env;
                  stringify := stringify plain_env |}
               ["--on-done"; "hook.sh"; "magnet:x"] = (s, Exit 1)
    /\ trace s
       = [Line ("{red:Error:} Script " +:+ quote +:+ "hook.sh" +:+ quote
                +:+ " is not executable")]
    /\ expectedError s = true.
Proof.
  assert (F : field "_" (minimistPrettyParse
                           ["--on-done"; "hook.sh"; "magnet:x"]
                           (Some options) (Some commands))
              = Some (VArr [PStr "magnet:x"])) by (vm_compute; reflexivity).
  apply field_Some in F as (r & Hr & Hl).
  assert (G : forall k v,
             field k (minimistPrettyParse
                        ["--on-done"; "hook.sh"; "magnet:x"]
                        (Some options) (Some commands)) = v ->
             r !! k = v) by (intros k v <-; rewrite Hr; reflexivity).
  assert (Hhelp : r !! "help" = Some vfalse)
    by (apply G; vm_compute; reflexivity).
  assert (Hversion : r !! "version" = Some vfalse)
    by (apply G; vm_compute; reflexivity).
  assert (Hsub : r !! "subtitles" = None)
    by (apply G; vm_compute; reflexivity).
  assert (Hdone : r !! "onDone" = Some (vstr "hook.sh"))
    by (apply G; vm_compute; reflexivity).
  apply (script_refused_before_command
           {| DEBUG := None; is_main := true;
              executable_sync := fun _ => Some false;
              realpathSync := realpathSync plain_env;
              dirname := dirname plain_env;
              stringify := stringify plain_env |}
           ["--on-done"; "hook.sh"; "magnet:x"] r [PStr "magnet:x"]
           "hook.sh");
    try reflexivity; try assumption.
  - rewrite (get_lookup _ _ _ Hhelp). reflexivity.
  - rewrite (get_lookup _ _ _ Hversion). reflexivity.
  - unfold get. rewrite Hsub. reflexivity.
  - apply (get_lookup _ _ _ Hdone).
  - discriminate.
Defined.

(** ** [--stdout] implies [--quiet] *)

Lemma quieted_same (s s' : state) :
  argv s' = argv s -> quieted s -> quieted s'.
Proof. unfold quieted. intros ->. auto. Qed.

Lemma quieted_emit ev : keeps quieted (emit ev).
Proof. intros s HI. exact HI. Qed.

Lemma quieted_write k v :
  (k <> "q" /\ k <> "quiet") \/ v = vtrue -> keeps quieted (write k v).
Proof.
  intros Hk s [H1 H2]. unfold quieted, get in *. simpl.
  destruct Hk as [[Hq Hquiet]| ->].
  - rewrite !lookup_insert_ne by congruence. split; assumption.
  - split.
    + destruct (decide (k = "quiet")) as [->|Hne];
        [rewrite lookup_insert_eq; reflexivity
        |rewrite lookup_insert_ne by exact Hne; exact H1].
    + destruct (decide (k = "q")) as [->|Hne];
        [rewrite lookup_insert_eq; reflexivity
        |rewrite lookup_insert_ne by exact Hne; exact H2].
Qed.

Lemma quieted_push_args p xs : keeps quieted (push_args p xs).
Proof.
  intros s HI. unfold push_args. destruct (oget p (playerArgs s)); exact HI.
Qed.

Lemma quieted_errorAndExit {A} text : keeps quieted (@errorAndExit A text).
Proof. intros s HI. exact HI. Qed.

Lemma quieted_enableQuiet : keeps quieted enableQuiet.
Proof.
  unfold enableQuiet.
  apply keeps_bind; [|intros _]; apply quieted_write; right; reflexivity.
Qed.

Lemma quieted_checkPermission e v : keeps quieted (checkPermission e v).
Proof.
  unfold checkPermission.
  destruct (executable_sync e v) as [[]|]; try apply keeps_ret;
    destruct (text_of v); try apply quieted_errorAndExit;
    intros s HI; exact HI.
Qed.

Lemma quieted_processInputs inputs fn :
  keeps quieted (processInputs inputs fn).
Proof.
  unfold processInputs. destruct inputs as [|p|l]; try apply keeps_ret.
  destruct (Nat.ltb 1 (length l)); [|apply quieted_emit].
  apply keeps_bind.
  - apply keeps_for_each. intros arg.
    apply keeps_bind; [apply keeps_read|intros v].
    apply keeps_when, quieted_errorAndExit.
  - intros _. apply keeps_bind; [intros s HI; exact HI|intros _].
    apply quieted_enableQuiet.
Qed.

Lemma quieted_cb c : keeps quieted (cb c).
Proof.
  unfold cb.
  destruct (oget c callbacks) as [f|] eqn:E; [|apply keeps_throw].
  unfold callbacks in E. simpl in E.
  repeat match type of E with
         | (if ?b then _ else _) = _ => destruct b
         end;
    try discriminate; injection E as <-;
    repeat first
      [ apply quieted_emit
      | apply quieted_processInputs
      | apply keeps_bind; [apply keeps_read|intros ?]
      | match goal with |- keeps _ (if ?b then _ else _) => destruct b end ].
Qed.

(** Once quiet is on, it stays on. *)
Lemma quieted_script e script k k' :
  k <> "q" -> k <> "quiet" -> k' <> "q" -> k' <> "quiet" ->
  keeps quieted
    (_ ← checkPermission e script;
     match realpathSync e script with
     | inr path => _ ← write k (vstr path); write k' (vstr path)
     | inl err => throw err
     end).
Proof.
  intros H1 H2 H3 H4.
  apply keeps_bind; [apply quieted_checkPermission|intros _].
  destruct (realpathSync e script); [apply keeps_throw|].
  apply keeps_bind; [|intros _]; apply quieted_write; left; split; assumption.
Qed.

(** X22.  [--stdout], like the variable [DEBUG], implies [--quiet]: when the
    parse returns and asks neither for the help nor for the version, and
    [DEBUG] is set or [stdout] is truthy, [argv.quiet] and [argv.q] are
    [true] when the run ends, however it ends. *)
Theorem stdout_implies_quiet (e : env) (args : list string) (r : obj) :
  is_main e = true ->
  minimistPrettyParse args (Some options) (Some commands) = Return r ->
  truthy (get "help" r) = false -> truthy (get "version" r) = false ->
  env_truthy (DEBUG e) || truthy (get "stdout" r) = true ->
  get "quiet" (argv (fst (webtorrent e args))) = vtrue
  /\ get "q" (argv (fst (webtorrent e args))) = vtrue.
Proof.
  intros He Hr Hhelp Hversion Hq.
  change (quieted (fst (webtorrent e args))).
  unfold webtorrent, parse_argv. rewrite Hr, He. cbn [when].
  unfold mbind at 1, M_bind at 1. cbn [set_argv].
  assert (Hmain : triple (prepared r [] 1) (main e) (fun _ => quieted)
                    (fun _ => quieted)).
  { unfold main.
    apply steps_read_then; [discriminate..|].
    apply steps_read_then; [discriminate..|].
    rewrite Hhelp, Hversion. cbn [orb].
    apply steps_read_then; [discriminate..|].
    apply steps_unit_then;
      [apply prepared_push_args; unfold players; simpl; tauto|].
    apply steps_unit_then;
      [apply steps_when, prepared_push_args; unfold players; simpl; tauto|].
    apply steps_read_then; [discriminate..|].
    rewrite Hq. cbn [when].
    apply (triple_bind _ _ _ (fun _ => quieted)).
    { intros s _. unfold enableQuiet, mbind, M_bind, write, quieted, get.
      simpl. rewrite lookup_insert_eq.
      rewrite lookup_insert_ne by discriminate. rewrite lookup_insert_eq.
      split; reflexivity. }
    intros _.
    apply keeps_bind; [apply keeps_read|intros positionals].
    apply keeps_bind; [apply keeps_lift|intros command].
    apply keeps_bind; [intros s HI; exact HI|intros ?].
    apply keeps_bind; [intros s HI; exact HI|intros _].
    apply keeps_bind; [apply keeps_read|intros subtitles].
    apply keeps_bind.
    { apply keeps_when.
      repeat (apply keeps_bind; [apply quieted_push_args|intros _]).
      destruct subtitles as [|[b|path|lit]|l];
        try apply keeps_throw; intros s HI; exact HI. }
    intros _.
    apply keeps_bind; [apply keeps_read|intros pip].
    apply keeps_bind; [apply keeps_when, quieted_push_args|intros _].
    apply keeps_bind; [apply keeps_read|intros notOnTop].
    apply keeps_bind.
    { apply keeps_when.
      repeat (apply keeps_bind; [apply quieted_push_args|intros _]).
      apply quieted_push_args. }
    intros _.
    apply keeps_bind; [apply keeps_read|intros onDone].
    apply keeps_bind;
      [apply keeps_when, quieted_script; discriminate|intros _].
    apply keeps_bind; [apply keeps_read|intros onExit].
    apply keeps_bind;
      [apply keeps_when, quieted_script; discriminate|intros _].
    apply keeps_bind; [intros s HI; exact HI|intros name].
    apply keeps_bind; [apply keeps_read|intros given].
    apply keeps_bind.
    { destruct name as [player|]; [|apply keeps_ret].
      apply keeps_when.
      destruct given as [|[b|text|lit]|l];
        try apply keeps_throw; apply quieted_push_args. }
    intros _.
    destruct command as [|[b|c|lit]|l]; try apply quieted_cb.
    destruct (bool_decide _); apply quieted_cb. }
  match goal with
  | |- context [main e ?s0] => specialize (Hmain s0)
  end.
  match type of Hmain with
  | ?P -> _ => assert (HP : P)
  end.
  { repeat split; try reflexivity.
    apply Forall_forall. intros p Hp'. apply list_elem_of_In in Hp'.
    unfold players in Hp'. simpl in Hp'.
    repeat (destruct Hp' as [<-|Hp']; [eexists; reflexivity|]).
    destruct Hp'. }
  specialize (Hmain HP).
  destruct (main e _) as [s' [[]|code|err|]]; exact Hmain.
Qed.

Lemma stdout_implies_quiet_witness :
  get "quiet" (argv (fst (webtorrent plain_env ["--stdout"; "magnet:x"])))
  = vtrue
  /\ get "q" (argv (fst (webtorrent plain_env ["--stdout"; "magnet:x"])))
     = vtrue.
Proof.
  assert (F : field "stdout" (minimistPrettyParse ["--stdout"; "magnet:x"]
                                (Some options) (Some commands))
              = Some vtrue) by (vm_compute; reflexivity).
  apply field_Some in F as (r & Hr & Hstdout).
  assert (G : forall k v,
             field k (minimistPrettyParse ["--stdout"; "magnet:x"]
                        (Some options) (Some commands)) = v ->
             r !! k = v) by (intros k v <-; rewrite Hr; reflexivity).
  assert (Hhelp : r !! "help" = Some vfalse)
    by (apply G; vm_compute; reflexivity).
  assert (Hversion : r !! "version" = Some vfalse)
    by (apply G; vm_compute; reflexivity).
  apply (stdout_implies_quiet plain_env ["--stdout"; "magnet:x"] r eq_refl Hr).
  - rewrite (get_lookup _ _ _ Hhelp). reflexivity.
  - rewrite (get_lookup _ _ _ Hversion). reflexivity.
  - rewrite (get_lookup _ _ _ Hstdout). reflexivity.
Defined.

(** ** Subtitles given more than once *)

Lemma js_index_modelled n v : js_index n v <> Unmodelled.
Proof. destruct v as [|[b|s|lit]|l]; discriminate. Qed.

(** X23.  When [--subtitles] is given more than once its value is an array,
    which [path.dirname] refuses: [main] ends with a [TypeError] that
    nothing catches, before any command is run, and the listener of the
    [exit] event reports an unexpected error. *)
Theorem repeated_subtitles_uncaught
    (e : env) (info : string) (args : list string) (r : obj)
    (paths : list prim) :
  is_main e = true ->
  minimistPrettyParse args (Some options) (Some commands) = Return r ->
  truthy (get "help" r) = false -> truthy (get "version" r) = false ->
  get "subtitles" r = VArr paths ->
  exists s message,
    finish info (webtorrent e args) = (s, Uncaught (TypeError message))
    /\ trace s
       = [Line (String "010"
            "{red:UNEXPECTED ERROR:} If this is a bug in WebTorrent, report it!");
          Line ("{green:OPEN AN ISSUE:} https://github.com/webtorrent/webtorrent-cli/issues"
                +:+ String "010" "");
          Line info].
Proof.
  intros He Hr Hhelp Hversion Hsub.
  unfold webtorrent, parse_argv. rewrite Hr, He. cbn [when].
  unfold mbind at 1, M_bind at 1. cbn [set_argv].
  assert (Hmain : triple (prepared r [] 1) (main e) (fun _ _ => False)
            (fun h s =>
               (exists message, h = Raised (TypeError message))
               /\ trace s = [] /\ expectedError s = false)).
  { unfold main.
    apply steps_read_then; [discriminate..|].
    apply steps_read_then; [discriminate..|].
    rewrite Hhelp, Hversion. cbn [orb].
    apply steps_read_then; [discriminate..|].
    player_step. player_step.
    apply steps_read_then; [discriminate..|].
    apply steps_unit_then; [apply steps_when, prepared_enableQuiet|].
    apply steps_read_then; [discriminate..|].
    destruct (js_index 0 (get "_" r)) as [command|err|] eqn:Ei;
      [|apply js_index_fault in Ei as [m ->];
        intros s (Ht & _ & _ & _ & Hex); cbn;
        split; [eexists; reflexivity|split; assumption]
       |destruct (js_index_modelled _ _ Ei)].
    apply (steps_then _ _ _ (fun v => v = command));
      [apply prepared_lift; reflexivity|intros ? ->].
    apply (steps_then _ _ _ (fun _ => True));
      [apply prepared_peek|intros ? _].
    apply steps_unit_then; [apply prepared_set_playerName|].
    apply steps_read_then; [discriminate..|].
    rewrite Hsub. cbn [truthy when].
    apply (triple_bind _ _ _ (fun _ _ => False)); [|intros ? s []].
    cbv zeta. player_step. player_step. player_step. player_step.
    intros s (Ht & _ & _ & _ & Hex). cbn.
    split; [eexists; reflexivity|split; assumption]. }
  match goal with
  | |- context [main e ?s0] => specialize (Hmain s0)
  end.
  match type of Hmain with
  | ?P -> _ => assert (HP : P)
  end.
  { repeat split; try reflexivity.
    apply Forall_forall. intros p Hp'. apply list_elem_of_In in Hp'.
    unfold players in Hp'. simpl in Hp'.
    repeat (destruct Hp' as [<-|Hp']; [eexists; reflexivity|]).
    destruct Hp'. }
  specialize (Hmain HP).
  destruct (main e _) as [s' [[]|code|err|]]; try contradiction;
    destruct Hmain as ([message Hm] & Ht & Hex); try discriminate Hm.
  injection Hm as ->. unfold finish, on_exit. rewrite Hex. cbn [Nat.eqb orb].
  eexists _, message. split; [reflexivity|].
  unfold mbind, M_bind, emit. cbn. rewrite Ht. reflexivity.
Qed.

Lemma repeated_subtitles_uncaught_witness :
  exists s message,
    finish "info"
      (webtorrent plain_env
         ["--subtitles"; "a.srt"; "-t"; "b.srt"; "magnet:x"])
    = (s, Uncaught (TypeError message))
    /\ trace s
       = [Line (String "010"
            "{red:UNEXPECTED ERROR:} If this is a bug in WebTorrent, report it!");
          Line ("{green:OPEN AN ISSUE:} https://github.com/webtorrent/webtorrent-cli/issues"
                +:+ String "010" "");
          Line "info"].
Proof.
  assert (F : field "subtitles"
                (minimistPrettyParse
                   ["--subtitles"; "a.srt"; "-t"; "b.srt"; "magnet:x"]
                   (Some options) (Some commands))
              = Some (VArr [PStr "a.srt"; PStr "b.srt"]))
    by (vm_compute; reflexivity).
  apply field_Some in F as (r & Hr & Hsub).
  assert (G : forall k v,
             field k (minimistPrettyParse
                        ["--subtitles"; "a.srt"; "-t"; "b.srt"; "magnet:x"]
                        (Some options) (Some commands)) = v ->
             r !! k = v) by (intros k v <-; rewrite Hr; reflexivity).
  assert (Hhelp : r !! "help" = Some vfalse)
    by (apply G; vm_compute; reflexivity).
  assert (Hversion : r !! "version" = Some vfalse)
    by (apply G; vm_compute; reflexivity).
  apply (repeated_subtitles_uncaught plain_env "info"
           ["--subtitles"; "a.srt"; "-t"; "b.srt"; "magnet:x"] r
           [PStr "a.srt"; PStr "b.srt"] eq_refl Hr).
  - rewrite (get_lookup _ _ _ Hhelp). reflexivity.
  - rewrite (get_lookup _ _ _ Hversion). reflexivity.
  - apply (get_lookup _ _ _ Hsub).
Defined.
